(** * UTHOPIA SSH framework: connection pool, executor, dispatcher, tunnel

    A shallow embedding of [uthopiassh.py].  Python objects with identity
    (SSH clients, channels, sockets) are numbered handles; dictionaries are
    [gmap]s, with the order of their keys where the code iterates over
    them; the transport library, the sockets and the clock are an
    interface ([Transport]) whose operations act on an abstract world and may
    raise.  Methods that mutate [self] are functions on an explicit state. *)

From Stdlib Require Import ZArith.
From stdpp Require Import base option list gmap strings pretty sorting.

Local Open Scope string_scope.
Local Open Scope Z_scope.
Local Open Scope list_scope.

(** ** Exceptions and results *)

(** An instance of Python's [Exception]; [str] is [str(e)]. *)
Inductive exn : Type := Exception (msg : string).

Definition str (e : exn) : string :=
  match e with Exception msg => msg end.

(** The outcome of a call that may raise. *)
Inductive Result (A : Type) : Type :=
| Ok (a : A)
| Raise (e : exn).
Arguments Ok {A} a.
Arguments Raise {A} e.

(** ** Data classes *)

(** [class SSHHost] (lines 49-62). *)
Record SSHHost : Type := {
  hostname : string;
  username : string;
  password : option string;
  key_filename : option string;
  port : Z;
  timeout : Z;
  tags : list string
}.

(** Handles of the objects the code holds by reference. *)
Definition SSHClient : Type := nat.
Definition Channel : Type := nat.
Definition Socket : Type := nat.
Definition Addr : Type := (string * Z)%type.

(** The keyword arguments of one [ssh.connect(...)] call; an argument the
    call site leaves out is [None] (paramiko's default). *)
Record ConnectArgs : Type := {
  c_hostname : string;
  c_port : Z;
  c_username : string;
  c_password : option string;
  c_key_filename : option string;
  c_timeout : option Z
}.

Inductive Level : Type := INFO | ERROR.
Definition LogRecord : Type := (Level * string)%type.

(** The two ends a relay copies between. *)
Inductive Endpoint : Type :=
| OfSocket (s : Socket)
| OfChannel (c : Channel).

(** The calls the code makes on its collaborators, kept in call order. *)
Inductive Call : Type :=
| CConnect (ssh : SSHClient) (args : ConnectArgs)
| CClose (ssh : SSHClient)
| CExecCommand (ssh : SSHClient) (command : string)
| CStdoutRead (ch : Channel)
| CStderrRead (ch : Channel)
| CRecvExitStatus (ch : Channel)
| CBindListen (local_port : Z)
| CAccept (local_socket : Socket)
| COpenChannel (ssh : SSHClient) (dest : string * Z) (src : Addr)
| CStartRelay (client_socket : Socket) (channel : Channel)
| CRecv (source : Endpoint)
| CSend (destination : Endpoint) (data : list Byte.byte)
| CEndpointClose (e : Endpoint)
| CCallback.

(** ** The external collaborators *)

(** paramiko, the socket module, [time.time] and [bytes.decode], as
    transitions of an abstract world. *)
Class Transport : Type := {
  World : Type;
  Time : Type;
  time : World → Time;
  time_sub : Time → Time → Time;
  (* paramiko.SSHClient *)
  connect : SSHClient → ConnectArgs → World → World * Result unit;
  is_active : SSHClient → World → bool;
  close : SSHClient → World → World * Result unit;
  exec_command : SSHClient → string → World → World * Result Channel;
  stdout_read : Channel → World → World * Result (list Byte.byte);
  stderr_read : Channel → World → World * Result (list Byte.byte);
  recv_exit_status : Channel → World → World * Result Z;
  decode : list Byte.byte → Result string;
  (* sockets and direct-tcpip channels *)
  bind_listen : Z → World → World * Result Socket;
  accept : Socket → World → World * Result (Socket * Addr);
  open_channel : SSHClient → string * Z → Addr → World → World * Result Channel;
  recv : Endpoint → World → World * Result (list Byte.byte);
  send : Endpoint → list Byte.byte → World → World * Result unit;
  endpoint_close : Endpoint → World → World * Result unit
}.

(** [class TaskResult] (lines 64-74). *)
Record TaskResult `{Transport} : Type := {
  host : string;
  command : string;
  stdout : string;
  stderr : string;
  exit_code : Z;
  execution_time : Time;
  success : bool;
  error : option string
}.

(** ** Process state *)

(** [class SSHConnectionPool], its fields (lines 79-82); the lock is the
    atomicity of [get_connection] and [close_all] below.  A Python dict
    keeps its keys in the order of their insertion: [connections] holds
    the entries of [self.connections] and [key_order] its keys in that
    order. *)
Record SSHConnectionPool : Type := {
  max_connections : Z;
  connections : gmap string SSHClient;
  key_order : list string
}.

(** What the methods read and write: the pool object, the world outside,
    the number of [paramiko.SSHClient()] objects created so far, the
    records given to [logger], and the calls made so far. *)
Record State `{Transport} : Type := {
  pool : SSHConnectionPool;
  world : World;
  clients : nat;
  log : list LogRecord;
  calls : list Call
}.

Section Model.
Context `{T : Transport}.

Definition set_pool (p : SSHConnectionPool) (σ : State) : State :=
  {| pool := p; world := world σ; clients := clients σ; log := log σ;
     calls := calls σ |}.

(** [self.connections[key] = conn]: a new key goes last, a key of the dict
    keeps its place. *)
Definition dict_store (key : string) (conn : SSHClient) (σ : State) : State :=
  set_pool
    {| max_connections := max_connections (pool σ);
       connections := <[key := conn]> (connections (pool σ));
       key_order := if bool_decide (key ∈ key_order (pool σ))
                    then key_order (pool σ)
                    else key_order (pool σ) ++ [key] |} σ.

(** [del self.connections[key]]. *)
Definition dict_del (key : string) (σ : State) : State :=
  set_pool
    {| max_connections := max_connections (pool σ);
       connections := delete key (connections (pool σ));
       key_order := filter (λ k, k ≠ key) (key_order (pool σ)) |} σ.

(** [self.connections.clear()]. *)
Definition dict_clear (σ : State) : State :=
  set_pool
    {| max_connections := max_connections (pool σ);
       connections := ∅; key_order := [] |} σ.

(** [self.connections.values()]: the clients of the pool, in the order in
    which their keys were inserted. *)
Definition pooled_clients (σ : State) : list SSHClient :=
  omap (λ key, connections (pool σ) !! key) (key_order (pool σ)).

Definition logger (lvl : Level) (msg : string) (σ : State) : State :=
  {| pool := pool σ; world := world σ; clients := clients σ;
     log := log σ ++ [(lvl, msg)]; calls := calls σ |}.

(** [paramiko.SSHClient()]: a new object, distinct from all earlier ones. *)
Definition new_client (σ : State) : State * SSHClient :=
  ({| pool := pool σ; world := world σ; clients := S (clients σ);
      log := log σ; calls := calls σ |},
   clients σ).

(** A computation on the state that returns or raises. *)
Definition M (A : Type) : Type := State → State * Result A.

Definition ret {A} (a : A) : M A := fun σ => (σ, Ok a).

Definition bind {A B} (m : M A) (k : A → M B) : M B := fun σ =>
  match m σ with
  | (σ', Ok a) => k a σ'
  | (σ', Raise e) => (σ', Raise e)
  end.

(** [try: body except Exception as e: handler]. *)
Definition try_except {A} (body : M A) (handler : exn → M A) : M A := fun σ =>
  match body σ with
  | (σ', Ok a) => (σ', Ok a)
  | (σ', Raise e) => handler e σ'
  end.

(** A call on a collaborator: it is recorded and acts on the world. *)
Definition call {A} (c : Call) (f : World → World * Result A) : M A := fun σ =>
  let '(w, r) := f (world σ) in
  ({| pool := pool σ; world := w; clients := clients σ; log := log σ;
      calls := calls σ ++ [c] |}, r).

(** A pure operation that may raise. *)
Definition lift {A} (r : Result A) : M A := fun σ => (σ, r).

Notation "x <- m ;; k" := (bind m (fun x => k))
  (at level 100, m at next level, right associativity, only parsing).

(** ** SSHConnectionPool *)

(** [f"{host.username}@{host.hostname}:{host.port}"] (line 86). *)
Definition host_key (h : SSHHost) : string :=
  username h +:+ "@" +:+ hostname h +:+ ":" +:+ pretty (port h).

(** Truth value of an [Optional[str]]: [None] and [""] are false. *)
Definition truthy (o : option string) : bool :=
  match o with
  | Some s => negb (String.eqb s "")
  | None => false
  end.

(** The two [ssh.connect] calls of [get_connection] (lines 102-117). *)
Definition pool_connect_args (h : SSHHost) : ConnectArgs :=
  if truthy (key_filename h) then
    {| c_hostname := hostname h; c_port := port h; c_username := username h;
       c_password := None; c_key_filename := key_filename h;
       c_timeout := Some (timeout h) |}
  else
    {| c_hostname := hostname h; c_port := port h; c_username := username h;
       c_password := password h; c_key_filename := None;
       c_timeout := Some (timeout h) |}.

(** Lines 97-124: create a client, connect it, pool it; a failed connect is
    logged and raised again. *)
Definition create_connection (h : SSHHost) : M SSHClient := fun σ =>
  let '(σ1, ssh) := new_client σ in
  let args := pool_connect_args h in
  match call (CConnect ssh args) (connect ssh args) σ1 with
  | (σ2, Ok _) =>
      (dict_store (host_key h) ssh σ2, Ok ssh)
  | (σ2, Raise e) =>
      (logger ERROR ("Error conectando a " +:+ host_key h +:+ ": " +:+ str e) σ2,
       Raise e)
  end.

(** [SSHConnectionPool.get_connection] (lines 84-124), [self] being the pool
    of the state. *)
Definition get_connection (h : SSHHost) : M SSHClient := fun σ =>
  match connections (pool σ) !! host_key h with
  | Some conn =>
      if is_active conn (world σ) then (σ, Ok conn)
      else create_connection h (dict_del (host_key h) σ)
  | None => create_connection h σ
  end.

(** [for conn in ...: try: conn.close() except: pass] over the clients
    [conns], in their order. *)
Fixpoint close_each (conns : list SSHClient) (σ : State) : State :=
  match conns with
  | [] => σ
  | conn :: rest => close_each rest (fst (call (CClose conn) (close conn) σ))
  end.

(** [SSHConnectionPool.close_all] (lines 126-134): the clients are closed
    in the order of [self.connections.values()], then the dict is
    cleared. *)
Definition close_all (σ : State) : State :=
  dict_clear (close_each (pooled_clients σ) σ).

(** The pool with another [max_connections]. *)
Definition set_max_connections (limit : Z) (σ : State) : State :=
  {| pool := {| max_connections := limit; connections := connections (pool σ);
                key_order := key_order (pool σ) |};
     world := world σ; clients := clients σ; log := log σ; calls := calls σ |}.

Definition is_connect (c : Call) : bool :=
  match c with CConnect _ _ => true | _ => false end.

(** What can happen to the state in which a pool lives: some thread calls
    [get_connection]; [close_all] is called; the world changes on its own
    (a transport dies, time passes); some thread makes a call other than
    [connect] on a collaborator, or logs; a client is created outside the
    pool and connected, as the tunnel worker does. *)
Inductive pool_step : State → State → Prop :=
| step_acquire h σ σ' r :
    get_connection h σ = (σ', r) → pool_step σ σ'
| step_close_all σ :
    pool_step σ (close_all σ)
| step_world σ w :
    pool_step σ {| pool := pool σ; world := w; clients := clients σ;
                   log := log σ; calls := calls σ |}
| step_call {A} c (f : World → World * Result A) σ :
    is_connect c = false → pool_step σ (fst (call c f σ))
| step_log lvl msg σ :
    pool_step σ (logger lvl msg σ)
| step_connect_outside a σ :
    pool_step σ (fst (call (CConnect (clients σ) a) (connect (clients σ) a)
                         (fst (new_client σ)))).

(** A computation all of whose effects on the state are steps of that
    kind. *)
Definition steady {A} (m : M A) : Prop :=
  ∀ σ, rtc pool_step σ (fst (m σ)).

(** A process that has just built [SSHConnectionPool(limit)]. *)
Definition fresh (limit : Z) (w : World) : State :=
  {| pool := {| max_connections := limit; connections := ∅; key_order := [] |};
     world := w; clients := 0%nat; log := []; calls := [] |}.

(** [get_connection] on each host of a list in turn. *)
Fixpoint acquire_all (hs : list SSHHost) (σ : State)
  : State * list (Result SSHClient) :=
  match hs with
  | [] => (σ, [])
  | h :: rest =>
      let '(σ1, r) := get_connection h σ in
      let '(σ2, rs) := acquire_all rest σ1 in
      (σ2, r :: rs)
  end.

Definition is_ok {A} (r : Result A) : bool :=
  match r with Ok _ => true | Raise _ => false end.

(** The pooling key of the endpoint a [connect] call names. *)
Definition args_key (a : ConnectArgs) : string :=
  c_username a +:+ "@" +:+ c_hostname a +:+ ":" +:+ pretty (c_port a).

(** The record of [connect] calls tells which key a client was made for:
    clients are numbered in creation order, each is connected for one key,
    and a pooled client was connected for the key it sits under. *)
Record pool_inv (σ : State) : Prop := {
  inv_fresh : ∀ s a, CConnect s a ∈ calls σ → (s < clients σ)%nat;
  inv_once : ∀ s a a',
    CConnect s a ∈ calls σ → CConnect s a' ∈ calls σ → args_key a = args_key a';
  inv_origin : ∀ k s,
    connections (pool σ) !! k = Some s →
    ∃ a, CConnect s a ∈ calls σ ∧ args_key a = k
}.

(** The keys in insertion order are the keys of the entries, each once,
    and the clients along them are in the order of their creation. *)
Record order_inv (σ : State) : Prop := {
  ord_nodup : NoDup (key_order (pool σ));
  ord_keys : ∀ k, k ∈ key_order (pool σ) ↔ is_Some (connections (pool σ) !! k);
  ord_sorted : StronglySorted Nat.lt (pooled_clients σ)
}.

(** ** AdvancedSSHAutomation *)

(** The fields of [class AdvancedSSHAutomation] next to its pool, which is
    the [pool] of the state (lines 210-215). *)
Record AdvancedSSHAutomation : Type := {
  max_concurrent : Z;
  hosts : gmap string SSHHost;
  results : list TaskResult
}.

(** [add_host] (lines 217-219). *)
Definition add_host (name : string) (h : SSHHost) (self : AdvancedSSHAutomation)
  : AdvancedSSHAutomation :=
  {| max_concurrent := max_concurrent self;
     hosts := <[name := h]> (hosts self);
     results := results self |}.

(** Lines 236-240: run the command on the session and read its output and
    exit status. *)
Definition channel_work (ssh : SSHClient) (cmd : string) : M (string * string * Z) :=
  ch <- call (CExecCommand ssh cmd) (exec_command ssh cmd) ;;
  out <- call (CStdoutRead ch) (stdout_read ch) ;;
  stdout_data <- lift (decode out) ;;
  err <- call (CStderrRead ch) (stderr_read ch) ;;
  stderr_data <- lift (decode err) ;;
  code <- call (CRecvExitStatus ch) (recv_exit_status ch) ;;
  ret (stdout_data, stderr_data, code).

(** Lines 242-255: the result of a command that ran. *)
Definition command_ran (h : SSHHost) (cmd : string) (start_time : Time)
    (data : string * string * Z) : M TaskResult := fun σ =>
  let '(stdout_data, stderr_data, code) := data in
  let result :=
    {| host := hostname h; command := cmd;
       stdout := stdout_data; stderr := stderr_data;
       exit_code := code;
       execution_time := time_sub (time (world σ)) start_time;
       success := (code =? 0)%Z;
       error := None |} in
  (logger INFO ("Comando ejecutado en " +:+ hostname h +:+ ": " +:+ cmd) σ,
   Ok result).

(** Lines 257-270: the handler of [execute_command]. *)
Definition command_failed (h : SSHHost) (cmd : string) (start_time : Time)
    (e : exn) : M TaskResult := fun σ =>
  let result :=
    {| host := hostname h; command := cmd;
       stdout := ""; stderr := "";
       exit_code := -1;
       execution_time := time_sub (time (world σ)) start_time;
       success := false;
       error := Some (str e) |} in
  (logger ERROR
     ("Error ejecutando comando en " +:+ hostname h +:+ ": " +:+ str e) σ,
   Ok result).

(** [AdvancedSSHAutomation.execute_command] (lines 230-270). *)
Definition execute_command (h : SSHHost) (cmd : string) : M TaskResult := fun σ =>
  let start_time := time (world σ) in
  try_except
    (ssh <- get_connection h ;;
     data <- channel_work ssh cmd ;;
     command_ran h cmd start_time data)
    (command_failed h cmd start_time) σ.

(** *** The worker threads of [execute_parallel]

    [executor.submit(self.execute_command, ...)] gives a future; a worker
    thread runs the call.  [get_connection] holds the pool's lock, so it is
    one step; the channel work on the session it returned is a second step,
    and steps of different futures interleave freely.  [max_workers] only
    limits which interleavings occur. *)
Inductive Future : Type :=
| Queued
| Connected (start_time : Time) (ssh : SSHClient)
| Done (r : Result TaskResult)
| Yielded (r : Result TaskResult).

(** One entry of [future_to_host], with the host the call was submitted
    for. *)
Record Task : Type := {
  label : string;
  target : SSHHost;
  future : Future
}.

Definition set_future (f : Future) (t : Task) : Task :=
  {| label := label t; target := target t; future := f |}.

(** One step of the worker running [execute_command(h, cmd)]: from
    [Queued], line 232 and the pool access of line 235; from [Connected],
    lines 236-255; an exception in either goes through the handler. *)
Definition worker_step (h : SSHHost) (cmd : string) (f : Future) (σ : State)
  : option (State * Future) :=
  match f with
  | Queued =>
      let start_time := time (world σ) in
      match get_connection h σ with
      | (σ1, Ok ssh) => Some (σ1, Connected start_time ssh)
      | (σ1, Raise e) =>
          let '(σ2, r) := command_failed h cmd start_time e σ1 in
          Some (σ2, Done r)
      end
  | Connected start_time ssh =>
      let '(σ1, r) :=
        try_except (data <- channel_work ssh cmd ;;
                    command_ran h cmd start_time data)
                   (command_failed h cmd start_time) σ in
      Some (σ1, Done r)
  | Done _ | Yielded _ => None
  end.

(** [progress_callback]: [None], or a callable acting on the world. *)
Definition Callback : Type := option (TaskResult → World → World * Result unit).

(** The body of [for future in as_completed(...)] (lines 295-306) for a
    future whose label is [host_label] and whose call ended in [r]. *)
Definition loop_body (cb : Callback) (host_label : string)
    (r : Result TaskResult) (results : list TaskResult) (σ : State)
  : State * list TaskResult :=
  match r with
  | Ok result =>
      let results := results ++ [result] in
      match cb with
      | Some progress_callback =>
          match call CCallback (progress_callback result) σ with
          | (σ1, Ok _) => (σ1, results)
          | (σ1, Raise e) =>
              (logger ERROR ("Error procesando resultado de " +:+ host_label
                             +:+ ": " +:+ str e) σ1,
               results)
          end
      | None => (σ, results)
      end
  | Raise e =>
      (logger ERROR ("Error procesando resultado de " +:+ host_label
                     +:+ ": " +:+ str e) σ,
       results)
  end.

(** What the scheduler does next: a worker advances future [i], or
    [as_completed] hands the finished future [i] to the loop. *)
Inductive Event : Type :=
| Work (i : nat)
| Yield (i : nat).

Record Dispatch : Type := {
  d_state : State;
  d_futures : list Task;
  d_results : list TaskResult
}.

Definition step (cmd : string) (cb : Callback) (ev : Event) (d : Dispatch)
  : option Dispatch :=
  match ev with
  | Work i =>
      t ← d_futures d !! i;
      '(σ, f) ← worker_step (target t) cmd (future t) (d_state d);
      Some {| d_state := σ;
              d_futures := <[i := set_future f t]> (d_futures d);
              d_results := d_results d |}
  | Yield i =>
      t ← d_futures d !! i;
      match future t with
      | Done r =>
          let '(σ, results) :=
            loop_body cb (label t) r (d_results d) (d_state d) in
          Some {| d_state := σ;
                  d_futures := <[i := set_future (Yielded r) t]> (d_futures d);
                  d_results := results |}
      | _ => None
      end
  end.

Fixpoint run (cmd : string) (cb : Callback) (schedule : list Event)
    (d : Dispatch) : option Dispatch :=
  match schedule with
  | [] => Some d
  | ev :: rest => d' ← step cmd cb ev d; run cmd cb rest d'
  end.

(** The dict comprehension of lines 289-292: one future per label of the
    list that is a key of [self.hosts], in list order. *)
Definition submit (self : AdvancedSSHAutomation) (labels : list string) : list Task :=
  omap (λ l, (λ h, {| label := l; target := h; future := Queued |})
               <$> hosts self !! l) labels.

Definition is_yielded (t : Task) : bool :=
  match future t with Yielded _ => true | _ => false end.

(** [AdvancedSSHAutomation.execute_parallel] (lines 272-309) under a
    schedule of its threads.  [ThreadPoolExecutor] raises [ValueError] for
    [max_workers <= 0].  The call returns once [as_completed] has yielded
    every future; a schedule that stops before, or names a step that is not
    enabled, gives [None]. *)
Definition execute_parallel (self : AdvancedSSHAutomation)
    (labels : list string) (cmd : string) (cb : Callback)
    (schedule : list Event) (σ : State)
  : option (State * AdvancedSSHAutomation * Result (list TaskResult)) :=
  if (max_concurrent self <=? 0)%Z then
    Some (σ, self, Raise (Exception "max_workers must be greater than 0"))
  else
    d ← run cmd cb schedule
          {| d_state := σ; d_futures := submit self labels; d_results := [] |};
    if forallb is_yielded (d_futures d) then
      Some (d_state d,
            {| max_concurrent := max_concurrent self;
               hosts := hosts self;
               results := results self ++ d_results d |},
            Ok (d_results d))
    else None.

(** The labels of the list that are keys of [self.hosts]. *)
Definition known_labels (self : AdvancedSSHAutomation) (labels : list string)
  : list string :=
  filter (λ l, is_Some (hosts self !! l)) labels.

(** [r] is the result [execute_command(h, cmd)] builds when its [try] body
    ends in [o]: the acquisition raised, or the work on the session it
    returned raised, or the command ran to its exit status. *)
Inductive task_ran (h : SSHHost) (cmd : string)
  : Result (string * string * Z) → TaskResult → Prop :=
| acquisition_raised σ σ1 e start_time σ2 σ3 r :
    get_connection h σ = (σ1, Raise e) →
    command_failed h cmd start_time e σ2 = (σ3, Ok r) →
    task_ran h cmd (Raise e) r
| channel_raised σ σ1 ssh σ2 σ3 e start_time σ4 r :
    get_connection h σ = (σ1, Ok ssh) →
    channel_work ssh cmd σ2 = (σ3, Raise e) →
    command_failed h cmd start_time e σ3 = (σ4, Ok r) →
    task_ran h cmd (Raise e) r
| command_returned σ σ1 ssh σ2 σ3 data start_time σ4 r :
    get_connection h σ = (σ1, Ok ssh) →
    channel_work ssh cmd σ2 = (σ3, Ok data) →
    command_ran h cmd start_time data σ3 = (σ4, Ok r) →
    task_ran h cmd (Ok data) r.

(** What holds of a future of [execute_command(h, cmd)] in each state. *)
Definition future_inv (h : SSHHost) (cmd : string) (f : Future) : Prop :=
  match f with
  | Queued => True
  | Connected _ ssh => ∃ σ σ1, get_connection h σ = (σ1, Ok ssh)
  | Done r | Yielded r => ∃ res o, r = Ok res ∧ task_ran h cmd o res
  end.

(** The labels of the futures whose result the loop has appended. *)
Definition appended (t : Task) : list string :=
  match future t with
  | Yielded (Ok _) => [label t]
  | _ => []
  end.

(** Steps a future still has ahead of it. *)
Definition steps_left (t : Task) : nat :=
  match future t with
  | Queued => 3
  | Connected _ _ => 2
  | Done _ => 1
  | Yielded _ => 0
  end.

Record dispatch_inv (self : AdvancedSSHAutomation) (labels : list string)
    (cmd : string) (d : Dispatch) : Prop := {
  inv_labels : label <$> d_futures d = known_labels self labels;
  inv_targets :
    Forall (λ t, hosts self !! label t = Some (target t)) (d_futures d);
  inv_futures :
    Forall (λ t, future_inv (target t) cmd (future t)) (d_futures d);
  inv_results :
    ∃ ls, ls ≡ₚ concat (appended <$> d_futures d) ∧
          Forall2 (λ l r, ∃ h o, hosts self !! l = Some h ∧ task_ran h cmd o r)
                  ls (d_results d)
}.

(** ** SSHTunnel *)

(** [f"{local_port}:{remote_host}:{remote_port}"] (line 145). *)
Definition tunnel_key (local_port : Z) (remote_host : string) (remote_port : Z)
  : string :=
  pretty local_port +:+ ":" +:+ remote_host +:+ ":" +:+ pretty remote_port.

(** The [ssh.connect] call of [tunnel_worker] (lines 152-158). *)
Definition tunnel_connect_args (h : SSHHost) : ConnectArgs :=
  {| c_hostname := hostname h; c_port := port h; c_username := username h;
     c_password := password h; c_key_filename := key_filename h;
     c_timeout := None |}.

(** [_handle_tunnel_data] is started on its own thread (lines 175-178). *)
Definition start_relay (client_socket : Socket) (channel : Channel) : M unit :=
  fun σ =>
  ({| pool := pool σ; world := world σ; clients := clients σ; log := log σ;
      calls := calls σ ++ [CStartRelay client_socket channel] |}, Ok tt).

(** The first [rounds] passes of the [while True] loop (lines 167-178).  The
    loop has no exit of its own: [Ok] means it is still running. *)
Fixpoint accept_loop (rounds : nat) (transport : SSHClient)
    (local_socket : Socket) (remote_host : string) (remote_port : Z) : M unit :=
  match rounds with
  | O => ret tt
  | S rounds' =>
      accepted <- call (CAccept local_socket) (accept local_socket) ;;
      let '(client_socket, addr) := accepted in
      channel <- call (COpenChannel transport (remote_host, remote_port) addr)
                      (open_channel transport (remote_host, remote_port) addr) ;;
      _ <- start_relay client_socket channel ;;
      accept_loop rounds' transport local_socket remote_host remote_port
  end.

Inductive WorkerStatus : Type :=
| Listening
| Stopped.

(** Lines 152-165 of [tunnel_worker]: connect, bind and listen, log. *)
Definition tunnel_setup (h : SSHHost) (ssh : SSHClient) (local_port : Z)
    (remote_host : string) (remote_port : Z) : M Socket :=
  let args := tunnel_connect_args h in
  _ <- call (CConnect ssh args) (connect ssh args) ;;
  local_socket <- call (CBindListen local_port) (bind_listen local_port) ;;
  _ <- (fun σ =>
          (logger INFO ("Túnel SSH activo: localhost:" +:+ pretty local_port
                        +:+ " -> " +:+ remote_host +:+ ":"
                        +:+ pretty remote_port) σ, Ok tt)) ;;
  ret local_socket.

(** [tunnel_worker] (lines 147-183), observed for [rounds] passes of its
    loop, [h] being [self.host]. *)
Definition tunnel_worker (h : SSHHost) (local_port : Z) (remote_host : string)
    (remote_port : Z) (rounds : nat) (σ : State) : State * WorkerStatus :=
  let '(σ1, ssh) := new_client σ in
  let body :=
    local_socket <- tunnel_setup h ssh local_port remote_host remote_port ;;
    accept_loop rounds ssh local_socket remote_host remote_port in
  match body σ1 with
  | (σ2, Ok _) => (σ2, Listening)
  | (σ2, Raise e) =>
      let σ3 := logger ERROR ("Error en túnel SSH: " +:+ str e) σ2 in
      (fst (call (CClose ssh) (close ssh) σ3), Stopped)
  end.

(** The [while True] of [forward_data] (lines 193-197), at most [chunks]
    passes; [Ok true] is the [break]. *)
Fixpoint forward_loop (chunks : nat) (source destination : Endpoint) : M bool :=
  match chunks with
  | O => ret false
  | S chunks' =>
      data <- call (CRecv source) (recv source) ;;
      match data with
      | [] => ret true
      | _ =>
          _ <- call (CSend destination data) (send destination data) ;;
          forward_loop chunks' source destination
      end
  end.

(** [forward_data] (lines 191-202): when the loop ends, by [break] or by an
    exception, both ends are closed. *)
Definition forward_data (chunks : nat) (source destination : Endpoint)
    (σ : State) : State :=
  match forward_loop chunks source destination σ with
  | (σ1, Ok false) => σ1
  | (σ1, _) =>
      fst ((_ <- call (CEndpointClose source) (endpoint_close source) ;;
            call (CEndpointClose destination) (endpoint_close destination)) σ1)
  end.

(** ** What a computation adds to the record of calls *)

(** Every call [m] makes satisfies [P]. *)
Definition adds {A} (P : Call → Prop) (m : M A) : Prop :=
  ∀ σ, ∃ more, calls (fst (m σ)) = calls σ ++ more ∧ Forall P more.

(** [m] leaves the pool and the number of clients as they are. *)
Definition spares_pool {A} (m : M A) : Prop :=
  ∀ σ, pool (fst (m σ)) = pool σ ∧ clients (fst (m σ)) = clients σ.

Definition is_close (c : Call) : bool :=
  match c with CClose _ => true | _ => false end.

Definition is_callback (c : Call) : bool :=
  match c with CCallback => true | _ => false end.

(** The calls the worker of a tunnel makes for one accepted connection. *)
Definition relayed (transport : SSHClient) (local_socket : Socket)
    (remote : string * Z) (conn : Socket * Addr * Channel) : list Call :=
  let '(client_socket, addr, channel) := conn in
  [CAccept local_socket; COpenChannel transport remote addr;
   CStartRelay client_socket channel].

(** The world goes from [w] to [w'] as the connections [conns] come in:
    each is the socket and address [accept] returned on the listening
    socket, with the channel [open_channel] returned next for that
    address. *)
Fixpoint served (transport : SSHClient) (local_socket : Socket)
    (remote : string * Z) (conns : list (Socket * Addr * Channel))
    (w w' : World) : Prop :=
  match conns with
  | [] => w' = w
  | (client_socket, addr, channel) :: rest =>
      ∃ w1 w2,
        accept local_socket w = (w1, Ok (client_socket, addr))
        ∧ open_channel transport remote addr w1 = (w2, Ok channel)
        ∧ served transport local_socket remote rest w2 w'
  end.

(** The calls that copy one chunk from [source] to [destination]. *)
Definition copied (source destination : Endpoint) (data : list Byte.byte)
  : list Call :=
  [CRecv source; CSend destination data].

(** The client a call names, if it names one. *)
Definition client_of (c : Call) : option SSHClient :=
  match c with
  | CConnect s _ | CClose s | CExecCommand s _ | COpenChannel s _ _ => Some s
  | _ => None
  end.

(** How often the progress callback was called. *)
Definition callbacks (cs : list Call) : nat :=
  length (filter (λ c, is_callback c = true) cs).

Definition is_exec (c : Call) : bool :=
  match c with CExecCommand _ _ => true | _ => false end.

(** How often [exec_command] was called. *)
Definition executions (cs : list Call) : nat :=
  length (filter (λ c, is_exec c = true) cs).

(** 1 for a result without error, the result of a command that ran. *)
Definition ran (r : TaskResult) : nat :=
  match error r with None => 1 | Some _ => 0 end.

(** 1 for a future whose call has ended. *)
Definition finished (f : Future) : nat :=
  match f with Done _ | Yielded _ => 1 | _ => 0 end.

(** 1 for a future whose call has ended with the result of a command that
    ran. *)
Definition finished_ran (f : Future) : nat :=
  match f with Done (Ok r) | Yielded (Ok r) => ran r | _ => 0 end.

(** The same, once the loop has had the future. *)
Definition yielded_ran (f : Future) : nat :=
  match f with Yielded (Ok r) => ran r | _ => 0 end.

(** 1 for a future no worker has picked up yet. *)
Definition waiting (t : Task) : nat :=
  match future t with Queued => 1 | _ => 0 end.

End Model.

Notation "x <- m ;; k" := (bind m (fun x => k))
  (at level 100, m at next level, right associativity, only parsing).

(** ** File transfer *)

(** An SFTP session, as [ssh.open_sftp()] returns it. *)
Definition Sftp : Type := nat.

(** The calls of [transfer_file] on the SFTP client and on the local file
    system, kept in call order. *)
Inductive FileCall : Type :=
| FOpenSftp (ssh : SSHClient)
| FStat (local_path : string)
| FPut (sftp : Sftp) (local_path remote_path : string)
| FGet (sftp : Sftp) (remote_path local_path : string)
| FSftpClose (sftp : Sftp).

(** [open_sftp], [Path(...).stat().st_size], [sftp.put], [sftp.get] and
    [sftp.close], as transitions of the world. *)
Class FileTransport `{Transport} : Type := {
  open_sftp : SSHClient → World → World * Result Sftp;
  stat_size : string → World → World * Result Z;
  sftp_put : Sftp → string → string → World → World * Result unit;
  sftp_get : Sftp → string → string → World → World * Result unit;
  sftp_close : Sftp → World → World * Result unit
}.

(** The state of the process, with the record of the file calls. *)
Record Files `{Transport} : Type := {
  base : State;
  file_calls : list FileCall
}.

Section Transfer.
Context `{F : FileTransport}.

Definition MF (A : Type) : Type := Files → Files * Result A.

Definition bindF {A B} (m : MF A) (k : A → MF B) : MF B := fun φ =>
  match m φ with
  | (φ', Ok a) => k a φ'
  | (φ', Raise e) => (φ', Raise e)
  end.

(** A computation on the process state, file calls untouched. *)
Definition on_state {A} (m : M A) : MF A := fun φ =>
  let '(σ, r) := m (base φ) in
  ({| base := σ; file_calls := file_calls φ |}, r).

(** A file call: it is recorded and acts on the world. *)
Definition file_call {A} (c : FileCall) (f : World → World * Result A)
  : MF A := fun φ =>
  let '(w, r) := f (world (base φ)) in
  ({| base := {| pool := pool (base φ); world := w;
                 clients := clients (base φ); log := log (base φ);
                 calls := calls (base φ) |};
      file_calls := file_calls φ ++ [c] |}, r).

Notation "x <~ m ;; k" := (bindF m (fun x => k))
  (at level 100, m at next level, right associativity, only parsing).

(** The [try] body of [transfer_file] (lines 315-340); the progress bar of
    an upload only displays. *)
Definition transfer_body (h : SSHHost) (local_path remote_path : string)
    (upload : bool) : MF bool :=
  ssh <~ on_state (get_connection h) ;;
  sftp <~ file_call (FOpenSftp ssh) (open_sftp ssh) ;;
  _ <~ (if upload then
          file_size <~ file_call (FStat local_path) (stat_size local_path) ;;
          file_call (FPut sftp local_path remote_path)
                    (sftp_put sftp local_path remote_path)
        else
          file_call (FGet sftp remote_path local_path)
                    (sftp_get sftp remote_path local_path)) ;;
  _ <~ file_call (FSftpClose sftp) (sftp_close sftp) ;;
  on_state (fun σ =>
    (logger INFO ("Archivo transferido: " +:+ local_path +:+ " -> "
                  +:+ remote_path) σ, Ok true)).

(** [AdvancedSSHAutomation.transfer_file] (lines 311-344). *)
Definition transfer_file (h : SSHHost) (local_path remote_path : string)
    (upload : bool) (φ : Files) : Files * bool :=
  match transfer_body h local_path remote_path upload φ with
  | (φ', Ok b) => (φ', b)
  | (φ', Raise e) =>
      ({| base := logger ERROR ("Error transfiriendo archivo: " +:+ str e)
                    (base φ');
          file_calls := file_calls φ' |}, false)
  end.

(** The file calls of a transfer that goes through. *)
Definition transfer_plan (upload : bool) (local_path remote_path : string)
    (ssh : SSHClient) (sftp : Sftp) : list FileCall :=
  FOpenSftp ssh
  :: (if upload then [FStat local_path; FPut sftp local_path remote_path]
      else [FGet sftp remote_path local_path])
  ++ [FSftpClose sftp].

(** Call [c] raises [e] in some world. *)
Definition raised_by (c : FileCall) (e : exn) : Prop :=
  ∃ w, match c with
       | FOpenSftp ssh => snd (open_sftp ssh w) = Raise e
       | FStat local_path => snd (stat_size local_path w) = Raise e
       | FPut sftp local_path remote_path =>
           snd (sftp_put sftp local_path remote_path w) = Raise e
       | FGet sftp remote_path local_path =>
           snd (sftp_get sftp remote_path local_path w) = Raise e
       | FSftpClose sftp => snd (sftp_close sftp w) = Raise e
       end.

Definition is_sftp_close (c : FileCall) : bool :=
  match c with FSftpClose _ => true | _ => false end.

Definition is_put (c : FileCall) : bool :=
  match c with FPut _ _ _ => true | _ => false end.

End Transfer.

(** ** The table of [monitor_system] *)

(** Python's string methods, as far as [monitor_system] uses them.  The
    characters of a string are read as code points (below 256). *)

(** The line feed, [chr(10)]. *)
Definition newline : string :=
  String (Ascii.ascii_of_nat 10) EmptyString.

(** [str.isspace] on one character: the white space below 256. *)
Definition py_isspace (c : Ascii.ascii) : bool :=
  let n := Ascii.N_of_ascii c in
  ((9 <=? n) && (n <=? 13) || (28 <=? n) && (n <=? 32)
   || (n =? 133) || (n =? 160))%N.

Fixpoint py_lstrip (s : string) : string :=
  match s with
  | EmptyString => EmptyString
  | String c s' => if py_isspace c then py_lstrip s' else s
  end.

Fixpoint py_rstrip (s : string) : string :=
  match s with
  | EmptyString => EmptyString
  | String c s' =>
      match py_rstrip s' with
      | EmptyString => if py_isspace c then EmptyString else String c EmptyString
      | rest => String c rest
      end
  end.

(** [s.strip()]. *)
Definition py_strip (s : string) : string := py_lstrip (py_rstrip s).

(** [s.startswith(p)]. *)
Fixpoint starts_with (p s : string) : bool :=
  match p, s with
  | EmptyString, _ => true
  | String _ _, EmptyString => false
  | String a p', String b s' => Ascii.eqb a b && starts_with p' s'
  end.

(** [sep in s]. *)
Fixpoint occurs (sep s : string) : bool :=
  starts_with sep s
  || match s with
     | EmptyString => false
     | String _ s' => occurs sep s'
     end.

(** The pieces of [s] between the occurrences of [sep], found from the
    left and not overlapping; [cur] is the piece read so far and [skip]
    the number of characters of an occurrence still to pass. *)
Fixpoint split_from (sep : string) (skip : nat) (cur s : string) : list string :=
  match s with
  | EmptyString => [cur]
  | String c s' =>
      match skip with
      | S k => split_from sep k cur s'
      | O =>
          if starts_with sep s
          then cur :: split_from sep (String.length sep - 1) EmptyString s'
          else split_from sep 0 (cur +:+ String c EmptyString) s'
      end
  end.

(** [s.split(sep)] for a separator that is not empty. *)
Definition py_split (sep s : string) : list string :=
  split_from sep 0 EmptyString s.

Section Monitor.
Context `{T : Transport}.

Definition and_then {A B} (r : Result A) (k : A → Result B) : Result B :=
  match r with
  | Ok a => k a
  | Raise e => Raise e
  end.

(** [lines[i].split(': ')[1] if len(lines) > i else "N/A"] (lines 389-392);
    an index out of range raises [IndexError]. *)
Definition field (lines : list string) (i : nat) : Result string :=
  match lines !! i with
  | Some line =>
      match py_split ": " line !! 1%nat with
      | Some value => Ok value
      | None => Raise (Exception "list index out of range")
      end
  | None => Ok "N/A"
  end.

(** The cells [monitor_system] passes to [table.add_row] for one result
    (lines 387-398). *)
Definition monitor_row (result : TaskResult) : Result (list string) :=
  if success result then
    let lines := py_split newline (py_strip (stdout result)) in
    and_then (field lines 1) (λ cpu,
    and_then (field lines 2) (λ mem,
    and_then (field lines 3) (λ disk,
    and_then (field lines 4) (λ load,
    Ok [host result; cpu; mem; disk; load]))))
  else
    Ok [host result; "[red]ERROR[/red]"; "[red]ERROR[/red]";
        "[red]ERROR[/red]"; "[red]ERROR[/red]"].

(** [for result in results: ... table.add_row(...)] (lines 386-398): the
    rows of the table, or the exception that ended the loop. *)
Fixpoint monitor_table (results : list TaskResult)
  : Result (list (list string)) :=
  match results with
  | [] => Ok []
  | result :: rest =>
      and_then (monitor_row result) (λ row,
      and_then (monitor_table rest) (λ rows, Ok (row :: rows)))
  end.

(** What the command of [get_system_info] (lines 355-361) prints when its
    four substitutions give [cpu], [mem], [disk] and [load]. *)
Definition system_info (cpu mem disk load : string) : string :=
  "=== SYSTEM INFO ===" +:+ newline
  +:+ "CPU: " +:+ cpu +:+ newline
  +:+ "Memory: " +:+ mem +:+ newline
  +:+ "Disk: " +:+ disk +:+ newline
  +:+ "Load: " +:+ load +:+ newline.

End Monitor.

(** ** A scripted transport

    A world in which the outcome of every call is read off a table: hosts
    that refuse connections, dead and closed clients, source ports whose
    channel cannot be opened, and the command run on each channel. *)
Record Script : Type := {
  clock : Z;
  unreachable : list string;
  dead : list SSHClient;
  closed : list SSHClient;
  refused_ports : list Z;
  channels : list string;
  sockets : nat
}.

Definition tick (w : Script) : Script :=
  {| clock := clock w + 1; unreachable := unreachable w; dead := dead w;
     closed := closed w; refused_ports := refused_ports w;
     channels := channels w; sockets := sockets w |}.

Definition script_connect (ssh : SSHClient) (args : ConnectArgs) (w : Script)
  : Script * Result unit :=
  if bool_decide (c_hostname args ∈ unreachable w)
  then (tick w, Raise (Exception "timed out"))
  else (tick w, Ok tt).

Definition script_is_active (ssh : SSHClient) (w : Script) : bool :=
  negb (bool_decide (ssh ∈ dead w ++ closed w)).

Definition script_close (ssh : SSHClient) (w : Script) : Script * Result unit :=
  ({| clock := clock w + 1; unreachable := unreachable w; dead := dead w;
      closed := closed w ++ [ssh]; refused_ports := refused_ports w;
      channels := channels w; sockets := sockets w |}, Ok tt).

Definition script_exec_command (ssh : SSHClient) (cmd : string) (w : Script)
  : Script * Result Channel :=
  if bool_decide (ssh ∈ dead w ++ closed w)
  then (tick w, Raise (Exception "SSH session not active"))
  else
    ({| clock := clock w + 1; unreachable := unreachable w; dead := dead w;
        closed := closed w; refused_ports := refused_ports w;
        channels := channels w ++ [cmd]; sockets := sockets w |},
     Ok (length (channels w))).

(** The exit status of the scripted shell: [exit 7] ends with 7, a command
    that is not found with 127, anything else with 0. *)
Definition script_status (cmd : string) : Z :=
  if String.eqb cmd "exit 7" then 7
  else if String.eqb cmd "nonexistent" then 127
  else 0.

Definition script_recv_exit_status (ch : Channel) (w : Script)
  : Script * Result Z :=
  (tick w, Ok (script_status (default "" (channels w !! ch)))).

Definition script_read (ch : Channel) (w : Script)
  : Script * Result (list Byte.byte) :=
  (tick w, Ok []).

(** Only ASCII is ever decoded here; any byte above 127 is refused. *)
Definition script_decode (bs : list Byte.byte) : Result string :=
  if forallb (λ b, (Byte.to_N b <? 128)%N) bs
  then Ok (String.string_of_list_byte bs)
  else Raise (Exception "'utf-8' codec can't decode byte").

Definition script_bind_listen (local_port : Z) (w : Script)
  : Script * Result Socket :=
  ({| clock := clock w + 1; unreachable := unreachable w; dead := dead w;
      closed := closed w; refused_ports := refused_ports w;
      channels := channels w; sockets := S (sockets w) |},
   Ok (sockets w)).

(** The n-th socket accepted comes from source port 50000 + n. *)
Definition script_accept (local_socket : Socket) (w : Script)
  : Script * Result (Socket * Addr) :=
  ({| clock := clock w + 1; unreachable := unreachable w; dead := dead w;
      closed := closed w; refused_ports := refused_ports w;
      channels := channels w; sockets := S (sockets w) |},
   Ok (sockets w, ("127.0.0.1", 50000 + Z.of_nat (sockets w)))).

Definition script_open_channel (ssh : SSHClient) (dest : string * Z)
    (src : Addr) (w : Script) : Script * Result Channel :=
  if bool_decide (snd src ∈ refused_ports w)
  then (tick w, Raise (Exception "ChannelException(2, 'Connect failed')"))
  else
    ({| clock := clock w + 1; unreachable := unreachable w; dead := dead w;
        closed := closed w; refused_ports := refused_ports w;
        channels := channels w ++ ["direct-tcpip"]; sockets := sockets w |},
     Ok (length (channels w))).

Definition scripted : Transport := {|
  World := Script;
  Time := Z;
  time := clock;
  time_sub := Z.sub;
  connect := script_connect;
  is_active := script_is_active;
  close := script_close;
  exec_command := script_exec_command;
  stdout_read := script_read;
  stderr_read := script_read;
  recv_exit_status := script_recv_exit_status;
  decode := script_decode;
  bind_listen := script_bind_listen;
  accept := script_accept;
  open_channel := script_open_channel;
  recv := λ _ w, (tick w, Ok []);
  send := λ _ _ w, (tick w, Ok tt);
  endpoint_close := λ _ w, (tick w, Ok tt)
|}.

Definition quiet : Script :=
  {| clock := 0; unreachable := []; dead := []; closed := [];
     refused_ports := []; channels := []; sockets := 0 |}.

(** The two hosts of [main] (lines 475-485). *)
Definition server1 : SSHHost :=
  {| hostname := "192.168.1.100"; username := "admin";
     password := Some "password123"; key_filename := None;
     port := 22; timeout := 30; tags := [] |}.

Definition server2 : SSHHost :=
  {| hostname := "192.168.1.101"; username := "admin";
     password := None; key_filename := Some "/path/to/key.pem";
     port := 22; timeout := 30; tags := [] |}.


(** The scripted world is replaced, the process is as it was. *)
Definition with_world (w : Script) (σ : @State scripted) : @State scripted :=
  @Build_State scripted (pool σ) w (clients σ) (log σ) (calls σ).

(** The transport of client [ssh] dies. *)
Definition kill (ssh : SSHClient) (σ : @State scripted) : @State scripted :=
  let w : Script := world σ in
  with_world
    {| clock := clock w; unreachable := unreachable w;
       dead := dead w ++ [ssh]; closed := closed w;
       refused_ports := refused_ports w;
       channels := channels w; sockets := sockets w |} σ.

(** The host [name] stops accepting connections. *)
Definition cut_off (name : string) (σ : @State scripted) : @State scripted :=
  let w : Script := world σ in
  with_world
    {| clock := clock w; unreachable := unreachable w ++ [name];
       dead := dead w; closed := closed w;
       refused_ports := refused_ports w;
       channels := channels w; sockets := sockets w |} σ.

(** [server1] was acquired from a new pool. *)
Definition pooled : @State scripted :=
  fst (@get_connection scripted server1 (@fresh scripted 5 quiet)).

(** [server1] was acquired from a new pool, then its transport died. *)
Definition stale : @State scripted :=
  kill 0%nat pooled.

(** The same, and [server1] no longer accepts connections. *)
Definition stale_cut_off : @State scripted :=
  cut_off (hostname server1) stale.

(** [server1] again, with another password and another timeout. *)
Definition server1_other_password : SSHHost :=
  {| hostname := "192.168.1.100"; username := "admin";
     password := Some "hunter2"; key_filename := None;
     port := 22; timeout := 5; tags := ["staging"] |}.

(** The inventory of [main]: two hosts, at most five workers. *)
Definition fleet : @AdvancedSSHAutomation scripted :=
  add_host "server2" server2
    (add_host "server1" server1
       {| max_concurrent := 5; hosts := ∅; results := [] |}).

(** [execute_parallel(["server1", "server2"], "uname -a")] while [server1]
    is cut off: its acquisition fails while [server2]'s command runs. *)
Definition one_down
  : option (@State scripted * @AdvancedSSHAutomation scripted
            * Result (list (@TaskResult scripted))) :=
  execute_parallel fleet ["server1"; "server2"] "uname -a" None
    [Work 1; Work 0; Work 1; Yield 1; Yield 0]
    (cut_off (hostname server1) (@fresh scripted 5 quiet)).

(** A list with a label of no host and with [server1] twice. *)
Definition twice
  : option (@State scripted * @AdvancedSSHAutomation scripted
            * Result (list (@TaskResult scripted))) :=
  execute_parallel fleet ["server1"; "ghost"; "server2"; "server1"] "uname -a"
    None
    [Work 0; Work 1; Work 2; Work 1; Yield 1; Work 0; Work 2; Yield 2; Yield 0]
    (@fresh scripted 5 quiet).

(** The second connection to the listener cannot be forwarded. *)
Definition second_refused : @State scripted :=
  @fresh scripted 5
    {| clock := 0; unreachable := []; dead := []; closed := [];
       refused_ports := [50002]; channels := []; sockets := 0 |}.

(** The scripted transport, except that what a command writes to its
    standard output is not UTF-8. *)
Definition garbled : Transport := {|
  World := Script;
  Time := Z;
  time := clock;
  time_sub := Z.sub;
  connect := script_connect;
  is_active := script_is_active;
  close := script_close;
  exec_command := script_exec_command;
  stdout_read := λ _ w, (tick w, Ok [Byte.xff]);
  stderr_read := script_read;
  recv_exit_status := script_recv_exit_status;
  decode := script_decode;
  bind_listen := script_bind_listen;
  accept := script_accept;
  open_channel := script_open_channel;
  recv := λ _ w, (tick w, Ok []);
  send := λ _ _ w, (tick w, Ok tt);
  endpoint_close := λ _ w, (tick w, Ok tt)
|}.

(** [execute_parallel] over both hosts of [main] with a progress callback
    that raises every time. *)
Definition with_raising_callback
  : option (@State scripted * @AdvancedSSHAutomation scripted
            * Result (list (@TaskResult scripted))) :=
  execute_parallel fleet ["server1"; "server2"] "uname -a"
    (Some (λ _ w, (tick w, Raise (Exception "callback failed"))))
    [Work 0; Work 1; Work 0; Yield 0; Work 1; Yield 1]
    (@fresh scripted 5 quiet).

(** The label [server1] is given to [server2] before the call. *)
Definition relabelled
  : option (@State scripted * @AdvancedSSHAutomation scripted
            * Result (list (@TaskResult scripted))) :=
  execute_parallel (add_host "server1" server2 fleet) ["server1"] "uname -a"
    None [Work 0; Work 0; Yield 0] (@fresh scripted 5 quiet).

(** The local port of the tunnel is taken. *)
Definition port_taken : Transport := {|
  World := Script;
  Time := Z;
  time := clock;
  time_sub := Z.sub;
  connect := script_connect;
  is_active := script_is_active;
  close := script_close;
  exec_command := script_exec_command;
  stdout_read := script_read;
  stderr_read := script_read;
  recv_exit_status := script_recv_exit_status;
  decode := script_decode;
  bind_listen := λ _ w, (tick w, Raise (Exception "[Errno 98] Address already in use"));
  accept := script_accept;
  open_channel := script_open_channel;
  recv := λ _ w, (tick w, Ok []);
  send := λ _ _ w, (tick w, Ok tt);
  endpoint_close := λ _ w, (tick w, Ok tt)
|}.

(** Files on the scripted transport: every path exists but
    [/no/such/file], and the SFTP calls succeed. *)
Definition script_open_sftp (ssh : SSHClient) (w : Script)
  : Script * Result Sftp :=
  ({| clock := clock w + 1; unreachable := unreachable w; dead := dead w;
      closed := closed w; refused_ports := refused_ports w;
      channels := channels w ++ ["sftp"]; sockets := sockets w |},
   Ok (length (channels w))).

Definition script_stat_size (path : string) (w : Script)
  : Script * Result Z :=
  if String.eqb path "/no/such/file"
  then (w, Raise (Exception
              "[Errno 2] No such file or directory: '/no/such/file'"))
  else (w, Ok 1024).

Definition script_sftp_done (w : Script) : Script * Result unit :=
  (tick w, Ok tt).

Definition scripted_files : @FileTransport scripted :=
  @Build_FileTransport scripted
    script_open_sftp script_stat_size
    (λ _ _ _, script_sftp_done) (λ _ _ _, script_sftp_done)
    (λ _, script_sftp_done).

(** A successful result of the monitoring command with output [out]. *)
Definition monitored (out : string) : @TaskResult scripted :=
  @Build_TaskResult scripted "192.168.1.100" "get_system_info" out "" 0 1
    true None.

(** A new pool, no file call made yet. *)
Definition no_files : @Files scripted :=
  @Build_Files scripted (@fresh scripted 5 quiet) [].

(** Both hosts of [main] were acquired from a new pool. *)
Definition both_pooled : @State scripted :=
  fst (@acquire_all scripted [server1; server2] (@fresh scripted 5 quiet)).

(** * Properties *)

Section Pool.
Context `{T : Transport}.

(** ** What one acquisition does *)

Lemma create_connection_eq h σ :
  create_connection h σ =
  let ssh := clients σ in
  let args := pool_connect_args h in
  match connect ssh args (world σ) with
  | (w, Ok _) =>
      ({| pool := {| max_connections := max_connections (pool σ);
                     connections := <[host_key h := ssh]> (connections (pool σ));
                     key_order :=
                       if bool_decide (host_key h ∈ key_order (pool σ))
                       then key_order (pool σ)
                       else key_order (pool σ) ++ [host_key h] |};
          world := w; clients := S (clients σ); log := log σ;
          calls := calls σ ++ [CConnect ssh args] |}, Ok ssh)
  | (w, Raise e) =>
      ({| pool := pool σ; world := w; clients := S (clients σ);
          log := log σ ++ [(ERROR, "Error conectando a " +:+ host_key h
                                   +:+ ": " +:+ str e)];
          calls := calls σ ++ [CConnect ssh args] |}, Raise e)
  end.
Proof.
  unfold create_connection, call, new_client; simpl.
  destruct (connect _ _ _) as [w [u|e]]; reflexivity.
Qed.

(** A hit on a live session returns it and leaves everything as it was. *)
Lemma get_connection_hit h σ conn :
  connections (pool σ) !! host_key h = Some conn →
  is_active conn (world σ) = true →
  get_connection h σ = (σ, Ok conn).
Proof. intros Hk Ha. unfold get_connection. by rewrite Hk, Ha. Qed.

(** Otherwise the entry, if any, is dropped and a connection is created. *)
Lemma get_connection_miss h σ :
  (∀ conn, connections (pool σ) !! host_key h = Some conn →
           is_active conn (world σ) = false) →
  get_connection h σ =
  create_connection h
    (match connections (pool σ) !! host_key h with
     | Some _ => dict_del (host_key h) σ
     | None => σ
     end).
Proof.
  intros Hdead. unfold get_connection.
  destruct (connections (pool σ) !! host_key h) as [conn|] eqn:Hk; [|done].
  by rewrite (Hdead conn).
Qed.

Lemma args_key_pool h : args_key (pool_connect_args h) = host_key h.
Proof. unfold pool_connect_args. by destruct (truthy _). Qed.

(** The acquisition in full: which state and result, by cases on the pool
    entry, its liveness and the outcome of [connect]. *)
Lemma get_connection_cases h σ σ' r :
  get_connection h σ = (σ', r) →
  (∃ conn, connections (pool σ) !! host_key h = Some conn ∧
           is_active conn (world σ) = true ∧ σ' = σ ∧ r = Ok conn)
  ∨ ((∀ conn, connections (pool σ) !! host_key h = Some conn →
              is_active conn (world σ) = false) ∧
     clients σ' = S (clients σ) ∧
     max_connections (pool σ') = max_connections (pool σ) ∧
     calls σ' = calls σ ++ [CConnect (clients σ) (pool_connect_args h)] ∧
     ((r = Ok (clients σ) ∧ log σ' = log σ ∧
       snd (connect (clients σ) (pool_connect_args h) (world σ)) = Ok tt ∧
       connections (pool σ') =
         <[host_key h := clients σ]> (connections (pool σ)))
      ∨ (∃ e, r = Raise e ∧
              snd (connect (clients σ) (pool_connect_args h) (world σ)) = Raise e ∧
              log σ' = log σ ++ [(ERROR, "Error conectando a " +:+ host_key h
                                         +:+ ": " +:+ str e)] ∧
              connections (pool σ') =
                delete (host_key h) (connections (pool σ))))).
Proof.
  intros Hget.
  destruct (connections (pool σ) !! host_key h) as [conn|] eqn:Hk;
    [destruct (is_active conn (world σ)) eqn:Ha|].
  - rewrite (get_connection_hit _ _ _ Hk Ha) in Hget.
    injection Hget as <- <-. left. by exists conn.
  - right. rewrite get_connection_miss in Hget
      by (intros c Hc; congruence).
    rewrite Hk, create_connection_eq in Hget. simpl in Hget.
    split; [intros c Hc; congruence|].
    destruct (connect _ _ _) as [w [[]|e]]; injection Hget as <- <-; simpl.
    + do 3 (split; [done|]). left. do 3 (split; [done|]).
      by rewrite insert_delete_eq.
    + do 3 (split; [done|]). right. by exists e.
  - right. rewrite get_connection_miss in Hget
      by (intros c Hc; congruence).
    rewrite Hk, create_connection_eq in Hget. simpl in Hget.
    split; [intros c Hc; congruence|].
    destruct (connect _ _ _) as [w [[]|e]]; injection Hget as <- <-; simpl.
    + do 3 (split; [done|]). left. by do 3 (split; [done|]).
    + do 3 (split; [done|]). right. exists e. do 3 (split; [done|]).
      by rewrite delete_id.
Qed.

(** The order of the keys after an acquisition. *)
Lemma get_connection_key_order h σ σ' r :
  get_connection h σ = (σ', r) →
  key_order (pool σ') =
  match connections (pool σ) !! host_key h with
  | Some conn =>
      if is_active conn (world σ) then key_order (pool σ)
      else
        match r with
        | Ok _ => filter (λ k, k ≠ host_key h) (key_order (pool σ))
                  ++ [host_key h]
        | Raise _ => filter (λ k, k ≠ host_key h) (key_order (pool σ))
        end
  | None =>
      match r with
      | Ok _ => if bool_decide (host_key h ∈ key_order (pool σ))
                then key_order (pool σ)
                else key_order (pool σ) ++ [host_key h]
      | Raise _ => key_order (pool σ)
      end
  end.
Proof.
  unfold get_connection.
  destruct (connections (pool σ) !! host_key h) as [conn|];
    [destruct (is_active conn (world σ)); [by intros [= <- <-]|]|];
    rewrite create_connection_eq; simpl;
    destruct (connect _ _ _) as [w [[]|e]]; intros [= <- <-]; simpl;
    try done.
  rewrite bool_decide_eq_false_2; [done|].
  rewrite list_elem_of_filter. by intros [Hne _].
Qed.

(** ** The invariant of the pool *)

Lemma close_each_spec conns σ :
  calls (close_each conns σ) = calls σ ++ (CClose <$> conns) ∧
  clients (close_each conns σ) = clients σ ∧
  pool (close_each conns σ) = pool σ ∧
  log (close_each conns σ) = log σ.
Proof.
  revert σ. induction conns as [|conn rest IH]; intros σ; simpl.
  - by rewrite app_nil_r.
  - destruct (IH (fst (call (CClose conn) (close conn) σ))) as (-> & -> & -> & ->).
    unfold call. destruct (close conn (world σ)) as [w r]; simpl.
    by rewrite <- app_assoc.
Qed.

Lemma pool_inv_fresh limit w : pool_inv (fresh limit w).
Proof.
  split; simpl.
  - intros s a H. by apply elem_of_nil in H.
  - intros s a a' H. by apply elem_of_nil in H.
  - intros k s H. by rewrite lookup_empty in H.
Qed.

Lemma pool_inv_connect σ σ' (a : ConnectArgs) :
  pool_inv σ →
  clients σ' = S (clients σ) →
  calls σ' = calls σ ++ [CConnect (clients σ) a] →
  (∀ k s, connections (pool σ') !! k = Some s →
          connections (pool σ) !! k = Some s ∨ (s = clients σ ∧ k = args_key a)) →
  pool_inv σ'.
Proof.
  intros [Hfresh Honce Horigin] Hcl Hcalls Hconn. split.
  - intros s a0. rewrite Hcalls, Hcl, elem_of_app, list_elem_of_singleton.
    intros [H|H]; [apply Hfresh in H; lia | injection H as -> _; lia].
  - intros s a1 a2.
    rewrite Hcalls, !elem_of_app, !list_elem_of_singleton.
    intros [H1|H1] [H2|H2].
    + eauto.
    + injection H2 as -> _. apply Hfresh in H1. lia.
    + injection H1 as -> _. apply Hfresh in H2. lia.
    + congruence.
  - intros k s Hk. rewrite Hcalls.
    destruct (Hconn k s Hk) as [Hold|[-> ->]].
    + destruct (Horigin k s Hold) as (a0 & Ha0 & Hkey).
      exists a0. split; [apply elem_of_app; by left | done].
    + exists a. split; [|done].
      apply elem_of_app; right. by apply list_elem_of_singleton.
Qed.

Lemma pool_inv_step σ σ' : pool_step σ σ' → pool_inv σ → pool_inv σ'.
Proof.
  intros Hstep Hinv.
  destruct Hstep as [h σ σ' r Hget|σ|σ w|A c f σ Hc|lvl msg σ|a σ].
  - apply get_connection_cases in Hget
      as [(conn & _ & _ & -> & _)|(_ & Hcl & _ & Hcalls & Hres)]; [done|].
    apply (pool_inv_connect σ σ' (pool_connect_args h)); try done.
    intros k s Hk. rewrite args_key_pool.
    destruct Hres as [(_ & _ & _ & Hc)|(e & _ & _ & _ & Hc)]; rewrite Hc in Hk.
    + destruct (decide (host_key h = k)) as [<-|Hne].
      * rewrite lookup_insert_eq in Hk. injection Hk as <-. by right.
      * rewrite lookup_insert_ne in Hk by done. by left.
    + apply lookup_delete_Some in Hk as [_ Hk]. by left.
  - destruct Hinv as [Hfresh Honce Horigin]. unfold close_all.
    destruct (close_each_spec (pooled_clients σ) σ)
      as (Hcalls & Hcl & _ & _).
    assert (∀ s a, CConnect s a ∈ calls (close_each (pooled_clients σ) σ) →
            CConnect s a ∈ calls σ) as Hsame.
    { intros s a. rewrite Hcalls, elem_of_app, list_elem_of_fmap.
      intros [H|(x & Hx & _)]; [done | discriminate]. }
    split; simpl.
    + intros s a H. rewrite Hcl. eauto.
    + intros s a a' H1 H2. eauto.
    + intros k s H. by rewrite lookup_empty in H.
  - destruct Hinv as [Hfresh Honce Horigin]. by split.
  - destruct Hinv as [Hfresh Honce Horigin]. unfold call.
    destruct (f (world σ)) as [w r]; simpl.
    assert (∀ s a, CConnect s a ∈ calls σ ++ [c] → CConnect s a ∈ calls σ)
      as Hsame.
    { intros s a. rewrite elem_of_app, list_elem_of_singleton.
      intros [H|<-]; [done | discriminate]. }
    split; simpl; [eauto.. |].
    intros k s Hk. destruct (Horigin k s Hk) as (a & Ha & Hkey).
    exists a. split; [apply elem_of_app; by left | done].
  - destruct Hinv as [Hfresh Honce Horigin]. by split.
  - eapply (pool_inv_connect σ _ a); [done| | |].
    + unfold call, new_client; simpl. by destruct (connect _ _ _).
    + unfold call, new_client; simpl. by destruct (connect _ _ _).
    + unfold call, new_client; simpl. destruct (connect _ _ _). simpl. eauto.
Qed.

Lemma pool_step_calls σ σ' c : pool_step σ σ' → c ∈ calls σ → c ∈ calls σ'.
Proof.
  intros Hstep Hc.
  destruct Hstep as [h σ σ' r Hget|σ|σ w|A c0 f σ Hc0|lvl msg σ|a σ]; simpl.
  - apply get_connection_cases in Hget
      as [(conn & _ & _ & -> & _)|(_ & _ & _ & -> & _)]; [done|].
    apply elem_of_app. by left.
  - unfold close_all; simpl.
    destruct (close_each_spec (pooled_clients σ) σ)
      as (-> & _). apply elem_of_app. by left.
  - done.
  - unfold call. destruct (f (world σ)); simpl. apply elem_of_app. by left.
  - done.
  - unfold call, new_client; simpl. destruct (connect _ _ _); simpl.
    apply elem_of_app. by left.
Qed.

Lemma pool_inv_reachable σ σ' : rtc pool_step σ σ' → pool_inv σ → pool_inv σ'.
Proof. induction 1; eauto using pool_inv_step. Qed.

Lemma pool_reach_calls σ σ' c : rtc pool_step σ σ' → c ∈ calls σ → c ∈ calls σ'.
Proof. induction 1; eauto using pool_step_calls. Qed.

(** ** Computations made of such steps *)

Lemma steady_ret {A} (a : A) : steady (ret a).
Proof. intros σ. apply rtc_refl. Qed.

Lemma steady_lift {A} (r : Result A) : steady (lift r).
Proof. intros σ. apply rtc_refl. Qed.

Lemma steady_call {A} c (f : World → World * Result A) :
  is_connect c = false → steady (call c f).
Proof. intros Hc σ. apply rtc_once. by apply step_call. Qed.

Lemma steady_logged {A} lvl (msg : State → string) (r : State → Result A) :
  steady (λ σ, (logger lvl (msg σ) σ, r σ)).
Proof. intros σ. apply rtc_once. apply step_log. Qed.

Lemma steady_get_connection h : steady (get_connection h).
Proof.
  intros σ. apply rtc_once.
  apply (step_acquire h σ _ (snd (get_connection h σ))).
  by destruct (get_connection h σ).
Qed.

Lemma steady_bind {A B} (m : M A) (k : A → M B) :
  steady m → (∀ a, steady (k a)) → steady (bind m k).
Proof.
  intros Hm Hk σ. unfold bind. specialize (Hm σ).
  destruct (m σ) as [σ1 [a|e]]; simpl in *; [|done].
  etrans; [exact Hm | apply Hk].
Qed.

Lemma steady_try_except {A} (body : M A) (handler : exn → M A) :
  steady body → (∀ e, steady (handler e)) → steady (try_except body handler).
Proof.
  intros Hb Hh σ. unfold try_except. specialize (Hb σ).
  destruct (body σ) as [σ1 [a|e]]; simpl in *; [done|].
  etrans; [exact Hb | apply Hh].
Qed.

(** A session handed out was connected for the key of the host asked for. *)
Lemma get_connection_origin h σ σ' s :
  pool_inv σ → get_connection h σ = (σ', Ok s) →
  ∃ a, CConnect s a ∈ calls σ' ∧ args_key a = host_key h.
Proof.
  intros Hinv Hget.
  apply get_connection_cases in Hget
    as [(conn & Hk & _ & -> & [= <-])|(_ & _ & _ & Hcalls & Hres)].
  - by apply (inv_origin _ Hinv).
  - destruct Hres as [([= ->] & _)|(e & [=] & _)].
    exists (pool_connect_args h). rewrite Hcalls, args_key_pool. split; [|done].
    apply elem_of_app; right. by apply list_elem_of_singleton.
Qed.

(** In a pool reached from a new one, no client sits under two keys and
    every pooled client was created earlier. *)
Lemma pool_inv_entry σ k s :
  pool_inv σ → connections (pool σ) !! k = Some s →
  (s < clients σ)%nat ∧ ∀ k', connections (pool σ) !! k' = Some s → k' = k.
Proof.
  intros Hinv Hk. destruct (inv_origin _ Hinv k s Hk) as (a & Ha & <-).
  split; [by apply (inv_fresh _ Hinv s a)|].
  intros k' Hk'. destruct (inv_origin _ Hinv k' s Hk') as (a' & Ha' & <-).
  by apply (inv_once _ Hinv s).
Qed.

Lemma get_connection_max_connections limit h σ :
  get_connection h (set_max_connections limit σ) =
  (set_max_connections limit (fst (get_connection h σ)),
   snd (get_connection h σ)).
Proof.
  unfold get_connection; simpl.
  destruct (connections (pool σ) !! host_key h) as [conn|];
    [destruct (is_active conn (world σ))|]; try done;
    rewrite !create_connection_eq; simpl;
    by destruct (connect _ _ _) as [w [[]|e]].
Qed.

Lemma acquire_all_size hs : ∀ σ σ' rs,
  acquire_all hs σ = (σ', rs) →
  NoDup (host_key <$> hs) →
  (∀ h, h ∈ hs → connections (pool σ) !! host_key h = None) →
  size (connections (pool σ')) =
    (size (connections (pool σ)) + length (filter (λ r, is_ok r = true) rs))%nat
  ∧ max_connections (pool σ') = max_connections (pool σ).
Proof.
  induction hs as [|h rest IH]; intros σ σ' rs Hrun Hnd Habs; simpl in Hrun.
  - injection Hrun as <- <-. simpl. split; [lia | done].
  - destruct (get_connection h σ) as [σ1 r] eqn:Hget.
    destruct (acquire_all rest σ1) as [σ2 rs'] eqn:Hrest.
    injection Hrun as <- <-.
    rewrite fmap_cons in Hnd. apply NoDup_cons in Hnd as [Hh Hnd].
    assert (connections (pool σ) !! host_key h = None) as Hnone
      by (apply Habs; by left).
    apply get_connection_cases in Hget
      as [(conn & Hk & _)|(_ & _ & Hmax & _ & Hres)]; [congruence|].
    assert (∀ h', h' ∈ rest → connections (pool σ1) !! host_key h' = None)
      as Habs1.
    { intros h' Hin.
      assert (host_key h ≠ host_key h') as Hne.
      { intros Heq. apply Hh. rewrite Heq. apply list_elem_of_fmap. eauto. }
      destruct Hres as [(_ & _ & _ & ->)|(e & _ & _ & _ & ->)].
      - rewrite lookup_insert_ne by done. apply Habs. by right.
      - rewrite lookup_delete_ne by done. apply Habs. by right. }
    destruct (IH σ1 σ2 rs' Hrest Hnd Habs1) as [-> ->].
    split; [|done].
    destruct Hres as [(-> & _ & _ & ->)|(e & -> & _ & _ & ->)].
    + rewrite map_size_insert_None by done.
      rewrite filter_cons_True by done. simpl. lia.
    + rewrite delete_id by done.
      rewrite filter_cons_False by done. lia.
Qed.

(** The pool tells hosts apart by their key only: a host with the key of a
    pooled live session is given that session. *)
Lemma same_key_shares_session hA hB σ sA :
  host_key hA = host_key hB →
  connections (pool σ) !! host_key hA = Some sA →
  is_active sA (world σ) = true →
  get_connection hB σ = (σ, Ok sA).
Proof. intros Heq Hk Ha. rewrite Heq in Hk. by apply get_connection_hit. Qed.

(** ** The claims on the pool *)

(** C2 (amended). A session handed out for a host sits in the pool under
    that host's key; while it sits there and its transport reports active,
    every further acquisition for the host, and for any other host with
    the same key, returns that very client and changes nothing; and
    whatever happens to the pool afterwards, an acquisition for a host
    with another key never returns that client. *)
Theorem pool_reuse_and_independence limit w σ hA σA sA :
  rtc pool_step (fresh limit w) σ →
  get_connection hA σ = (σA, Ok sA) →
  connections (pool σA) !! host_key hA = Some sA
  ∧ (∀ σ1 hB,
       host_key hB = host_key hA →
       connections (pool σ1) !! host_key hA = Some sA →
       is_active sA (world σ1) = true →
       get_connection hB σ1 = (σ1, Ok sA))
  ∧ (∀ σ1 hB σB sB,
       rtc pool_step σA σ1 →
       get_connection hB σ1 = (σB, Ok sB) →
       host_key hB ≠ host_key hA →
       sB ≠ sA).
Proof.
  intros Hreach Hget.
  assert (pool_inv σ) as Hinv
    by (apply (pool_inv_reachable _ _ Hreach), pool_inv_fresh).
  assert (pool_inv σA) as HinvA
    by (apply (pool_inv_step σ); [by eapply step_acquire | done]).
  split; [|split].
  - apply get_connection_cases in Hget
      as [(conn & Hk & _ & -> & [= <-])|(_ & _ & _ & _ & Hres)]; [done|].
    destruct Hres as [([= ->] & _ & _ & ->)|(e & [=] & _)].
    apply lookup_insert_eq.
  - intros σ1 hB Heq Hk Ha. by apply (same_key_shares_session hA).
  - intros σ1 hB σB sB Hreach1 HgetB Hne ->.
    destruct (get_connection_origin _ _ _ _ Hinv Hget) as (aA & HaA & HkA).
    assert (pool_inv σ1) as Hinv1 by by apply (pool_inv_reachable σA).
    destruct (get_connection_origin _ _ _ _ Hinv1 HgetB) as (aB & HaB & HkB).
    assert (pool_inv σB) as HinvB
      by (apply (pool_inv_step σ1); [by eapply step_acquire | done]).
    apply Hne. rewrite <- HkA, <- HkB. apply (inv_once _ HinvB sA); [done|].
    eapply pool_step_calls; [by eapply step_acquire|].
    by apply (pool_reach_calls σA).
Qed.

(** C3 (amended). When the pooled session of an identity reports inactive,
    the next acquisition makes one call, the [connect] of a newly created
    client, and none that closes the old session; afterwards the old
    session is under no key of the pool; if the connect succeeds the new
    client, which is not the old one, is pooled and returned, and if it
    fails the error is raised and the identity has no entry. *)
Theorem stale_session_replaced limit w σ h old σ' r :
  rtc pool_step (fresh limit w) σ →
  connections (pool σ) !! host_key h = Some old →
  is_active old (world σ) = false →
  get_connection h σ = (σ', r) →
  calls σ' = calls σ ++ [CConnect (clients σ) (pool_connect_args h)]
  ∧ (∀ k, connections (pool σ') !! k ≠ Some old)
  ∧ match r with
    | Ok new =>
        new = clients σ ∧ new ≠ old ∧
        connections (pool σ') !! host_key h = Some new
    | Raise e =>
        snd (connect (clients σ) (pool_connect_args h) (world σ)) = Raise e ∧
        connections (pool σ') !! host_key h = None
    end.
Proof.
  intros Hreach Hk Hdead Hget.
  assert (pool_inv σ) as Hinv
    by (apply (pool_inv_reachable _ _ Hreach), pool_inv_fresh).
  destruct (pool_inv_entry _ _ _ Hinv Hk) as [Hlt Huniq].
  apply get_connection_cases in Hget
    as [(conn & Hk' & Ha & _)|(_ & _ & _ & Hcalls & Hres)]; [congruence|].
  split; [done|].
  destruct Hres as [(-> & _ & _ & Hc)|(e & -> & He & _ & Hc)]; rewrite Hc.
  - split; [|split; [done|split; [lia|apply lookup_insert_eq]]].
    intros k Hk2. destruct (decide (host_key h = k)) as [<-|Hne].
    + rewrite lookup_insert_eq in Hk2. injection Hk2 as Heq. lia.
    + rewrite lookup_insert_ne in Hk2 by done. by apply Huniq in Hk2.
  - split; [|split; [done|apply lookup_delete_eq]].
    intros k Hk2. apply lookup_delete_Some in Hk2 as [Hne Hk2].
    by apply Huniq in Hk2.
Qed.

(** C7 (amended). When the connect attempt of an acquisition fails, the
    error raised is the one of [connect], the identity has no entry
    afterwards, and the entries of all other identities are as before; a
    pool that had no entry for the identity is left as it was, and one that
    had an inactive entry has lost it. *)
Theorem failed_connect_inserts_nothing h σ σ' e :
  get_connection h σ = (σ', Raise e) →
  snd (connect (clients σ) (pool_connect_args h) (world σ)) = Raise e
  ∧ connections (pool σ') !! host_key h = None
  ∧ (∀ k, k ≠ host_key h →
          connections (pool σ') !! k = connections (pool σ) !! k)
  ∧ (connections (pool σ) !! host_key h = None → pool σ' = pool σ)
  ∧ connections (pool σ') = delete (host_key h) (connections (pool σ)).
Proof.
  intros Hget. pose proof (get_connection_key_order _ _ _ _ Hget) as Horder.
  apply get_connection_cases in Hget
    as [(conn & _ & _ & _ & [=])|(_ & _ & Hmax & _ & Hres)].
  destruct Hres as [([=] & _)|(e' & [= <-] & He & _ & Hc)].
  rewrite Hc. repeat split.
  - done.
  - apply lookup_delete_eq.
  - intros k Hne. by apply lookup_delete_ne.
  - intros Hnone. rewrite delete_id in Hc by done. rewrite Hnone in Horder.
    destruct (pool σ'), (pool σ); simpl in *. congruence.
Qed.

(** C9. [max_connections] plays no part in an acquisition: with another
    limit the same result is returned and the same state reached, limit
    apart.  Acquiring for hosts with pairwise distinct keys from a new pool
    leaves one entry per acquisition that succeeded, whatever the limit, so
    the pool holds more than [max_connections] sessions as soon as more
    than that many succeed. *)
Theorem pool_ignores_max_connections limit w hs σ rs :
  acquire_all hs (fresh limit w) = (σ, rs) →
  NoDup (host_key <$> hs) →
  size (connections (pool σ)) = length (filter (λ r, is_ok r = true) rs)
  ∧ max_connections (pool σ) = limit
  ∧ (∀ limit' h σ0,
       get_connection h (set_max_connections limit' σ0) =
       (set_max_connections limit' (fst (get_connection h σ0)),
        snd (get_connection h σ0))).
Proof.
  intros Hrun Hnd. split; [|split].
  - destruct (acquire_all_size hs _ _ _ Hrun Hnd) as [-> _]; [|done].
    intros h _. apply lookup_empty.
  - destruct (acquire_all_size hs _ _ _ Hrun Hnd) as [_ ->]; [|done].
    intros h _. apply lookup_empty.
  - intros. apply get_connection_max_connections.
Qed.

End Pool.

(** ** The pool on the scripted transport *)

Lemma stale_reachable : rtc (@pool_step scripted) (@fresh scripted 5 quiet) stale.
Proof.
  eapply rtc_l; [apply (step_acquire server1 _ pooled (Ok 0%nat)); reflexivity|].
  apply rtc_once. apply (@step_world scripted pooled).
Qed.

Lemma pool_reuse_and_independence_witness :
  connections (pool pooled) !! host_key server1 = Some 0%nat
  ∧ @get_connection scripted server1 pooled = (pooled, Ok 0%nat)
  ∧ ∃ sB, snd (@get_connection scripted server2 pooled) = Ok sB ∧ sB ≠ 0%nat.
Proof.
  destruct (@pool_reuse_and_independence scripted 5 quiet
              (@fresh scripted 5 quiet) server1 pooled 0%nat
              (rtc_refl _ _) eq_refl) as (H1 & H2 & H3).
  split; [exact H1|]. split; [exact (H2 pooled server1 eq_refl H1 eq_refl)|].
  exists 1%nat. split; [reflexivity|].
  refine (H3 pooled server2 (fst (@get_connection scripted server2 pooled))
             1%nat (rtc_refl _ _) eq_refl _).
  vm_compute. discriminate.
Defined.

(** C2, as stated, fails: [server1_other_password] is not [server1] (it
    has another password, timeout and tags), yet it has the same key, and
    while the session 0 pooled for [server1] is active, it is handed that
    very session. *)
Lemma distinct_hosts_share_session :
  server1_other_password ≠ server1
  ∧ @get_connection scripted server1 (@fresh scripted 5 quiet) = (pooled, Ok 0%nat)
  ∧ @is_active scripted 0%nat (world pooled) = true
  ∧ @get_connection scripted server1_other_password pooled = (pooled, Ok 0%nat).
Proof. split; [discriminate|]. repeat split; reflexivity. Qed.

(** Two hosts that differ in password, timeout and tags have one key, and
    the second is handed the session of the first; so have two hosts whose
    user and host names split one string at different [@]. *)
Example shared_by_key :
  host_key server1_other_password = host_key server1
  ∧ @get_connection scripted server1_other_password pooled = (pooled, Ok 0%nat).
Proof. split; reflexivity. Qed.

Example host_key_collision :
  host_key {| hostname := "c"; username := "a@b"; password := None;
              key_filename := None; port := 22; timeout := 30; tags := [] |}
  = host_key {| hostname := "b@c"; username := "a"; password := None;
                key_filename := None; port := 22; timeout := 30; tags := [] |}.
Proof. reflexivity. Qed.

Lemma stale_session_replaced_witness :
  calls (fst (@get_connection scripted server1 stale)) =
    calls stale ++ [CConnect 1%nat (pool_connect_args server1)]
  ∧ connections (pool (fst (@get_connection scripted server1 stale)))
      !! host_key server1 = Some 1%nat.
Proof.
  destruct (@stale_session_replaced scripted 5 quiet stale server1 0%nat
              (fst (@get_connection scripted server1 stale)) (Ok 1%nat)
              stale_reachable eq_refl eq_refl eq_refl)
    as (H1 & _ & _ & _ & H3).
  exact (conj H1 H3).
Defined.

(** C3, as stated, fails: [server1]'s pooled session 0 is inactive, the
    acquisition returns the new client 1, and no call closes client 0 (the
    only calls ever made are the two connects, and the world has no closed
    client); with the host cut off, the acquisition returns no session at
    all. *)
Lemma stale_session_left_open :
  connections (pool stale) !! host_key server1 = Some 0%nat
  ∧ @is_active scripted 0%nat (world stale) = false
  ∧ snd (@get_connection scripted server1 stale) = Ok 1%nat
  ∧ calls (fst (@get_connection scripted server1 stale)) =
      [CConnect 0%nat (pool_connect_args server1);
       CConnect 1%nat (pool_connect_args server1)]
  ∧ closed (world (fst (@get_connection scripted server1 stale))) = []
  ∧ snd (@get_connection scripted server1 stale_cut_off) =
      Raise (Exception "timed out").
Proof. repeat split; vm_compute; reflexivity. Qed.

Lemma failed_connect_inserts_nothing_witness :
  connections (pool (fst (@get_connection scripted server1 stale_cut_off)))
    !! host_key server1 = None.
Proof.
  exact (proj1 (proj2 (@failed_connect_inserts_nothing scripted server1
           stale_cut_off (fst (@get_connection scripted server1 stale_cut_off))
           (Exception "timed out") eq_refl))).
Defined.

(** C7, as stated, fails: the pool maps [server1]'s key to the inactive
    client 0, the connect attempt of the acquisition fails, and afterwards
    the key has no entry, so the mapping is not what it was. *)
Lemma failed_connect_changes_mapping :
  connections (pool stale_cut_off) !! host_key server1 = Some 0%nat
  ∧ snd (@get_connection scripted server1 stale_cut_off) =
      Raise (Exception "timed out")
  ∧ connections (pool (fst (@get_connection scripted server1 stale_cut_off)))
      ≠ connections (pool stale_cut_off).
Proof.
  split; [vm_compute; reflexivity|]. split; [vm_compute; reflexivity|].
  intros Heq.
  assert (connections (pool (fst (@get_connection scripted server1 stale_cut_off)))
            !! host_key server1 = Some 0%nat) as H
    by (rewrite Heq; vm_compute; reflexivity).
  vm_compute in H. discriminate.
Qed.

Lemma pool_ignores_max_connections_witness :
  size (connections (pool (fst (@acquire_all scripted [server1; server2]
                                  (@fresh scripted 1 quiet))))) = 2%nat
  ∧ max_connections (pool (fst (@acquire_all scripted [server1; server2]
                                  (@fresh scripted 1 quiet)))) = 1.
Proof.
  assert (NoDup (host_key <$> [server1; server2])) as Hnd.
  { apply (bool_decide_unpack _). vm_compute. exact I. }
  destruct (@pool_ignores_max_connections scripted 1 quiet [server1; server2]
              (fst (@acquire_all scripted [server1; server2]
                      (@fresh scripted 1 quiet)))
              [Ok 0%nat; Ok 1%nat] eq_refl Hnd) as (H1 & H2 & _).
  exact (conj H1 H2).
Defined.

(** ** The executor *)

Section Executor.
Context `{T : Transport}.

Lemma command_failed_fields h cmd start_time e σ σ' r :
  command_failed h cmd start_time e σ = (σ', Ok r) →
  host r = hostname h ∧ command r = cmd ∧ stdout r = "" ∧ stderr r = "" ∧
  exit_code r = -1 ∧ success r = false ∧ error r = Some (str e).
Proof. unfold command_failed. by intros [= <- <-]. Qed.

Lemma command_ran_fields h cmd start_time out err code σ σ' r :
  command_ran h cmd start_time (out, err, code) σ = (σ', Ok r) →
  host r = hostname h ∧ command r = cmd ∧ stdout r = out ∧ stderr r = err ∧
  exit_code r = code ∧ success r = (code =? 0) ∧ error r = None.
Proof. unfold command_ran. by intros [= <- <-]. Qed.

(** The fields of a result, by the way the [try] body ended. *)
Lemma task_ran_fields h cmd o r :
  task_ran h cmd o r →
  host r = hostname h ∧ command r = cmd ∧
  match o with
  | Ok (out, err, code) =>
      stdout r = out ∧ stderr r = err ∧ exit_code r = code ∧
      success r = (code =? 0) ∧ error r = None
  | Raise e =>
      stdout r = "" ∧ stderr r = "" ∧ exit_code r = -1 ∧
      success r = false ∧ error r = Some (str e)
  end.
Proof.
  destruct 1 as [? ? ? ? ? ? ? _ Hr|? ? ? ? ? ? ? ? ? _ _ Hr
                 |? ? ? ? ? [[out err] code] ? ? ? _ _ Hr].
  - apply command_failed_fields in Hr. naive_solver.
  - apply command_failed_fields in Hr. naive_solver.
  - apply command_ran_fields in Hr. naive_solver.
Qed.

(** [execute_command] returns a result whatever happens, and the result is
    the one of [task_ran] for the way its body ended. *)
Lemma execute_command_ran h cmd σ :
  ∃ σ' r, execute_command h cmd σ = (σ', Ok r) ∧
          task_ran h cmd
            (snd ((ssh <- get_connection h ;; channel_work ssh cmd) σ)) r.
Proof.
  unfold execute_command, try_except, bind.
  destruct (get_connection h σ) as [σ1 [ssh|e]] eqn:Hget; simpl.
  - destruct (channel_work ssh cmd σ1) as [σ2 [data|e]] eqn:Hwork; simpl.
    + destruct (command_ran h cmd (time (world σ)) data σ2) as [σ3 r] eqn:Hr.
      assert (∃ res, r = Ok res) as [res ->]
        by (unfold command_ran in Hr; destruct data as [[? ?] ?];
            injection Hr as _ <-; eauto).
      exists σ3, res. split; [done|]. by eapply command_returned.
    + eexists _, _. split; [reflexivity|]. by eapply channel_raised.
  - eexists _, _. split; [reflexivity|]. by eapply acquisition_raised.
Qed.

Lemma steady_channel_work ssh cmd : steady (channel_work ssh cmd).
Proof.
  unfold channel_work.
  repeat (apply steady_bind; [|intros ?]);
    auto using steady_call, steady_lift, steady_ret.
Qed.

Lemma steady_command_ran h cmd start_time data :
  steady (command_ran h cmd start_time data).
Proof.
  destruct data as [[out err] code]. unfold command_ran.
  apply (steady_logged INFO (λ _, _) (λ σ, Ok _)).
Qed.

Lemma steady_command_failed h cmd start_time e :
  steady (command_failed h cmd start_time e).
Proof. unfold command_failed. apply (steady_logged ERROR (λ _, _) (λ σ, Ok _)). Qed.

Lemma steady_execute_command h cmd : steady (execute_command h cmd).
Proof.
  intros σ. unfold execute_command. apply steady_try_except.
  - apply steady_bind; [apply steady_get_connection|]. intros ssh.
    apply steady_bind; [apply steady_channel_work|]. intros data.
    apply steady_command_ran.
  - intros e. apply steady_command_failed.
Qed.

(** C4. [execute_command] always returns a [TaskResult] for the host and
    the command.  If the acquisition returns a session, [exec_command] on
    that session gives a channel, both reads on that channel and both
    decodings succeed and [recv_exit_status] on that channel, asked last,
    returns a status, then the result has that status as exit code, success
    exactly when it is 0, the decoded outputs and no error, and the four
    calls were made once each, in this order.  If the acquisition or any
    of these steps raises, the exit code is -1, success is false, both
    outputs are empty and the error field is the text of that exception. *)
Theorem execute_command_result h cmd σ :
  ∃ σ' r,
    execute_command h cmd σ = (σ', Ok r) ∧
    host r = hostname h ∧ command r = cmd ∧
    let failed e :=
      stdout r = "" ∧ stderr r = "" ∧ exit_code r = -1 ∧
      success r = false ∧ error r = Some (str e) in
    match get_connection h σ with
    | (_, Raise e) => failed e
    | (σ1, Ok ssh) =>
    match exec_command ssh cmd (world σ1) with
    | (_, Raise e) => failed e
    | (w2, Ok ch) =>
    match stdout_read ch w2 with
    | (_, Raise e) => failed e
    | (w3, Ok out) =>
    match decode out with
    | Raise e => failed e
    | Ok stdout_data =>
    match stderr_read ch w3 with
    | (_, Raise e) => failed e
    | (w4, Ok err) =>
    match decode err with
    | Raise e => failed e
    | Ok stderr_data =>
    match recv_exit_status ch w4 with
    | (_, Raise e) => failed e
    | (w5, Ok code) =>
        stdout r = stdout_data ∧ stderr r = stderr_data ∧
        exit_code r = code ∧ success r = (code =? 0) ∧ error r = None ∧
        world σ' = w5 ∧
        calls σ' = calls σ1 ++ [CExecCommand ssh cmd; CStdoutRead ch;
                                CStderrRead ch; CRecvExitStatus ch]
    end end end end end end end.
Proof.
  unfold execute_command, try_except, bind.
  destruct (get_connection h σ) as [σ1 [ssh|e]]; simpl;
    [|by eexists _, _].
  unfold channel_work, bind, call, lift, ret, command_ran, command_failed.
  destruct (exec_command ssh cmd (world σ1)) as [w2 [ch|e]]; simpl;
    [|by eexists _, _].
  destruct (stdout_read ch w2) as [w3 [out|e]]; simpl; [|by eexists _, _].
  destruct (decode out) as [stdout_data|e]; simpl; [|by eexists _, _].
  destruct (stderr_read ch w3) as [w4 [err|e]]; simpl; [|by eexists _, _].
  destruct (decode err) as [stderr_data|e]; simpl; [|by eexists _, _].
  destruct (recv_exit_status ch w4) as [w5 [code|e]]; simpl;
    [|by eexists _, _].
  eexists _, _. split; [reflexivity|]. simpl.
  repeat split. by rewrite <- !app_assoc.
Qed.

End Executor.

(** [exit 7] on a reachable host, and any command on one that is cut off. *)
Example exit_7 :
  snd (@execute_command scripted server1 "exit 7" (@fresh scripted 5 quiet)) =
  Ok (@Build_TaskResult scripted "192.168.1.100" "exit 7" "" "" 7 5 false None).
Proof. reflexivity. Qed.

Example never_ran :
  snd (@execute_command scripted server1 "uname -a"
         (cut_off (hostname server1) (@fresh scripted 5 quiet))) =
  Ok (@Build_TaskResult scripted "192.168.1.100" "uname -a" "" "" (-1) 1 false
        (Some "timed out")).
Proof. reflexivity. Qed.

(** ** The dispatcher *)

Section Dispatcher.
Context `{T : Transport}.

(** *** Lists updated at one index *)

Lemma insert_middle {A} (l : list A) i x y :
  l !! i = Some x →
  ∃ pre post, l = pre ++ x :: post ∧ <[i := y]> l = pre ++ y :: post.
Proof.
  intros Hi. exists (take i l), (drop (S i) l). split.
  - symmetry. by apply take_drop_middle.
  - apply insert_take_drop. by apply lookup_lt_Some in Hi.
Qed.

Lemma concat_fmap_insert {A B} (g : A → list B) (l : list A) i x y :
  l !! i = Some x → g x = [] →
  concat (g <$> <[i := y]> l) ≡ₚ g y ++ concat (g <$> l).
Proof.
  intros Hi Hx. destruct (insert_middle l i x y Hi) as (pre & post & -> & ->).
  rewrite !fmap_app, !fmap_cons, !concat_app, !concat_cons, Hx. simpl.
  by rewrite Permutation_app_swap_app.
Qed.

Lemma sum_fmap_insert {A} (g : A → nat) (l : list A) i x y :
  l !! i = Some x →
  (sum_list_with g (<[i := y]> l) + g x = sum_list_with g l + g y)%nat.
Proof.
  intros Hi. destruct (insert_middle l i x y Hi) as (pre & post & -> & ->).
  rewrite !sum_list_with_app. simpl. lia.
Qed.

Lemma fmap_insert_same {A B} (g : A → B) (l : list A) i x y :
  l !! i = Some x → g y = g x → g <$> <[i := y]> l = g <$> l.
Proof.
  intros Hi Hg. rewrite list_fmap_insert, Hg.
  apply list_insert_id. by rewrite list_lookup_fmap, Hi.
Qed.

Lemma forallb_false_lookup {A} (f : A → bool) (l : list A) :
  forallb f l = false → ∃ i x, l !! i = Some x ∧ f x = false.
Proof.
  induction l as [|x l IH]; [done|]. simpl.
  destruct (f x) eqn:Hx; simpl.
  - intros (i & y & Hi & Hy)%IH. by exists (S i), y.
  - intros _. by exists 0%nat, x.
Qed.

(** *** The futures at submission *)

Lemma submit_labels self labels :
  label <$> submit self labels = known_labels self labels.
Proof.
  unfold submit, known_labels. induction labels as [|l rest IH]; [done|].
  simpl. destruct (hosts self !! l) as [h|] eqn:Hl; simpl.
  - rewrite filter_cons_True by (by rewrite Hl). f_equal. exact IH.
  - rewrite filter_cons_False by (rewrite Hl; by intros [? ?]). exact IH.
Qed.

Lemma submit_queued self labels :
  Forall (λ t, hosts self !! label t = Some (target t) ∧ future t = Queued)
         (submit self labels).
Proof.
  unfold submit. induction labels as [|l rest IH]; [by constructor|].
  simpl. destruct (hosts self !! l) as [h|] eqn:Hl; simpl; [|done].
  by constructor.
Qed.

Lemma dispatch_inv_init self labels cmd σ :
  dispatch_inv self labels cmd
    {| d_state := σ; d_futures := submit self labels; d_results := [] |}.
Proof.
  pose proof (submit_queued self labels) as Hq.
  split; simpl.
  - apply submit_labels.
  - eapply Forall_impl; [exact Hq|]. by intros t [? _].
  - eapply Forall_impl; [exact Hq|]. intros t [_ Hf]. by rewrite Hf.
  - exists []. split; [|constructor].
    induction Hq as [|t ts [_ Hf] _ IH]; [done|].
    simpl. unfold appended at 1. by rewrite Hf.
Qed.

(** *** One step *)

Lemma worker_step_inv h cmd f σ σ' f' :
  worker_step h cmd f σ = Some (σ', f') →
  future_inv h cmd f →
  future_inv h cmd f' ∧
  (∀ r, f ≠ Yielded r) ∧ (∀ r, f' ≠ Yielded r).
Proof.
  intros Hstep Hinv. destruct f as [|start_time ssh|r|r]; simpl in Hstep;
    try discriminate.
  - destruct (get_connection h σ) as [σ1 [ssh|e]] eqn:Hget.
    + injection Hstep as <- <-. simpl. eauto.
    + injection Hstep as <- <-. simpl. split; [|done].
      eexists _, _. split; [done|]. by eapply acquisition_raised.
  - destruct Hinv as (σa & σa1 & Hget).
    unfold try_except, bind in Hstep.
    destruct (channel_work ssh cmd σ) as [σ2 [data|e]] eqn:Hwork; simpl in Hstep.
    + destruct data as [[out err] code]. injection Hstep as <- <-.
      simpl. split; [|done].
      eexists _, _. split; [done|]. by eapply command_returned.
    + injection Hstep as <- <-. simpl. split; [|done].
      eexists _, _. split; [done|]. by eapply channel_raised.
Qed.

Lemma appended_not_yielded t :
  (∀ r, future t ≠ Yielded r) → appended t = [].
Proof. unfold appended. destruct (future t) as [| | |r]; naive_solver. Qed.

Lemma loop_body_results cb l res results σ :
  snd (loop_body cb l (Ok res) results σ) = results ++ [res].
Proof.
  unfold loop_body. destruct cb as [f|]; [|done].
  by destruct (call CCallback (f res) σ) as [σ1 [[]|e]].
Qed.

Lemma step_inv self labels cmd cb ev d d' :
  step cmd cb ev d = Some d' →
  dispatch_inv self labels cmd d → dispatch_inv self labels cmd d'.
Proof.
  intros Hstep [Hlab Htar Hfut (ls & Hperm & Hres)].
  destruct ev as [i|i]; simpl in Hstep;
    destruct (d_futures d !! i) as [t|] eqn:Hi; simpl in Hstep;
    try discriminate.
  - destruct (worker_step (target t) cmd (future t) (d_state d))
      as [[σ f]|] eqn:Hw; simpl in Hstep; [|discriminate].
    injection Hstep as <-.
    pose proof (Forall_lookup_1 _ _ _ _ Hfut Hi) as Hft.
    pose proof (Forall_lookup_1 _ _ _ _ Htar Hi) as Htt.
    destruct (worker_step_inv _ _ _ _ _ _ Hw Hft) as (Hf' & Hny & Hny').
    split; simpl.
    + by rewrite (fmap_insert_same label _ i t).
    + by apply Forall_insert.
    + by apply Forall_insert.
    + exists ls. split; [|done].
      rewrite Hperm.
      rewrite (concat_fmap_insert appended _ i t)
        by (done || by apply appended_not_yielded).
      by rewrite appended_not_yielded.
  - destruct (future t) as [| |r|] eqn:Hf; try discriminate.
    destruct (loop_body cb (label t) r (d_results d) (d_state d))
      as [σ results] eqn:Hloop.
    injection Hstep as <-.
    pose proof (Forall_lookup_1 _ _ _ _ Hfut Hi) as Hft.
    pose proof (Forall_lookup_1 _ _ _ _ Htar Hi) as Htt.
    cbv beta in Hft, Htt. rewrite Hf in Hft.
    destruct Hft as (res & o & -> & Hran).
    split; simpl.
    + by rewrite (fmap_insert_same label _ i t).
    + by apply Forall_insert.
    + apply Forall_insert; [done|]. simpl. eauto.
    + exists (ls ++ [label t]). split.
      * rewrite (concat_fmap_insert appended _ i t)
          by (done || (unfold appended; by rewrite Hf)).
        unfold appended at 1. simpl.
        rewrite <- Hperm. by rewrite Permutation_app_comm.
      * pose proof (loop_body_results cb (label t) res (d_results d) (d_state d))
          as Hr. rewrite Hloop in Hr. simpl in Hr. subst results.
        apply Forall2_app; [done|]. constructor; [|constructor]. eauto.
Qed.

Lemma run_inv self labels cmd cb schedule : ∀ d d',
  run cmd cb schedule d = Some d' →
  dispatch_inv self labels cmd d → dispatch_inv self labels cmd d'.
Proof.
  induction schedule as [|ev rest IH]; intros d d' Hrun Hinv; simpl in Hrun.
  - by injection Hrun as <-.
  - destruct (step cmd cb ev d) as [d1|] eqn:Hstep; simpl in Hrun; [|done].
    eauto using step_inv.
Qed.

(** The two steps of a worker, taken one after the other, are
    [execute_command]. *)
Lemma worker_steps_execute_command h cmd σ :
  match worker_step h cmd Queued σ with
  | Some (σ1, Connected start_time ssh) =>
      worker_step h cmd (Connected start_time ssh) σ1
      = Some (fst (execute_command h cmd σ), Done (snd (execute_command h cmd σ)))
  | Some (σ1, f) =>
      σ1 = fst (execute_command h cmd σ) ∧
      f = Done (snd (execute_command h cmd σ))
  | None => False
  end.
Proof.
  unfold worker_step, execute_command, try_except, bind.
  destruct (get_connection h σ) as [σ1 [ssh|e]].
  - destruct (channel_work ssh cmd σ1) as [σ2 [data|e]].
    + destruct (command_ran _ _ _ _ _) as [σ3 [r|e]]; [done|].
      by destruct (command_failed _ _ _ _ _).
    + by destruct (command_failed _ _ _ _ _).
  - by destruct (command_failed _ _ _ _ _).
Qed.

(** *** The dispatcher in the life of the pool *)

Lemma worker_step_reach h cmd f σ σ' f' :
  worker_step h cmd f σ = Some (σ', f') → rtc pool_step σ σ'.
Proof.
  destruct f as [|start_time ssh|r|r]; unfold worker_step; try done.
  - pose proof (steady_get_connection h σ) as Hget.
    destruct (get_connection h σ) as [σ1 [ssh|e]]; simpl in Hget.
    + by intros [= <- _].
    + pose proof (steady_command_failed h cmd (time (world σ)) e σ1) as Hf.
      destruct (command_failed _ _ _ _ _) as [σ2 r]. intros [= <- _].
      simpl in Hf. by etrans.
  - pose proof (steady_try_except _ _
      (steady_bind _ _ (steady_channel_work ssh cmd)
         (steady_command_ran h cmd start_time))
      (steady_command_failed h cmd start_time) σ) as Hrun.
    destruct (try_except _ _ _) as [σ1 r]. by intros [= <- _].
Qed.

Lemma loop_body_reach cb l r results σ :
  rtc pool_step σ (fst (loop_body cb l r results σ)).
Proof.
  unfold loop_body. destruct r as [result|e]; [destruct cb as [f|]|]; simpl.
  - pose proof (steady_call CCallback (f result) eq_refl σ) as Hcall.
    destruct (call CCallback (f result) σ) as [σ1 [[]|e]]; simpl in *; [done|].
    etrans; [exact Hcall|]. apply rtc_once, step_log.
  - apply rtc_refl.
  - apply rtc_once, step_log.
Qed.

Lemma step_reach cmd cb ev d d' :
  step cmd cb ev d = Some d' → rtc pool_step (d_state d) (d_state d').
Proof.
  destruct ev as [i|i]; simpl;
    destruct (d_futures d !! i) as [t|]; simpl; try done.
  - destruct (worker_step _ _ _ _) as [[σ f]|] eqn:Hw; simpl; [|done].
    intros [= <-]. simpl. by eapply worker_step_reach.
  - destruct (future t) as [| |r|]; try done.
    pose proof (loop_body_reach cb (label t) r (d_results d) (d_state d)) as Hl.
    destruct (loop_body _ _ _ _ _) as [σ results]. by intros [= <-].
Qed.

Lemma run_reach cmd cb schedule : ∀ d d',
  run cmd cb schedule d = Some d' → rtc pool_step (d_state d) (d_state d').
Proof.
  induction schedule as [|ev rest IH]; intros d d'; simpl.
  - by intros [= <-].
  - destruct (step cmd cb ev d) as [d1|] eqn:Hstep; simpl; [|done].
    intros Hrun. etrans; [by eapply step_reach | by apply IH].
Qed.

(** A call of [execute_parallel] is a stretch of the life of the pool: what
    holds of every pool reached from a new one holds during and after it. *)
Lemma execute_parallel_reach self labels cmd cb schedule σ σ' self' out :
  execute_parallel self labels cmd cb schedule σ = Some (σ', self', out) →
  rtc pool_step σ σ'.
Proof.
  unfold execute_parallel.
  destruct (max_concurrent self <=? 0); [by intros [= <- _ _]|].
  destruct (run cmd cb schedule _) as [d|] eqn:Hd; simpl; [|done].
  destruct (forallb is_yielded (d_futures d)); [|done].
  intros [= <- _ _]. by apply run_reach in Hd.
Qed.

(** *** The whole call *)

Lemma run_app cmd cb s1 : ∀ s2 d,
  run cmd cb (s1 ++ s2) d = d' ← run cmd cb s1 d; run cmd cb s2 d'.
Proof.
  induction s1 as [|ev s1 IH]; intros s2 d; simpl; [done|].
  destruct (step cmd cb ev d) as [d1|]; simpl; [apply IH | done].
Qed.

(** Every step brings one future closer to being yielded. *)
Lemma step_decreases cmd cb ev d d' :
  step cmd cb ev d = Some d' →
  (sum_list_with steps_left (d_futures d')
   < sum_list_with steps_left (d_futures d))%nat.
Proof.
  destruct ev as [i|i]; simpl;
    destruct (d_futures d !! i) as [t|] eqn:Hi; simpl; try done.
  - destruct (worker_step _ _ _ _) as [[σ f]|] eqn:Hw; simpl; [|done].
    intros [= <-]. simpl.
    pose proof (sum_fmap_insert steps_left (d_futures d) i t
                  (set_future f t) Hi) as Hsum.
    assert (steps_left (set_future f t) < steps_left t)%nat; [|lia].
    unfold steps_left at 2.
    destruct (future t) as [|start_time ssh|r|r]; unfold worker_step in Hw;
      try done.
    + destruct (get_connection _ _) as [σ1 [ssh|e]].
      * injection Hw as _ <-. unfold steps_left; simpl; lia.
      * destruct (command_failed _ _ _ _ _). injection Hw as _ <-.
        unfold steps_left; simpl; lia.
    + destruct (try_except _ _ _). injection Hw as _ <-.
      unfold steps_left; simpl; lia.
  - destruct (future t) as [| |r|] eqn:Hf; try done.
    destruct (loop_body _ _ _ _ _) as [σ rs]. intros [= <-]. simpl.
    pose proof (sum_fmap_insert steps_left (d_futures d) i t
                  (set_future (Yielded r) t) Hi) as Hsum.
    assert (steps_left (set_future (Yielded r) t) < steps_left t)%nat; [|lia].
    unfold steps_left. rewrite Hf. simpl. lia.
Qed.

(** A future that has not been yielded can take a step. *)
Lemma step_enabled cmd cb d i t :
  d_futures d !! i = Some t → is_yielded t = false →
  ∃ ev d', step cmd cb ev d = Some d'.
Proof.
  intros Hi Hny. unfold is_yielded in Hny.
  destruct (future t) as [|start_time ssh|r|r] eqn:Hf; [| | |done].
  - exists (Work i). simpl. rewrite Hi. simpl. rewrite Hf.
    unfold worker_step. destruct (get_connection _ _) as [σ1 [ssh|e]].
    + by eexists.
    + destruct (command_failed _ _ _ _ _). by eexists.
  - exists (Work i). simpl. rewrite Hi. simpl. rewrite Hf.
    unfold worker_step. destruct (try_except _ _ _). by eexists.
  - exists (Yield i). simpl. rewrite Hi. simpl. rewrite Hf.
    destruct (loop_body _ _ _ _ _). by eexists.
Qed.

(** No schedule has more steps than the futures have ahead of them. *)
Lemma run_length cmd cb schedule : ∀ d d',
  run cmd cb schedule d = Some d' →
  (length schedule + sum_list_with steps_left (d_futures d')
   ≤ sum_list_with steps_left (d_futures d))%nat.
Proof.
  induction schedule as [|ev rest IH]; intros d d'; simpl.
  - intros [= <-]. lia.
  - destruct (step cmd cb ev d) as [d1|] eqn:Hstep; simpl; [|done].
    intros Hrun. apply IH in Hrun. apply step_decreases in Hstep. lia.
Qed.

(** From any state of the futures the threads can be scheduled so that
    every future is yielded. *)
Lemma run_completes cmd cb n : ∀ d,
  (sum_list_with steps_left (d_futures d) ≤ n)%nat →
  ∃ rest d', run cmd cb rest d = Some d' ∧
             forallb is_yielded (d_futures d') = true.
Proof.
  induction n as [|n IH]; intros d Hn;
    (destruct (forallb is_yielded (d_futures d)) eqn:Hall;
     [by exists [], d|]);
    apply forallb_false_lookup in Hall as (i & t & Hi & Hny);
    destruct (step_enabled cmd cb d i t Hi Hny) as (ev & d1 & Hstep);
    pose proof (step_decreases _ _ _ _ _ Hstep) as Hlt.
  - lia.
  - destruct (IH d1) as (rest & d' & Hrun & Hall'); [lia|].
    exists (ev :: rest), d'. simpl. rewrite Hstep. by simpl.
Qed.

Lemma submit_steps_left self labels :
  sum_list_with steps_left (submit self labels)
  = (3 * length (known_labels self labels))%nat.
Proof.
  rewrite <- submit_labels, length_fmap.
  induction (submit_queued self labels) as [|t ts [_ Hf] _ IH]; [done|].
  simpl. unfold steps_left at 1. rewrite Hf. lia.
Qed.

Lemma all_yielded_appended cmd (fs : list Task) :
  Forall (λ t, future_inv (target t) cmd (future t)) fs →
  forallb is_yielded fs = true →
  concat (appended <$> fs) = label <$> fs.
Proof.
  induction 1 as [|t ts Ht _ IH]; [done|].
  intros Hall. simpl in Hall. apply andb_prop in Hall as [Hy Hall].
  rewrite !fmap_cons, concat_cons, (IH Hall).
  unfold is_yielded in Hy. unfold appended.
  destruct (future t) as [| | |r]; try done.
  by destruct Ht as (res & o & -> & _).
Qed.

(** A call with a positive [max_concurrent] that returns, returns normally
    a list with one result for each occurrence of a known label, in some
    order, each built by [execute_command] for that label's host; the
    results are also appended to [self.results]. *)
Lemma execute_parallel_spec self labels cmd cb schedule σ σ' self' out :
  0 < max_concurrent self →
  execute_parallel self labels cmd cb schedule σ = Some (σ', self', out) →
  ∃ rs ls,
    out = Ok rs ∧
    ls ≡ₚ known_labels self labels ∧
    Forall2 (λ l r, ∃ h o, hosts self !! l = Some h ∧ task_ran h cmd o r) ls rs ∧
    results self' = results self ++ rs ∧
    hosts self' = hosts self.
Proof.
  intros Hpos Hrun. unfold execute_parallel in Hrun.
  destruct (max_concurrent self <=? 0) eqn:Hle; [lia|].
  destruct (run cmd cb schedule _) as [d|] eqn:Hd; simpl in Hrun; [|done].
  destruct (forallb is_yielded (d_futures d)) eqn:Hall; [|done].
  injection Hrun as <- <- <-.
  destruct (run_inv self labels _ _ _ _ _ Hd (dispatch_inv_init _ _ _ _))
    as [Hlab _ Hfut (ls & Hperm & Hres)].
  exists (d_results d), ls. repeat split; try done.
  by rewrite Hperm, (all_yielded_appended cmd), Hlab.
Qed.

Lemma filter_known_count self (labels : list string) l :
  is_Some (hosts self !! l) →
  length (filter (λ x, x = l) (known_labels self labels)) =
  length (filter (λ x, x = l) labels).
Proof.
  intros Hl. unfold known_labels.
  induction labels as [|x rest IH]; [done|].
  destruct (decide (x = l)) as [->|Hne].
  - rewrite (filter_cons_True (λ l, is_Some (hosts self !! l))) by done.
    rewrite !(filter_cons_True (λ x, x = l)) by done. simpl. by rewrite IH.
  - rewrite (filter_cons_False (λ x, x = l) x rest) by done.
    destruct (decide (is_Some (hosts self !! x))).
    + rewrite (filter_cons_True (λ l, is_Some (hosts self !! l))) by done.
      by rewrite (filter_cons_False (λ x, x = l)) by done.
    + by rewrite (filter_cons_False (λ l, is_Some (hosts self !! l))) by done.
Qed.

(** With a positive [max_concurrent] the call returns: the threads can be
    scheduled on from wherever they are until every future is yielded, and
    no schedule takes more than three steps for each future. *)
Lemma execute_parallel_returns self labels cmd cb σ schedule d :
  0 < max_concurrent self →
  run cmd cb schedule
    {| d_state := σ; d_futures := submit self labels; d_results := [] |}
    = Some d →
  (length schedule ≤ 3 * length (known_labels self labels))%nat
  ∧ ∃ rest, is_Some (execute_parallel self labels cmd cb (schedule ++ rest) σ).
Proof.
  intros Hpos Hd. split.
  - apply run_length in Hd. simpl in Hd. rewrite submit_steps_left in Hd. lia.
  - destruct (run_completes cmd cb _ d (le_n _)) as (rest & d' & Hrest & Hall).
    exists rest. unfold execute_parallel.
    destruct (max_concurrent self <=? 0) eqn:Hle; [lia|].
    rewrite run_app, Hd. simpl. rewrite Hrest. simpl. by rewrite Hall.
Qed.

(** ** The claims on the dispatcher *)

(** C1. With a positive [max_concurrent], a call of [execute_parallel]
    returns, however its threads are scheduled, and it returns without
    raising; its list holds, in some order, one result for every occurrence
    of a label of the inventory, whatever became of the others; the result
    of a host whose acquisition or command execution raised has success
    false and the text of the exception as error. *)
Theorem execute_parallel_isolates_failures self labels cmd cb σ :
  0 < max_concurrent self →
  (∀ schedule d,
     run cmd cb schedule
       {| d_state := σ; d_futures := submit self labels; d_results := [] |}
       = Some d →
     ∃ rest,
       is_Some (execute_parallel self labels cmd cb (schedule ++ rest) σ))
  ∧ (∀ schedule σ' self' out,
       execute_parallel self labels cmd cb schedule σ = Some (σ', self', out) →
       ∃ rs ls,
         out = Ok rs ∧
         ls ≡ₚ known_labels self labels ∧
         Forall2 (λ l r, ∃ h o,
                    hosts self !! l = Some h ∧ task_ran h cmd o r ∧
                    host r = hostname h ∧
                    ∀ e, o = Raise e →
                         success r = false ∧ error r = Some (str e))
                 ls rs).
Proof.
  intros Hpos. split.
  - intros schedule d Hd.
    by destruct (execute_parallel_returns _ _ _ _ _ _ _ Hpos Hd).
  - intros schedule σ' self' out Hrun.
    destruct (execute_parallel_spec _ _ _ _ _ _ _ _ _ Hpos Hrun)
      as (rs & ls & -> & Hperm & Hres & _).
    exists rs, ls. split; [done|]. split; [done|].
    eapply Forall2_impl; [exact Hres|].
    intros l r (h & o & Hl & Hran). exists h, o.
    pose proof (task_ran_fields _ _ _ _ Hran) as (Hh & _ & Ho).
    do 3 (split; [done|]). intros e' ->. by destruct Ho as (_ & _ & _ & ? & ?).
Qed.

(** C5. With a positive [max_concurrent], a call returns, however its
    threads are scheduled and within three steps for each future, and it
    returns without raising: its list has as many results as the list of
    labels has occurrences of inventory labels, one for each, carrying that
    host's name and the command; a label that is not in the inventory has
    no result. *)
Theorem execute_parallel_one_result_per_known_label self labels cmd cb σ :
  0 < max_concurrent self →
  (∀ schedule d,
     run cmd cb schedule
       {| d_state := σ; d_futures := submit self labels; d_results := [] |}
       = Some d →
     (length schedule ≤ 3 * length (known_labels self labels))%nat ∧
     ∃ rest,
       is_Some (execute_parallel self labels cmd cb (schedule ++ rest) σ))
  ∧ (∀ schedule σ' self' out,
       execute_parallel self labels cmd cb schedule σ = Some (σ', self', out) →
       ∃ rs ls,
         out = Ok rs ∧
         length rs = length (known_labels self labels) ∧
         ls ≡ₚ known_labels self labels ∧
         Forall2 (λ l r, ∃ h, hosts self !! l = Some h ∧
                              host r = hostname h ∧ command r = cmd) ls rs ∧
         ∀ l, hosts self !! l = None → l ∉ ls).
Proof.
  intros Hpos. split.
  - intros schedule d Hd. by apply (execute_parallel_returns _ _ _ _ _ _ d).
  - intros schedule σ' self' out Hrun.
    destruct (execute_parallel_spec _ _ _ _ _ _ _ _ _ Hpos Hrun)
      as (rs & ls & -> & Hperm & Hres & _).
    exists rs, ls. split; [done|]. split; [|split; [done|split]].
    + rewrite <- (Forall2_length _ _ _ Hres). by rewrite Hperm.
    + eapply Forall2_impl; [exact Hres|].
      intros l r (h & o & Hl & Hran). exists h.
      by pose proof (task_ran_fields _ _ _ _ Hran) as (? & ? & _).
    + intros l Hnone Hin. rewrite Hperm in Hin.
      apply list_elem_of_filter in Hin as [[h Hh] _]. congruence.
Qed.

(** *** How often the command is executed *)

Lemma executions_app cs cs' :
  executions (cs ++ cs') = (executions cs + executions cs')%nat.
Proof. unfold executions. by rewrite filter_app, length_app. Qed.

Lemma executions_other c cs :
  is_exec c = false → executions (c :: cs) = executions cs.
Proof.
  intros Hc. unfold executions. by rewrite filter_cons_False by (by rewrite Hc).
Qed.

Lemma not_exec_command c cmd :
  is_exec c = false → ∀ s c', c = CExecCommand s c' → c' = cmd.
Proof. by intros Hc s c' ->. Qed.

(** The work on a session calls [exec_command] once, for the command, and
    before anything else. *)
Lemma channel_work_executes ssh cmd σ :
  ∃ more,
    calls (fst (channel_work ssh cmd σ)) = calls σ ++ CExecCommand ssh cmd :: more
    ∧ executions more = 0%nat.
Proof.
  unfold channel_work, bind, call, lift, ret.
  destruct (exec_command ssh cmd (world σ)) as [w1 [ch|e]]; simpl;
    [|by exists []].
  destruct (stdout_read ch w1) as [w2 [out|e]]; simpl;
    [|exists [CStdoutRead ch]; by rewrite <- app_assoc].
  destruct (decode out) as [stdout_data|e]; simpl;
    [|exists [CStdoutRead ch]; by rewrite <- app_assoc].
  destruct (stderr_read ch w2) as [w3 [err|e]]; simpl;
    [|exists [CStdoutRead ch; CStderrRead ch]; by rewrite <- !app_assoc].
  destruct (decode err) as [stderr_data|e]; simpl;
    [|exists [CStdoutRead ch; CStderrRead ch]; by rewrite <- !app_assoc].
  destruct (recv_exit_status ch w3) as [w4 [code|e]]; simpl;
    exists [CStdoutRead ch; CStderrRead ch; CRecvExitStatus ch];
    by rewrite <- !app_assoc.
Qed.

(** A step of a worker: an [exec_command] call stands for a call of
    [execute_command] that ends, and a call that ends with the result of a
    command that ran has made one. *)
Lemma worker_step_executes h cmd f σ σ' f' :
  worker_step h cmd f σ = Some (σ', f') →
  yielded_ran f' = yielded_ran f
  ∧ ∃ more,
      calls σ' = calls σ ++ more
      ∧ Forall (λ c, ∀ s c', c = CExecCommand s c' → c' = cmd) more
      ∧ (executions more + finished f ≤ finished f')%nat
      ∧ (finished_ran f' ≤ finished_ran f + executions more)%nat.
Proof.
  destruct f as [|start_time ssh|r|r]; unfold worker_step; try done.
  - destruct (get_connection h σ) as [σ1 [ssh|e]] eqn:Hget.
    + intros [= <- <-]. split; [done|].
      apply get_connection_cases in Hget
        as [(conn & _ & _ & -> & _)|(_ & _ & _ & -> & _)].
      * exists []. rewrite app_nil_r. by repeat split.
      * eexists. split; [done|]. split.
        -- constructor; [by apply not_exec_command|constructor].
        -- rewrite executions_other by done. simpl. lia.
    + unfold command_failed. intros [= <- <-]. split; [done|]. simpl.
      apply get_connection_cases in Hget
        as [(conn & _ & _ & _ & [=])|(_ & _ & _ & -> & _)].
      eexists. split; [done|]. split.
      * constructor; [by apply not_exec_command|constructor].
      * rewrite executions_other by done. unfold ran. simpl. lia.
  - unfold try_except, bind.
    destruct (channel_work_executes ssh cmd σ) as (more & Hcalls & Hnone).
    assert (Forall (λ c, ∀ s c', c = CExecCommand s c' → c' = cmd)
              (CExecCommand ssh cmd :: more)) as Hcmd.
    { constructor; [by intros ? ? [= _ ->]|].
      unfold executions in Hnone. apply length_zero_iff_nil in Hnone.
      apply Forall_forall. intros c Hc s c' ->.
      assert (CExecCommand s c' ∈ filter (λ c, is_exec c = true) more) as Hin
        by (by apply list_elem_of_filter).
      rewrite Hnone in Hin. by apply elem_of_nil in Hin. }
    assert (executions (CExecCommand ssh cmd :: more) = 1%nat) as Hone.
    { unfold executions in *. rewrite filter_cons_True by done. simpl.
      by rewrite Hnone. }
    destruct (channel_work ssh cmd σ) as [σ1 [[[out err] code]|e]];
      simpl in Hcalls; unfold command_ran, command_failed;
      intros [= <- <-]; (split; [done|]); simpl;
      exists (CExecCommand ssh cmd :: more); (split; [done|]);
      (split; [done|]); rewrite Hone; unfold ran; simpl; lia.
Qed.

Lemma step_executes cmd cb ev d d' :
  step cmd cb ev d = Some d' →
  (length (filter (λ r, error r = None) (d_results d'))
   + sum_list_with (λ t, yielded_ran (future t)) (d_futures d)
   = length (filter (λ r, error r = None) (d_results d))
     + sum_list_with (λ t, yielded_ran (future t)) (d_futures d'))%nat
  ∧ ∃ more,
      calls (d_state d') = calls (d_state d) ++ more
      ∧ Forall (λ c, ∀ s c', c = CExecCommand s c' → c' = cmd) more
      ∧ (executions more + sum_list_with (λ t, finished (future t)) (d_futures d)
         ≤ sum_list_with (λ t, finished (future t)) (d_futures d'))%nat
      ∧ (sum_list_with (λ t, finished_ran (future t)) (d_futures d')
         ≤ sum_list_with (λ t, finished_ran (future t)) (d_futures d)
           + executions more)%nat.
Proof.
  destruct ev as [i|i]; simpl;
    destruct (d_futures d !! i) as [t|] eqn:Hi; simpl; try done.
  - destruct (worker_step _ _ _ _) as [[σ f]|] eqn:Hw; simpl; [|done].
    intros [= <-]. simpl.
    destruct (worker_step_executes _ _ _ _ _ _ Hw)
      as (Hy & more & Hcalls & Hcmd & Hup & Hlow).
    pose proof (sum_fmap_insert (λ t, yielded_ran (future t)) (d_futures d) i t
                  (set_future f t) Hi) as Hs1.
    pose proof (sum_fmap_insert (λ t, finished (future t)) (d_futures d) i t
                  (set_future f t) Hi) as Hs2.
    pose proof (sum_fmap_insert (λ t, finished_ran (future t)) (d_futures d) i t
                  (set_future f t) Hi) as Hs3.
    simpl in *. split; [lia|]. exists more. repeat split; [done|done|lia|lia].
  - destruct (future t) as [| |r|] eqn:Hf; try done.
    pose proof (sum_fmap_insert (λ t, yielded_ran (future t)) (d_futures d) i t
                  (set_future (Yielded r) t) Hi) as Hs1.
    pose proof (sum_fmap_insert (λ t, finished (future t)) (d_futures d) i t
                  (set_future (Yielded r) t) Hi) as Hs2.
    pose proof (sum_fmap_insert (λ t, finished_ran (future t)) (d_futures d) i t
                  (set_future (Yielded r) t) Hi) as Hs3.
    simpl in *. rewrite Hf in Hs1, Hs2, Hs3. simpl in *.
    assert (∃ more, calls (fst (loop_body cb (label t) r (d_results d)
                                  (d_state d)))
                    = calls (d_state d) ++ more
                    ∧ Forall (λ c, c = CCallback) more) as (more & Hcalls & Hcb).
    { unfold loop_body. destruct r as [result|e]; [destruct cb as [g|]|]; simpl;
        [|exists []; by rewrite app_nil_r..].
      unfold call. destruct (g result (world (d_state d))) as [w [[]|e]]; simpl;
        exists [CCallback]; by repeat constructor. }
    assert (length (filter (λ r, error r = None)
                      (snd (loop_body cb (label t) r (d_results d) (d_state d))))
            = (length (filter (λ r, error r = None) (d_results d))
               + yielded_ran (Yielded r))%nat) as Hres.
    { unfold loop_body. destruct r as [result|e]; simpl; [|lia].
      assert (length (filter (λ r, error r = None) (d_results d ++ [result]))
              = (length (filter (λ r, error r = None) (d_results d))
                 + ran result)%nat) as Hlen.
      { rewrite filter_app, length_app. f_equal. unfold ran.
        destruct (error result) eqn:He.
        - by rewrite filter_cons_False by (by rewrite He).
        - by rewrite filter_cons_True by done. }
      destruct cb as [g|]; [|done]. unfold call.
      by destruct (g result (world (d_state d))) as [w [[]|e]]. }
    assert (executions more = 0%nat) as Hnone.
    { unfold executions. clear -Hcb. induction Hcb as [|c cs -> _ IH]; [done|].
      by rewrite filter_cons_False. }
    destruct (loop_body _ _ _ _ _) as [σ results]. intros [= <-].
    simpl in *. split; [lia|]. exists more. split; [done|]. split.
    + eapply Forall_impl; [exact Hcb|]. by intros c -> s c'.
    + lia.
Qed.

Lemma run_executes cmd cb schedule : ∀ d d',
  run cmd cb schedule d = Some d' →
  (length (filter (λ r, error r = None) (d_results d'))
   + sum_list_with (λ t, yielded_ran (future t)) (d_futures d)
   = length (filter (λ r, error r = None) (d_results d))
     + sum_list_with (λ t, yielded_ran (future t)) (d_futures d'))%nat
  ∧ ∃ more,
      calls (d_state d') = calls (d_state d) ++ more
      ∧ Forall (λ c, ∀ s c', c = CExecCommand s c' → c' = cmd) more
      ∧ (executions more + sum_list_with (λ t, finished (future t)) (d_futures d)
         ≤ sum_list_with (λ t, finished (future t)) (d_futures d'))%nat
      ∧ (sum_list_with (λ t, finished_ran (future t)) (d_futures d')
         ≤ sum_list_with (λ t, finished_ran (future t)) (d_futures d)
           + executions more)%nat.
Proof.
  induction schedule as [|ev rest IH]; intros d d'; simpl.
  - intros [= <-]. split; [lia|]. exists []. rewrite app_nil_r.
    repeat split; [done|simpl; lia|simpl; lia].
  - destruct (step cmd cb ev d) as [d1|] eqn:Hstep; simpl; [|done].
    intros Hrun.
    destruct (step_executes _ _ _ _ _ Hstep)
      as (Hy & more & Hc & Hcmd & Hup & Hlow).
    destruct (IH _ _ Hrun) as (Hy' & more' & Hc' & Hcmd' & Hup' & Hlow').
    split; [lia|]. exists (more ++ more').
    rewrite Hc', Hc, app_assoc, executions_app.
    repeat split; [by apply Forall_app|lia|lia].
Qed.

(** When the call returns, every result without error has had its
    [exec_command] call, and there are no more such calls than results. *)
Lemma execute_parallel_executes self labels cmd cb schedule σ σ' self' rs :
  execute_parallel self labels cmd cb schedule σ = Some (σ', self', Ok rs) →
  ∃ more,
    calls σ' = calls σ ++ more
    ∧ Forall (λ c, ∀ s c', c = CExecCommand s c' → c' = cmd) more
    ∧ (length (filter (λ r, error r = None) rs) ≤ executions more)%nat
    ∧ (executions more ≤ length (known_labels self labels))%nat.
Proof.
  unfold execute_parallel.
  destruct (max_concurrent self <=? 0); [done|].
  destruct (run cmd cb schedule _) as [d|] eqn:Hd; simpl; [|done].
  destruct (forallb is_yielded (d_futures d)) eqn:Hall; [|done].
  intros [= <- _ <-].
  destruct (run_executes _ _ _ _ _ Hd) as (Hy & more & Hc & Hcmd & Hup & Hlow).
  simpl in *. exists more. split; [done|]. split; [done|].
  assert (∀ l : list Task,
            Forall (λ t, future t = Queued) l →
            sum_list_with (λ t, yielded_ran (future t)) l = 0%nat
            ∧ sum_list_with (λ t, finished (future t)) l = 0%nat
            ∧ sum_list_with (λ t, finished_ran (future t)) l = 0%nat) as Hzero.
  { induction 1 as [|t l Ht _ IH]; [done|]. simpl. rewrite Ht. simpl.
    destruct IH as (-> & -> & ->). done. }
  destruct (Hzero (submit self labels)) as (Hz1 & Hz2 & Hz3).
  { unfold submit. apply Forall_forall. intros t Ht.
    apply list_elem_of_omap in Ht as (l & _ & Hl).
    destruct (hosts self !! l); [|done]. by injection Hl as <-. }
  rewrite Hz1 in Hy. rewrite Hz2 in Hup. rewrite Hz3 in Hlow.
  assert (sum_list_with (λ t, finished_ran (future t)) (d_futures d)
          = sum_list_with (λ t, yielded_ran (future t)) (d_futures d)
          ∧ sum_list_with (λ t, finished (future t)) (d_futures d)
            = length (d_futures d)) as [Heq Hlen].
  { clear -Hall. induction (d_futures d) as [|t l IH]; [done|].
    simpl in Hall. apply andb_true_iff in Hall as [Ht Hl].
    destruct (IH Hl) as [IH1 IH2]. simpl. rewrite IH1, IH2.
    unfold is_yielded in Ht. by destruct (future t). }
  pose proof (run_inv self labels _ _ _ _ _ Hd (dispatch_inv_init _ _ _ _))
    as [Hlab _ _ _].
  assert (length (d_futures d) = length (known_labels self labels)) as Hk
    by (by rewrite <- Hlab, length_fmap).
  split; lia.
Qed.

(** C10. With a positive [max_concurrent], a call returns, however its
    threads are scheduled, and the list it returns has, for a label of the
    inventory, as many results as the list of labels has occurrences of
    it, each built by a run of [execute_command] of its own.  The command
    is executed once for each occurrence: the [exec_command] calls of the
    call are all for this command, there is one for every result of a
    command that ran (a result without error), and there are no more of
    them than results (an occurrence whose acquisition raised has none). *)
Theorem execute_parallel_keeps_duplicates self labels cmd cb σ :
  0 < max_concurrent self →
  (∀ schedule d,
     run cmd cb schedule
       {| d_state := σ; d_futures := submit self labels; d_results := [] |}
       = Some d →
     ∃ rest,
       is_Some (execute_parallel self labels cmd cb (schedule ++ rest) σ))
  ∧ (∀ schedule σ' self' out,
       execute_parallel self labels cmd cb schedule σ = Some (σ', self', out) →
       ∃ rs ls more,
         out = Ok rs ∧
         Forall2 (λ l r, ∃ h o, hosts self !! l = Some h ∧ task_ran h cmd o r)
                 ls rs ∧
         (∀ l, is_Some (hosts self !! l) →
               length (filter (λ x, x = l) ls)
               = length (filter (λ x, x = l) labels)) ∧
         calls σ' = calls σ ++ more ∧
         Forall (λ c, ∀ s c', c = CExecCommand s c' → c' = cmd) more ∧
         (length (filter (λ r, error r = None) rs) ≤ executions more)%nat ∧
         (executions more ≤ length rs)%nat).
Proof.
  intros Hpos. split.
  - intros schedule d Hd.
    by destruct (execute_parallel_returns _ _ _ _ _ _ _ Hpos Hd).
  - intros schedule σ' self' out Hrun.
    destruct (execute_parallel_spec _ _ _ _ _ _ _ _ _ Hpos Hrun)
      as (rs & ls & -> & Hperm & Hres & _).
    destruct (execute_parallel_executes _ _ _ _ _ _ _ _ _ Hrun)
      as (more & Hcalls & Hcmd & Hlow & Hup).
    exists rs, ls, more. split; [done|]. split; [done|]. split.
    { intros l Hl. rewrite Hperm. by apply filter_known_count. }
    do 3 (split; [done|]).
    by rewrite <- (Forall2_length _ _ _ Hres), Hperm.
Qed.

End Dispatcher.

(** ** The dispatcher on the scripted transport *)

Lemma execute_parallel_isolates_failures_witness :
  ∃ rs, snd <$> one_down = Some (Ok rs) ∧ length rs = 2%nat.
Proof.
  assert (bool_decide (is_Some one_down) = true) as Hsome by reflexivity.
  remember one_down as o eqn:Hrun.
  destruct o as [[[σ' self'] out]|]; [|discriminate Hsome].
  symmetry in Hrun. unfold one_down in Hrun.
  destruct (proj2 (@execute_parallel_isolates_failures scripted fleet
                     ["server1"; "server2"] "uname -a" None
                     (cut_off (hostname server1) (@fresh scripted 5 quiet))
                     eq_refl)
              _ σ' self' out Hrun) as (rs & ls & -> & Hperm & Hres).
  exists rs. split; [reflexivity|].
  rewrite <- (Forall2_length _ _ _ Hres), Hperm. reflexivity.
Defined.

Lemma execute_parallel_one_result_per_known_label_witness :
  ∃ rest, is_Some (@execute_parallel scripted fleet
                     ["server1"; "ghost"; "server2"; "server1"] "uname -a"
                     None ([Work 0; Work 1] ++ rest) (@fresh scripted 5 quiet)).
Proof.
  exact (proj2 (proj1 (@execute_parallel_one_result_per_known_label scripted
                         fleet ["server1"; "ghost"; "server2"; "server1"]
                         "uname -a" None (@fresh scripted 5 quiet) eq_refl)
                  [Work 0; Work 1] _ eq_refl)).
Defined.

Lemma execute_parallel_keeps_duplicates_witness :
  ∃ σ' rs ls more,
    fst <$> (fst <$> twice) = Some σ' ∧
    snd <$> twice = Some (Ok rs) ∧
    Forall2 (λ l r, ∃ h o, hosts fleet !! l = Some h ∧
                           task_ran h "uname -a" o r) ls rs ∧
    length (filter (λ x, x = "server1") ls) = 2%nat ∧
    calls σ' = [] ++ more ∧
    (length (filter (λ r, error r = None) rs) ≤ executions more)%nat ∧
    (executions more ≤ length rs)%nat.
Proof.
  assert (bool_decide (is_Some twice) = true) as Hsome by reflexivity.
  remember twice as o eqn:Hrun.
  destruct o as [[[σ' self'] out]|]; [|discriminate Hsome].
  symmetry in Hrun. unfold twice in Hrun.
  destruct (proj2 (@execute_parallel_keeps_duplicates scripted fleet
                     ["server1"; "ghost"; "server2"; "server1"] "uname -a"
                     None (@fresh scripted 5 quiet) eq_refl)
              _ σ' self' out Hrun)
    as (rs & ls & more & -> & Hres & Hcount & Hcalls & _ & Hlow & Hup).
  exists σ', rs, ls, more. split; [reflexivity|]. split; [reflexivity|].
  split; [exact Hres|].
  split; [exact (Hcount "server1" (ex_intro _ server1 eq_refl))|].
  split; [exact Hcalls|]. split; [exact Hlow|exact Hup].
Defined.

(** In that run every command ran: three results, three [exec_command]
    calls. *)
Example twice_executes_three_times :
  (λ out, executions (calls out.1.1)) <$> twice = Some 3%nat
  ∧ (λ out, match out.2 with
            | Ok rs => length (filter (λ r, error r = None) rs)
            | Raise _ => 0%nat
            end) <$> twice = Some 3%nat.
Proof. split; reflexivity. Qed.

(** ** The tunnel worker *)

Section Tunnel.
Context `{T : Transport}.

(** Rounds that passed without an exception are a prefix of every longer
    observation. *)
Lemma accept_loop_prefix ssh ls rh rp k : ∀ σ σ1 m,
  accept_loop k ssh ls rh rp σ = (σ1, Ok tt) →
  accept_loop (k + m) ssh ls rh rp σ = accept_loop m ssh ls rh rp σ1.
Proof.
  induction k as [|k IH]; intros σ σ1 m Hk; simpl in *.
  - unfold ret in Hk. by injection Hk as <-.
  - unfold bind in *.
    destruct (call (CAccept ls) (accept ls) σ) as [σa [[client addr]|e]];
      [|done].
    destruct (call (COpenChannel ssh (rh, rp) addr)
                   (open_channel ssh (rh, rp) addr) σa) as [σb [ch|e]]; [|done].
    destruct (start_relay client ch σb) as [σc [[]|e]]; [|done].
    by apply IH.
Qed.

(** The loop only adds calls. *)
Lemma accept_loop_calls ssh ls rh rp n : ∀ σ,
  ∃ more, calls (fst (accept_loop n ssh ls rh rp σ)) = calls σ ++ more.
Proof.
  induction n as [|n IH]; intros σ; simpl.
  - exists []. by rewrite app_nil_r.
  - unfold bind, call, start_relay.
    destruct (accept ls (world σ)) as [wa [[client addr]|e]]; simpl;
      [|by eexists].
    destruct (open_channel _ _ _ _) as [wb [ch|e]]; simpl.
    + match goal with |- context [accept_loop n ssh ls rh rp ?s] =>
        destruct (IH s) as [more ->] end.
      simpl. eexists. by rewrite <- !app_assoc.
    + eexists. by rewrite <- !app_assoc.
Qed.

Lemma steady_accept_loop ssh ls rh rp n : steady (accept_loop n ssh ls rh rp).
Proof.
  induction n as [|n IH]; simpl; [apply steady_ret|].
  apply steady_bind; [by apply steady_call|]. intros [client addr].
  apply steady_bind; [by apply steady_call|]. intros ch.
  apply steady_bind; [|by intros _].
  apply (steady_call (CStartRelay client ch) (λ w, (w, Ok tt)) eq_refl).
Qed.

(** The worker of a tunnel, too, is a stretch of the life of the pool. *)
Lemma tunnel_worker_reach h lp rh rp n σ :
  rtc pool_step σ (fst (tunnel_worker h lp rh rp n σ)).
Proof.
  unfold tunnel_worker, tunnel_setup.
  pose proof (step_connect_outside (tunnel_connect_args h) σ) as Hconn.
  destruct (new_client σ) as [σ1 ssh] eqn:Hnew.
  unfold new_client in Hnew. injection Hnew as <- <-. simpl in Hconn.
  unfold bind at 1 2.
  destruct (call (CConnect _ _) _ _) as [σ2 [[]|e]]; simpl in Hconn.
  - assert (steady
      (local_socket <- call (CBindListen lp) (bind_listen lp) ;;
       _ <- (λ σ, (logger INFO
                     ("Túnel SSH activo: localhost:" +:+ pretty lp +:+ " -> "
                      +:+ rh +:+ ":" +:+ pretty rp) σ, Ok ())) ;;
       ret local_socket)) as Hrest.
    { apply steady_bind; [by apply steady_call|]. intros s.
      apply steady_bind; [|intros _; apply steady_ret].
      apply (steady_logged INFO (λ _, _) (λ _, Ok ())). }
    specialize (Hrest σ2).
    destruct ((local_socket <- call (CBindListen lp) (bind_listen lp) ;; _) σ2)
      as [σ3 [s|e]]; simpl in Hrest.
    + pose proof (steady_accept_loop (clients σ) s rh rp n σ3) as Hloop.
      destruct (accept_loop _ _ _ _ _ _) as [σ4 [[]|e]]; simpl in *.
      * etrans; [by apply rtc_once|]. by etrans.
      * etrans; [by apply rtc_once|]. etrans; [exact Hrest|].
        etrans; [exact Hloop|]. etrans; [apply rtc_once, step_log|].
        by apply rtc_once, step_call.
    + etrans; [by apply rtc_once|]. etrans; [exact Hrest|].
      etrans; [apply rtc_once, step_log|]. by apply rtc_once, step_call.
  - etrans; [by apply rtc_once|].
    etrans; [apply rtc_once, step_log|]. by apply rtc_once, step_call.
Qed.

(** The round in which [open_channel] raises ends the loop, however many
    rounds are observed. *)
Lemma accept_loop_channel_error ssh ls rh rp m σ w2 client addr w3 e :
  accept ls (world σ) = (w2, Ok (client, addr)) →
  open_channel ssh (rh, rp) addr w2 = (w3, Raise e) →
  accept_loop (S m) ssh ls rh rp σ =
  ({| pool := pool σ; world := w3; clients := clients σ; log := log σ;
      calls := calls σ ++ [CAccept ls; COpenChannel ssh (rh, rp) addr] |},
   Raise e).
Proof.
  intros Ha Ho. simpl. unfold bind, call. rewrite Ha. simpl. rewrite Ho.
  by rewrite <- app_assoc.
Qed.

Lemma tunnel_worker_listening h lp rh rp k σ σ1 :
  tunnel_worker h lp rh rp k σ = (σ1, Listening) →
  ∃ σ0 ls,
    tunnel_setup h (clients σ) lp rh rp (fst (new_client σ)) = (σ0, Ok ls) ∧
    accept_loop k (clients σ) ls rh rp σ0 = (σ1, Ok tt).
Proof.
  unfold tunnel_worker, new_client, bind. simpl.
  destruct (tunnel_setup h (clients σ) lp rh rp _) as [σ0 [ls|e]]; [|done].
  destruct (accept_loop k (clients σ) ls rh rp σ0) as [σ2 [[]|e]] eqn:Hloop;
    [|done].
  intros [= <-]. by exists σ0, ls.
Qed.

(** C6 (amended). Once the worker of a binding listens on its socket, an
    error while establishing the remote channel for an accepted connection
    is logged and ends the worker: however long it is observed, after that
    accept and that failed [open_channel] it makes one more call, closing
    the SSH client of the binding; it makes no call on the accepted socket
    and accepts no further connection. *)
Theorem tunnel_channel_error_stops_worker
    h lp rh rp k σ σ0 σ1 local_socket w2 client addr w3 e n :
  tunnel_setup h (clients σ) lp rh rp (fst (new_client σ))
    = (σ0, Ok local_socket) →
  tunnel_worker h lp rh rp k σ = (σ1, Listening) →
  accept local_socket (world σ1) = (w2, Ok (client, addr)) →
  open_channel (clients σ) (rh, rp) addr w2 = (w3, Raise e) →
  (k < n)%nat →
  ∃ σ2,
    tunnel_worker h lp rh rp n σ = (σ2, Stopped) ∧
    calls σ2 = calls σ1 ++ [CAccept local_socket;
                            COpenChannel (clients σ) (rh, rp) addr;
                            CClose (clients σ)] ∧
    log σ2 = log σ1 ++ [(ERROR, "Error en túnel SSH: " +:+ str e)].
Proof.
  intros Hset Hk Ha Ho Hlt.
  destruct (tunnel_worker_listening _ _ _ _ _ _ _ Hk)
    as (σ0' & ls & Hset' & Hloop).
  rewrite Hset in Hset'. injection Hset' as <- <-.
  replace n with (k + S (n - k - 1))%nat by lia.
  unfold tunnel_worker, bind. destruct (new_client σ) as [σn ssh] eqn:Hnew.
  unfold new_client in Hnew. injection Hnew as <- <-.
  unfold new_client in Hset. simpl in Hset. rewrite Hset.
  rewrite (accept_loop_prefix _ _ _ _ _ _ _ _ Hloop).
  rewrite (accept_loop_channel_error _ _ _ _ _ _ _ _ _ _ _ Ha Ho).
  unfold call, logger. simpl.
  destruct (close (clients σ) w3) as [w4 r]. simpl.
  eexists. split; [reflexivity|]. simpl. split; [|done].
  by rewrite <- app_assoc.
Qed.

(** C8. The pool passes the host's timeout to [connect]; the tunnel worker
    calls [connect] first of all, and without a timeout. *)
Theorem connect_timeout_missing_in_tunnel h lp rh rp rounds σ :
  c_timeout (pool_connect_args h) = Some (timeout h)
  ∧ c_timeout (tunnel_connect_args h) = None
  ∧ ∃ more,
      calls (fst (tunnel_worker h lp rh rp rounds σ)) =
      calls σ ++ CConnect (clients σ) (tunnel_connect_args h) :: more.
Proof.
  split; [unfold pool_connect_args; by destruct (truthy _)|]. split; [done|].
  unfold tunnel_worker, new_client, bind, tunnel_setup, bind, call. simpl.
  destruct (connect _ _ _) as [w [[]|e]]; simpl.
  - destruct (bind_listen _ _) as [w' [s|e]]; simpl.
    + match goal with |- context [accept_loop rounds ?c s rh rp ?s0] =>
        destruct (accept_loop_calls c s rh rp rounds s0) as [more Hmore];
        destruct (accept_loop rounds c s rh rp s0) as [σ2 [[]|e]]
      end; simpl in *.
      * eexists. rewrite Hmore. by rewrite <- !app_assoc.
      * destruct (close _ _) as [w'' r]. simpl.
        eexists. rewrite Hmore. by rewrite <- !app_assoc.
    + destruct (close _ _) as [w'' r]. simpl.
      eexists. by rewrite <- !app_assoc.
  - destruct (close _ _) as [w'' r]. simpl. eexists. by rewrite <- !app_assoc.
Qed.

End Tunnel.

(** ** The tunnel worker on the scripted transport *)

Lemma tunnel_channel_error_stops_worker_witness :
  snd (@tunnel_worker scripted server1 9000 "127.0.0.1" 8080 4 second_refused)
  = Stopped.
Proof.
  destruct (@tunnel_channel_error_stops_worker scripted
              server1 9000 "127.0.0.1" 8080 1%nat second_refused
              (fst (@tunnel_setup scripted server1 0%nat 9000 "127.0.0.1" 8080
                      (fst (new_client second_refused))))
              (fst (@tunnel_worker scripted server1 9000 "127.0.0.1" 8080 1
                      second_refused))
              0%nat
              (fst (script_accept 0%nat
                      (world (fst (@tunnel_worker scripted server1 9000
                                     "127.0.0.1" 8080 1 second_refused)))))
              2%nat ("127.0.0.1", 50002)
              (tick (fst (script_accept 0%nat
                      (world (fst (@tunnel_worker scripted server1 9000
                                     "127.0.0.1" 8080 1 second_refused))))))
              (Exception "ChannelException(2, 'Connect failed')") 4%nat
              eq_refl eq_refl eq_refl eq_refl)
    as (σ2 & Hrun & _); [lia|].
  by rewrite Hrun.
Defined.

(** C6, as stated, fails: the channel for the second accepted connection
    cannot be opened; observed for five passes of its loop the worker has
    accepted two connections only and is stopped, and its last call closed
    the SSH client on which the first connection is relayed; no call was
    made on the second accepted socket. *)
Lemma tunnel_channel_error_ends_listener :
  snd (@tunnel_worker scripted server1 9000 "127.0.0.1" 8080 5 second_refused)
  = Stopped
  ∧ calls (fst (@tunnel_worker scripted server1 9000 "127.0.0.1" 8080 5
                  second_refused)) =
    [CConnect 0%nat (tunnel_connect_args server1);
     CBindListen 9000;
     CAccept 0%nat;
     COpenChannel 0%nat ("127.0.0.1", 8080) ("127.0.0.1", 50001);
     CStartRelay 1%nat 0%nat;
     CAccept 0%nat;
     COpenChannel 0%nat ("127.0.0.1", 8080) ("127.0.0.1", 50002);
     CClose 0%nat]
  ∧ log (fst (@tunnel_worker scripted server1 9000 "127.0.0.1" 8080 5
                second_refused)) =
    [(INFO, "Túnel SSH activo: localhost:9000 -> 127.0.0.1:8080");
     (ERROR, "Error en túnel SSH: ChannelException(2, 'Connect failed')")].
Proof. repeat split; reflexivity. Qed.

(** * Further properties *)

(** ** The life of pooled sessions *)

Section PoolLife.
Context `{T : Transport}.

(** *** The order of the pool's entries *)

Lemma elem_of_omap_filter {A B} (f : A → option B) (P : A → Prop)
    `{∀ x, Decision (P x)} (l : list A) y :
  y ∈ omap f (filter P l) → y ∈ omap f l.
Proof.
  rewrite !list_elem_of_omap. intros (x & Hx & Hy). exists x.
  split; [|done]. by apply list_elem_of_filter in Hx as [_ ?].
Qed.

Lemma sorted_omap_filter {A} (f : A → option nat) (P : A → Prop)
    `{∀ x, Decision (P x)} (l : list A) :
  StronglySorted Nat.lt (omap f l) → StronglySorted Nat.lt (omap f (filter P l)).
Proof.
  induction l as [|x l IH]; [done|]. intros Hs.
  assert (StronglySorted Nat.lt (omap f l)) as Hl.
  { simpl in Hs. destruct (f x); [by inversion Hs|done]. }
  destruct (decide (P x)) as [HP|HP];
    [rewrite filter_cons_True by done|rewrite filter_cons_False by done; auto].
  simpl in *. destruct (f x) as [y|]; [|auto].
  inversion Hs as [|? ? _ Hall]; subst. constructor; [auto|].
  apply Forall_forall. intros z Hz. apply elem_of_omap_filter in Hz.
  by apply (proj1 (Forall_forall _ _) Hall).
Qed.

Lemma omap_lookup_filter (m m' : gmap string SSHClient) key
    (l : list string) :
  (∀ k, k ≠ key → m' !! k = m !! k) →
  omap (λ k, m' !! k) (filter (λ k, k ≠ key) l)
  = omap (λ k, m !! k) (filter (λ k, k ≠ key) l).
Proof.
  intros Hsame. induction l as [|x l IH]; [done|].
  destruct (decide (x ≠ key)) as [Hx|Hx];
    [rewrite !filter_cons_True by done|by rewrite !filter_cons_False].
  simpl. rewrite (Hsame x Hx).
  destruct (m !! x); [f_equal; exact IH|exact IH].
Qed.

Lemma filter_all {A} (P : A → Prop) `{∀ x, Decision (P x)} (l : list A) :
  (∀ x, x ∈ l → P x) → filter P l = l.
Proof.
  induction l as [|x l IH]; [done|]. intros Hall.
  rewrite filter_cons_True by (apply Hall; by left).
  f_equal. apply IH. intros y Hy. apply Hall. by right.
Qed.

Lemma omap_fst_snd {K A} (f : K → option A) (l : list (K * A)) :
  Forall (λ kv, f kv.1 = Some kv.2) l → omap f (l.*1) = l.*2.
Proof.
  induction 1 as [|[k v] l Hkv _ IH]; [done|].
  rewrite !fmap_cons. simpl in *. rewrite Hkv. f_equal. exact IH.
Qed.

Lemma order_inv_fresh limit w : order_inv (fresh limit w).
Proof.
  split; simpl.
  - constructor.
  - intros k. rewrite lookup_empty. split; [by intros ?%elem_of_nil|].
    by intros [? ?].
  - constructor.
Qed.

(** The order after the removal of a key. *)
Lemma order_inv_del σ key (m : gmap string SSHClient) :
  order_inv σ →
  (∀ k, k ≠ key → m !! k = connections (pool σ) !! k) →
  NoDup (filter (λ k, k ≠ key) (key_order (pool σ)))
  ∧ (∀ k, k ∈ filter (λ k, k ≠ key) (key_order (pool σ))
          ↔ k ≠ key ∧ is_Some (connections (pool σ) !! k))
  ∧ StronglySorted Nat.lt
      (omap (λ k, m !! k) (filter (λ k, k ≠ key) (key_order (pool σ))))
  ∧ ∀ s, s ∈ omap (λ k, m !! k) (filter (λ k, k ≠ key) (key_order (pool σ))) →
         ∃ k, connections (pool σ) !! k = Some s.
Proof.
  intros [Hnd Hkeys Hsorted] Hsame.
  rewrite (omap_lookup_filter (connections (pool σ)) m) by done.
  split; [by apply NoDup_filter|]. split; [|split].
  - intros k. rewrite list_elem_of_filter, Hkeys. tauto.
  - apply sorted_omap_filter. exact Hsorted.
  - intros s Hs.
    rewrite (omap_lookup_filter (connections (pool σ)) m) in Hs by done.
    apply elem_of_omap_filter in Hs.
    apply list_elem_of_omap in Hs as (k & _ & Hk). by exists k.
Qed.

Lemma order_inv_step σ σ' :
  pool_step σ σ' → pool_inv σ → order_inv σ → order_inv σ'.
Proof.
  intros Hstep Hinv Hord.
  destruct Hstep as [h σ σ' r Hget|σ|σ w|A c f σ Hc|lvl msg σ|a σ].
  - pose proof (get_connection_key_order _ _ _ _ Hget) as Horder.
    apply get_connection_cases in Hget
      as [(conn & _ & _ & -> & _)|(Hdead & _ & _ & _ & Hres)]; [done|].
    assert (key_order (pool σ') =
            filter (λ k, k ≠ host_key h) (key_order (pool σ))
            ++ match r with Ok _ => [host_key h] | Raise _ => [] end)
      as Horder'.
    { rewrite Horder.
      destruct (connections (pool σ) !! host_key h) as [conn|] eqn:Hk.
      - rewrite (Hdead conn) by done. destruct r; [done|by rewrite app_nil_r].
      - assert (host_key h ∉ key_order (pool σ)) as Hnot.
        { rewrite (ord_keys _ Hord), Hk. by intros [? ?]. }
        assert (filter (λ k, k ≠ host_key h) (key_order (pool σ))
                = key_order (pool σ)) as ->.
        { apply filter_all. intros k Hin ->. done. }
        destruct r; [by rewrite bool_decide_eq_false_2|by rewrite app_nil_r]. }
    clear Horder.
    destruct (order_inv_del σ (host_key h) (connections (pool σ')) Hord)
      as (Hnd & Hkeys & Hsorted & Hold).
    { destruct Hres as [(_ & _ & _ & ->)|(e & _ & _ & _ & ->)]; intros k Hne.
      - by apply lookup_insert_ne.
      - by apply lookup_delete_ne. }
    destruct Hres as [(-> & _ & _ & Hc)|(e & -> & _ & _ & Hc)].
    + split.
      * rewrite Horder'. apply NoDup_app. split; [done|].
        split; [|apply NoDup_singleton].
        intros k Hin ->%list_elem_of_singleton. apply Hkeys in Hin as [? _].
        done.
      * intros k. rewrite Horder', elem_of_app, Hkeys, list_elem_of_singleton, Hc.
        destruct (decide (k = host_key h)) as [->|Hne].
        -- rewrite lookup_insert_eq. split; [by eexists|by right].
        -- rewrite lookup_insert_ne by done. split; [|by left].
           intros [[_ ?]|?]; done.
      * unfold pooled_clients. rewrite Horder', omap_app.
        apply StronglySorted_app_2; [|exact Hsorted|].
        2: { simpl. rewrite Hc, lookup_insert_eq. by repeat constructor. }
        intros s1 s2 Hs1 Hs2. simpl in Hs2.
        rewrite Hc, lookup_insert_eq in Hs2.
        apply list_elem_of_singleton in Hs2 as ->.
        destruct (Hold s1 Hs1) as [k Hk].
        destruct (inv_origin _ Hinv k s1 Hk) as (a & Ha & _).
        by apply (inv_fresh _ Hinv s1 a).
    + rewrite app_nil_r in Horder'. split.
      * by rewrite Horder'.
      * intros k. rewrite Horder', Hkeys, Hc.
        destruct (decide (k = host_key h)) as [->|Hne].
        -- rewrite lookup_delete_eq. split; [by intros [? _]|by intros [? ?]].
        -- rewrite lookup_delete_ne by done. tauto.
      * unfold pooled_clients. by rewrite Horder'.
  - unfold close_all. split; simpl; [constructor| |constructor].
    intros k. rewrite lookup_empty. split; [by intros ?%elem_of_nil|].
    by intros [? ?].
  - by destruct Hord.
  - destruct Hord. unfold call. by destruct (f (world σ)).
  - by destruct Hord.
  - destruct Hord. unfold call, new_client; simpl. by destruct (connect _ _ _).
Qed.

Lemma order_inv_rtc σ σ' :
  rtc pool_step σ σ' → pool_inv σ → order_inv σ → order_inv σ'.
Proof.
  induction 1 as [|σ σ1 σ2 Hstep _ IH]; [done|]. intros Hinv Hord.
  apply IH; [by apply (pool_inv_step σ)|by apply (order_inv_step σ)].
Qed.

Lemma order_inv_reachable limit w σ :
  rtc pool_step (fresh limit w) σ → order_inv σ.
Proof.
  intros Hreach.
  apply (order_inv_rtc _ _ Hreach); [apply pool_inv_fresh|apply order_inv_fresh].
Qed.

(** X1. [close_all] (lines 126-134), in a pool reached from a new one, calls
    [close] once on every client of the pool, the one pooled longest ago
    first (the order of the dict, which is the order in which the clients
    were created), whether or not a [close] raises; it leaves the pool
    empty and changes nothing else, and called again at once it makes no
    call. *)
Theorem close_all_closes_every_session limit w σ :
  rtc pool_step (fresh limit w) σ →
  calls (close_all σ) = calls σ ++ (CClose <$> pooled_clients σ)
  ∧ pooled_clients σ ≡ₚ (map_to_list (connections (pool σ))).*2
  ∧ StronglySorted Nat.lt (pooled_clients σ)
  ∧ (∀ k s, connections (pool σ) !! k = Some s → CClose s ∈ calls (close_all σ))
  ∧ connections (pool (close_all σ)) = ∅
  ∧ key_order (pool (close_all σ)) = []
  ∧ max_connections (pool (close_all σ)) = max_connections (pool σ)
  ∧ clients (close_all σ) = clients σ
  ∧ log (close_all σ) = log σ
  ∧ calls (close_all (close_all σ)) = calls (close_all σ).
Proof.
  intros [Hnd Hkeys Hsorted]%order_inv_reachable.
  assert (pooled_clients σ ≡ₚ (map_to_list (connections (pool σ))).*2)
    as Hperm.
  { unfold pooled_clients.
    rewrite <- (omap_fst_snd (λ k, connections (pool σ) !! k)
                  (map_to_list (connections (pool σ))))
      by (apply Forall_forall; intros [k s]; apply elem_of_map_to_list).
    apply omap_Permutation, NoDup_Permutation;
      [done|apply NoDup_fst_map_to_list|].
    intros k. rewrite Hkeys, list_elem_of_fmap. split.
    - intros [s Hs]. exists (k, s). by rewrite elem_of_map_to_list.
    - intros ([k' s] & -> & Hs%elem_of_map_to_list). by exists s. }
  unfold close_all.
  destruct (close_each_spec (pooled_clients σ) σ)
    as (Hcalls & Hcl & Hpool & Hlog).
  simpl. rewrite Hcalls, Hcl, Hpool, Hlog.
  do 3 (split; [done|]). split; [|by repeat split].
  intros k s Hk. apply elem_of_app. right.
  apply list_elem_of_fmap. exists s. split; [done|]. rewrite Hperm.
  apply list_elem_of_fmap. exists (k, s). split; [done|].
  by apply elem_of_map_to_list.
Qed.

Lemma close_all_pool_empty σ :
  connections (pool (close_all σ)) = ∅ ∧ clients (close_all σ) = clients σ.
Proof.
  unfold close_all.
  destruct (close_each_spec (pooled_clients σ) σ)
    as (_ & Hcl & _ & _). by simpl.
Qed.

(** X2. After [close_all], in a pool reached from a new one, [get_connection]
    never hands out a session again that was pooled before: whatever host
    is asked for, it creates a new client, one that sat under no key and
    that no [connect] call had named, connects it and pools it alone. *)
Theorem no_session_survives_close_all limit w σ h σ' s :
  rtc pool_step (fresh limit w) σ →
  get_connection h (close_all σ) = (σ', Ok s) →
  s = clients σ
  ∧ (∀ k, connections (pool σ) !! k ≠ Some s)
  ∧ (∀ a, CConnect s a ∉ calls (close_all σ))
  ∧ connections (pool σ') = {[ host_key h := s ]}.
Proof.
  intros Hreach Hget.
  assert (pool_inv σ) as Hinv
    by (apply (pool_inv_reachable _ _ Hreach), pool_inv_fresh).
  assert (pool_inv (close_all σ)) as Hinv'
    by (apply (pool_inv_step σ); [apply step_close_all | done]).
  destruct (close_all_pool_empty σ) as (Hempty & Hcl).
  remember (close_all σ) as σc eqn:Hσc. clear Hσc.
  apply get_connection_cases in Hget
    as [(conn & Hk & _)|(_ & _ & _ & _ & Hres)].
  { rewrite Hempty, lookup_empty in Hk. done. }
  destruct Hres as [(Hs & _ & _ & Hc)|(e & [=] & _)].
  injection Hs as Hs. rewrite Hcl in Hs. subst s.
  split; [done|]. split; [|split].
  - intros k Hk. destruct (pool_inv_entry _ _ _ Hinv Hk) as [Hlt _]. lia.
  - intros a Ha. pose proof (inv_fresh _ Hinv' _ _ Ha) as Hlt.
    rewrite Hcl in Hlt. lia.
  - by rewrite Hc, Hempty, Hcl, insert_empty.
Qed.

(** X3. In a pool reached from a new one, two keys never hold the same client,
    and every pooled client is an object created earlier that was connected
    for the key it sits under. *)
Theorem pooled_sessions_are_distinct limit w σ k1 k2 s1 s2 :
  rtc pool_step (fresh limit w) σ →
  connections (pool σ) !! k1 = Some s1 →
  connections (pool σ) !! k2 = Some s2 →
  k1 ≠ k2 →
  s1 ≠ s2
  ∧ (s1 < clients σ)%nat
  ∧ ∃ a, CConnect s1 a ∈ calls σ ∧ args_key a = k1.
Proof.
  intros Hreach H1 H2 Hne.
  assert (pool_inv σ) as Hinv
    by (apply (pool_inv_reachable _ _ Hreach), pool_inv_fresh).
  destruct (pool_inv_entry _ _ _ Hinv H1) as [Hlt Huniq].
  split; [|split; [done|by apply (inv_origin _ Hinv)]].
  intros ->. apply Hne. symmetry. by apply Huniq.
Qed.

(** X4. One call of [get_connection] makes at most one [connect] call, for the
    endpoint of the host and with its timeout: it does not retry, and when a
    key file is configured it does not pass the password, so a refused key
    is not followed by a password attempt. *)
Theorem get_connection_single_attempt h σ :
  ∃ more,
    calls (fst (get_connection h σ)) = calls σ ++ more
    ∧ (length more ≤ 1)%nat
    ∧ Forall (λ c, ∃ s a,
                c = CConnect s a ∧ args_key a = host_key h ∧
                c_timeout a = Some (timeout h) ∧
                (truthy (key_filename h) = true →
                 c_password a = None ∧ c_key_filename a = key_filename h) ∧
                (truthy (key_filename h) = false →
                 c_key_filename a = None ∧ c_password a = password h))
             more.
Proof.
  destruct (get_connection h σ) as [σ' r] eqn:Hget.
  apply get_connection_cases in Hget
    as [(conn & _ & _ & -> & _)|(_ & _ & _ & Hcalls & _)]; simpl.
  - exists []. rewrite app_nil_r. repeat split; [simpl; lia | constructor].
  - exists [CConnect (clients σ) (pool_connect_args h)].
    split; [done|]. split; [simpl; lia|].
    constructor; [|constructor].
    exists (clients σ), (pool_connect_args h).
    split; [done|]. split; [apply args_key_pool|].
    unfold pool_connect_args.
    destruct (truthy (key_filename h)); simpl; repeat split; done.
Qed.

End PoolLife.

(** ** What the executor adds to the state *)

Section Frames.
Context `{T : Transport}.

Lemma adds_ret {A} P (a : A) : adds P (ret a).
Proof. intros σ. exists []. by rewrite app_nil_r. Qed.

Lemma adds_lift {A} P (r : Result A) : adds P (lift r).
Proof. intros σ. exists []. by rewrite app_nil_r. Qed.

Lemma adds_call {A} (P : Call → Prop) c (f : World → World * Result A) :
  P c → adds P (call c f).
Proof.
  intros Hc σ. exists [c]. unfold call. destruct (f (world σ)); simpl.
  split; [done|]. by constructor.
Qed.

Lemma adds_logged {A} P lvl (msg : State → string) (r : State → Result A) :
  adds P (λ σ, (logger lvl (msg σ) σ, r σ)).
Proof. intros σ. exists []. by rewrite app_nil_r. Qed.

Lemma adds_bind {A B} P (m : M A) (k : A → M B) :
  adds P m → (∀ a, adds P (k a)) → adds P (bind m k).
Proof.
  intros Hm Hk σ. unfold bind. destruct (Hm σ) as (more & Hc & HP).
  destruct (m σ) as [σ1 [a|e]]; simpl in *; [|by exists more].
  destruct (Hk a σ1) as (more' & Hc' & HP').
  exists (more ++ more'). rewrite Hc', Hc, app_assoc. split; [done|].
  by apply Forall_app.
Qed.

Lemma adds_try_except {A} P (body : M A) (handler : exn → M A) :
  adds P body → (∀ e, adds P (handler e)) → adds P (try_except body handler).
Proof.
  intros Hb Hh σ. unfold try_except. destruct (Hb σ) as (more & Hc & HP).
  destruct (body σ) as [σ1 [a|e]]; simpl in *; [by exists more|].
  destruct (Hh e σ1) as (more' & Hc' & HP').
  exists (more ++ more'). rewrite Hc', Hc, app_assoc. split; [done|].
  by apply Forall_app.
Qed.

Lemma adds_get_connection (P : Call → Prop) h :
  (∀ s, P (CConnect s (pool_connect_args h))) → adds P (get_connection h).
Proof.
  intros HP σ. destruct (get_connection h σ) as [σ' r] eqn:Hget.
  apply get_connection_cases in Hget
    as [(conn & _ & _ & -> & _)|(_ & _ & _ & Hcalls & _)]; simpl.
  - exists []. by rewrite app_nil_r.
  - eexists. split; [exact Hcalls|]. constructor; [apply HP | constructor].
Qed.

Lemma adds_channel_work (P : Call → Prop) ssh cmd :
  (∀ c, is_connect c = false → is_close c = false → is_callback c = false →
        P c) →
  adds P (channel_work ssh cmd).
Proof.
  intros HP. unfold channel_work.
  repeat (apply adds_bind; [|intros ?]);
    auto using adds_call, adds_lift, adds_ret.
Qed.

Lemma adds_command_ran P h cmd start_time data :
  adds P (command_ran h cmd start_time data).
Proof.
  destruct data as [[out err] code]. unfold command_ran.
  apply (adds_logged P INFO (λ _, _) (λ σ, Ok _)).
Qed.

Lemma adds_command_failed P h cmd start_time e :
  adds P (command_failed h cmd start_time e).
Proof.
  unfold command_failed. apply (adds_logged P ERROR (λ _, _) (λ σ, Ok _)).
Qed.

Lemma adds_execute_command (P : Call → Prop) h cmd :
  (∀ c, is_close c = false → is_callback c = false → P c) →
  adds P (execute_command h cmd).
Proof.
  intros HP σ. unfold execute_command. apply adds_try_except.
  - apply adds_bind; [apply adds_get_connection; intros; by apply HP|].
    intros ssh. apply adds_bind; [apply adds_channel_work; auto|]. intros data.
    apply adds_command_ran.
  - intros e. apply adds_command_failed.
Qed.

Lemma spares_ret {A} (a : A) : spares_pool (ret a).
Proof. by intros σ. Qed.

Lemma spares_lift {A} (r : Result A) : spares_pool (lift r).
Proof. by intros σ. Qed.

Lemma spares_call {A} c (f : World → World * Result A) : spares_pool (call c f).
Proof. intros σ. unfold call. by destruct (f (world σ)). Qed.

Lemma spares_logged {A} lvl (msg : State → string) (r : State → Result A) :
  spares_pool (λ σ, (logger lvl (msg σ) σ, r σ)).
Proof. by intros σ. Qed.

Lemma spares_bind {A B} (m : M A) (k : A → M B) :
  spares_pool m → (∀ a, spares_pool (k a)) → spares_pool (bind m k).
Proof.
  intros Hm Hk σ. unfold bind. destruct (Hm σ) as [Hp Hc].
  destruct (m σ) as [σ1 [a|e]]; simpl in *; [|done].
  destruct (Hk a σ1) as [-> ->]. done.
Qed.

Lemma spares_try_except {A} (body : M A) (handler : exn → M A) :
  spares_pool body → (∀ e, spares_pool (handler e)) →
  spares_pool (try_except body handler).
Proof.
  intros Hb Hh σ. unfold try_except. destruct (Hb σ) as [Hp Hc].
  destruct (body σ) as [σ1 [a|e]]; simpl in *; [done|].
  destruct (Hh e σ1) as [-> ->]. done.
Qed.

Lemma spares_channel_work ssh cmd : spares_pool (channel_work ssh cmd).
Proof.
  unfold channel_work.
  repeat (apply spares_bind; [|intros ?]);
    auto using spares_call, spares_lift, spares_ret.
Qed.

Lemma spares_command_ran h cmd start_time data :
  spares_pool (command_ran h cmd start_time data).
Proof. destruct data as [[out err] code]. by intros σ. Qed.

Lemma spares_command_failed h cmd start_time e :
  spares_pool (command_failed h cmd start_time e).
Proof. by intros σ. Qed.

Lemma spares_after_acquire {A B} (acq : M A) (k : A → M B)
    (handler : exn → M B) σ :
  (∀ a, spares_pool (k a)) → (∀ e, spares_pool (handler e)) →
  pool (fst (try_except (bind acq k) handler σ)) = pool (fst (acq σ))
  ∧ clients (fst (try_except (bind acq k) handler σ)) = clients (fst (acq σ)).
Proof.
  intros Hk Hh. unfold try_except, bind.
  destruct (acq σ) as [σ1 [a|e]]; simpl.
  - destruct (Hk a σ1) as [Hp Hc].
    destruct (k a σ1) as [σ2 [b|e]]; simpl in *; [done|].
    by destruct (Hh e σ2) as [-> ->].
  - by destruct (Hh e σ1) as [-> ->].
Qed.

(** X5. [execute_command] borrows its session: none of the calls it makes
    closes a client, whatever happens to the command. *)
Theorem execute_command_closes_nothing h cmd σ :
  ∃ more,
    calls (fst (execute_command h cmd σ)) = calls σ ++ more
    ∧ Forall (λ c, ∀ s, c ≠ CClose s) more.
Proof.
  apply (adds_execute_command (λ c, ∀ s, c ≠ CClose s)).
  intros c Hc _ s ->. discriminate.
Qed.

(** The entry of the host after an acquisition. *)
Lemma acquired_session_pooled h σ :
  match snd (get_connection h σ) with
  | Ok ssh =>
      connections (pool (fst (get_connection h σ))) !! host_key h = Some ssh
  | Raise _ =>
      connections (pool (fst (get_connection h σ))) !! host_key h = None
  end.
Proof.
  destruct (get_connection h σ) as [σ1 r] eqn:Hget. simpl.
  apply get_connection_cases in Hget
    as [(conn & Hk & _ & -> & ->)|(_ & _ & _ & _ & Hres)]; [done|].
  destruct Hres as [(-> & _ & _ & ->)|(e & -> & _ & _ & ->)].
  - apply lookup_insert_eq.
  - apply lookup_delete_eq.
Qed.

(** After its acquisition [execute_command] leaves the pool and the number
    of clients alone. *)
Lemma execute_command_frame h cmd σ :
  pool (fst (execute_command h cmd σ)) = pool (fst (get_connection h σ))
  ∧ clients (fst (execute_command h cmd σ)) = clients (fst (get_connection h σ)).
Proof.
  destruct (spares_after_acquire (get_connection h)
              (λ ssh, data <- channel_work ssh cmd ;;
                      command_ran h cmd (time (world σ)) data)
              (command_failed h cmd (time (world σ))) σ) as [Hp Hc].
  { intros ssh. apply spares_bind; [apply spares_channel_work|].
    intros data. apply spares_command_ran. }
  { intros e. apply spares_command_failed. }
  done.
Qed.

(** X6. [execute_command] touches the pool through its acquisition only:
    when the acquisition returned a session, that session is the pool's
    entry for the host afterwards, whether the command ran or the work on
    the channel raised; when the acquisition raised, the host has no entry. *)
Theorem execute_command_pool h cmd σ :
  pool (fst (execute_command h cmd σ)) = pool (fst (get_connection h σ))
  ∧ clients (fst (execute_command h cmd σ)) = clients (fst (get_connection h σ))
  ∧ match snd (get_connection h σ) with
    | Ok ssh =>
        connections (pool (fst (execute_command h cmd σ))) !! host_key h
        = Some ssh
    | Raise _ =>
        connections (pool (fst (execute_command h cmd σ))) !! host_key h
        = None
    end.
Proof.
  destruct (execute_command_frame h cmd σ) as [Hp Hc].
  split; [done|]. split; [done|]. rewrite Hp.
  apply acquired_session_pooled.
Qed.

(** X7. With a live session pooled for the host, [execute_command] makes no
    [connect] call and creates no client: its first call runs the command
    on the pooled session, and the pool stays as it was. *)
Theorem execute_command_reuses_live_session h cmd σ ssh :
  connections (pool σ) !! host_key h = Some ssh →
  is_active ssh (world σ) = true →
  (∃ more,
     calls (fst (execute_command h cmd σ))
     = calls σ ++ CExecCommand ssh cmd :: more
     ∧ Forall (λ c, is_connect c = false) more)
  ∧ clients (fst (execute_command h cmd σ)) = clients σ
  ∧ pool (fst (execute_command h cmd σ)) = pool σ.
Proof.
  intros Hk Ha.
  pose proof (execute_command_frame h cmd σ) as (Hp & Hc).
  rewrite (get_connection_hit _ _ _ Hk Ha) in Hp, Hc. simpl in *.
  split; [|done].
  unfold execute_command, try_except, bind.
  rewrite (get_connection_hit _ _ _ Hk Ha). unfold channel_work at 1.
  unfold bind at 1. unfold call at 1.
  destruct (exec_command ssh cmd (world σ)) as [w1 [ch|e]]; simpl.
  - match goal with
    | |- context [match ?m ?s with _ => _ end] =>
        assert (adds (λ c, is_connect c = false) m) as Hadds;
        [|destruct (Hadds s) as (more & Hcalls & HP);
          destruct (m s) as [σ2 [data|e]]; simpl in *]
    end.
    + repeat (apply adds_bind; [|intros ?]);
        auto using adds_call, adds_lift, adds_ret.
    + destruct data as [[out err] code]. simpl.
      exists more. split; [|done]. by rewrite Hcalls, <- app_assoc.
    + exists more. split; [|done]. by rewrite Hcalls, <- app_assoc.
  - exists []. by split.
Qed.

(** X8. When the standard output of a command that ran cannot be decoded, the
    result is that of a failure, exit code -1 and the codec's message as
    error, although the remote command was started: the standard error is
    not read and the exit status is not asked for. *)
Theorem decode_failure_hides_exit_status h cmd σ σ1 ssh w2 ch w3 out e :
  get_connection h σ = (σ1, Ok ssh) →
  exec_command ssh cmd (world σ1) = (w2, Ok ch) →
  stdout_read ch w2 = (w3, Ok out) →
  decode out = Raise e →
  ∃ σ' r,
    execute_command h cmd σ = (σ', Ok r)
    ∧ exit_code r = -1 ∧ success r = false
    ∧ stdout r = "" ∧ stderr r = ""
    ∧ error r = Some (str e)
    ∧ calls σ' = calls σ1 ++ [CExecCommand ssh cmd; CStdoutRead ch]
    ∧ world σ' = w3.
Proof.
  intros Hget Hexec Hread Hdec.
  unfold execute_command, try_except, bind, channel_work, bind, call, lift.
  rewrite Hget, Hexec. simpl. rewrite Hread. simpl. rewrite Hdec. simpl.
  eexists _, _. split; [reflexivity|]. simpl.
  repeat split; try done. by rewrite <- app_assoc.
Qed.

End Frames.

Lemma both_pooled_reachable :
  rtc (@pool_step scripted) (@fresh scripted 5 quiet) both_pooled.
Proof.
  eapply rtc_l; [apply (step_acquire server1 _ pooled (Ok 0%nat)); reflexivity|].
  apply rtc_once.
  apply (step_acquire server2 pooled _ (snd (@get_connection scripted server2 pooled))).
  reflexivity.
Qed.

Lemma close_all_closes_every_session_witness :
  calls (close_all both_pooled)
  = calls both_pooled ++ [CClose 0%nat; CClose 1%nat].
Proof.
  exact (proj1 (@close_all_closes_every_session scripted 5 quiet both_pooled
                  both_pooled_reachable)).
Defined.

Lemma no_session_survives_close_all_witness :
  snd (@get_connection scripted server1 (close_all both_pooled)) = Ok 2%nat
  ∧ connections (pool (fst (@get_connection scripted server1
                              (close_all both_pooled))))
    = {[ host_key server1 := 2%nat ]}.
Proof.
  remember (@get_connection scripted server1 (close_all both_pooled)) as p
    eqn:Hp.
  assert (snd p = Ok 2%nat) as Hr by (rewrite Hp; reflexivity).
  destruct p as [σ' r]. simpl in Hr. subst r. symmetry in Hp.
  destruct (@no_session_survives_close_all scripted 5 quiet both_pooled server1
              σ' 2%nat both_pooled_reachable Hp) as (_ & _ & _ & H).
  split; [reflexivity | exact H].
Defined.

Lemma pooled_sessions_are_distinct_witness : 0%nat ≠ 1%nat.
Proof.
  refine (proj1 (@pooled_sessions_are_distinct scripted 5 quiet both_pooled
                   (host_key server1) (host_key server2) 0%nat 1%nat
                   both_pooled_reachable eq_refl eq_refl _)).
  vm_compute. discriminate.
Defined.

Lemma execute_command_reuses_live_session_witness :
  clients (fst (@execute_command scripted server1 "uname -a" pooled)) = 1%nat.
Proof.
  exact (proj1 (proj2 (@execute_command_reuses_live_session scripted server1
                         "uname -a" pooled 0%nat eq_refl eq_refl))).
Defined.

Lemma decode_failure_hides_exit_status_witness :
  ∃ r, snd (@execute_command garbled server1 "uname -a" (@fresh garbled 5 quiet))
       = Ok r ∧ exit_code r = -1
       ∧ error r = Some "'utf-8' codec can't decode byte".
Proof.
  destruct (@decode_failure_hides_exit_status garbled server1 "uname -a"
              (@fresh garbled 5 quiet)
              (fst (@get_connection garbled server1 (@fresh garbled 5 quiet)))
              0%nat
              (fst (script_exec_command 0%nat "uname -a"
                      (tick quiet)))
              0%nat
              (tick (fst (script_exec_command 0%nat "uname -a" (tick quiet))))
              [Byte.xff]
              (Exception "'utf-8' codec can't decode byte")
              eq_refl eq_refl eq_refl eq_refl)
    as (σ' & r & Hrun & Hcode & _ & _ & _ & Herr & _).
  exists r. rewrite Hrun. by repeat split.
Defined.

(** ** More on the dispatcher *)

Section DispatcherResources.
Context `{T : Transport}.

Lemma callbacks_app cs cs' : callbacks (cs ++ cs') = (callbacks cs + callbacks cs')%nat.
Proof. unfold callbacks. by rewrite filter_app, length_app. Qed.

Lemma callbacks_none cs :
  Forall (λ c, is_callback c = false) cs → callbacks cs = 0%nat.
Proof.
  unfold callbacks. induction 1 as [|c cs Hc _ IH]; [done|].
  rewrite filter_cons_False by (by rewrite Hc). exact IH.
Qed.

Lemma worker_step_adds (P : Call → Prop) h cmd f σ σ' f' :
  (∀ c, is_close c = false → is_callback c = false → P c) →
  worker_step h cmd f σ = Some (σ', f') →
  ∃ more, calls σ' = calls σ ++ more ∧ Forall P more.
Proof.
  intros HP. destruct f as [|start_time ssh|r|r]; unfold worker_step; try done.
  - destruct (adds_get_connection P h
                (λ s, HP (CConnect s (pool_connect_args h)) eq_refl eq_refl) σ)
      as (more & Hc & Hmore).
    destruct (get_connection h σ) as [σ1 [ssh|e]]; simpl in Hc.
    + intros [= <- _]. by exists more.
    + destruct (adds_command_failed P h cmd (time (world σ)) e σ1)
        as (more' & Hc' & Hmore').
      destruct (command_failed _ _ _ _ _) as [σ2 r]. intros [= <- _].
      simpl in Hc'. exists (more ++ more').
      rewrite Hc', Hc, app_assoc. split; [done | by apply Forall_app].
  - destruct (adds_try_except P _ _
      (adds_bind P _ _ (adds_channel_work P ssh cmd (λ c _, HP c))
         (adds_command_ran P h cmd start_time))
      (adds_command_failed P h cmd start_time) σ) as (more & Hc & Hmore).
    destruct (try_except _ _ _) as [σ1 r]. intros [= <- _]. by exists more.
Qed.

Lemma worker_step_clients h cmd f σ σ' f' t :
  worker_step h cmd f σ = Some (σ', f') →
  (clients σ' + waiting (set_future f' t)
   ≤ clients σ + waiting (set_future f t))%nat.
Proof.
  destruct f as [|start_time ssh|r|r]; unfold worker_step; try done.
  - destruct (get_connection h σ) as [σ1 [ssh|e]] eqn:Hget.
    + intros [= <- <-]. unfold waiting; simpl.
      apply get_connection_cases in Hget
        as [(conn & _ & _ & -> & _)|(_ & -> & _)]; lia.
    + destruct (spares_command_failed h cmd (time (world σ)) e σ1) as [_ Hc].
      destruct (command_failed _ _ _ _ _) as [σ2 r].
      intros [= <- <-]. unfold waiting; simpl in *. rewrite Hc.
      apply get_connection_cases in Hget
        as [(conn & _ & _ & -> & _)|(_ & -> & _)]; lia.
  - destruct (spares_try_except _ _
      (spares_bind _ _ (spares_channel_work ssh cmd)
         (spares_command_ran h cmd start_time))
      (spares_command_failed h cmd start_time) σ) as [_ Hc].
    destruct (try_except _ _ _) as [σ1 r]. intros [= <- <-].
    unfold waiting; simpl in *. lia.
Qed.

(** What the loop body does with a finished future: it appends the result
    if there is one, calls the callback if there is one and a result, and
    creates no client. *)
Lemma loop_body_effects cb l r results σ :
  let out := loop_body cb l r results σ in
  clients (fst out) = clients σ
  ∧ (∃ more, calls (fst out) = calls σ ++ more
             ∧ Forall (λ c, c = CCallback) more
             ∧ match cb with
               | Some _ => (length (snd out) = length results + length more)%nat
               | None => more = []
               end)
  ∧ (length results ≤ length (snd out))%nat.
Proof.
  unfold loop_body. destruct r as [result|e]; [destruct cb as [f|]|]; simpl.
  - unfold call. destruct (f result (world σ)) as [w [[]|e]]; simpl;
      (split; [done|]; split; [|rewrite length_app; simpl; lia]);
      exists [CCallback]; (split; [done|]);
      (split; [by constructor|]); rewrite length_app; simpl; lia.
  - split; [done|]. split; [|rewrite length_app; simpl; lia].
    exists []. by rewrite app_nil_r.
  - split; [done|]. split; [|lia]. exists []. rewrite app_nil_r.
    split; [done|]. split; [done|]. destruct cb; [simpl; lia | done].
Qed.

Lemma step_resources cmd cb ev d d' :
  step cmd cb ev d = Some d' →
  (clients (d_state d') + sum_list_with waiting (d_futures d')
   ≤ clients (d_state d) + sum_list_with waiting (d_futures d))%nat
  ∧ (∃ more, calls (d_state d') = calls (d_state d) ++ more
             ∧ Forall (λ c, ∀ s, c ≠ CClose s) more
             ∧ match cb with
               | Some _ =>
                   (callbacks more + length (d_results d)
                    = length (d_results d'))%nat
               | None => callbacks more = 0%nat
               end).
Proof.
  destruct ev as [i|i]; simpl;
    destruct (d_futures d !! i) as [t|] eqn:Hi; simpl; try done.
  - destruct (worker_step _ _ _ _) as [[σ f]|] eqn:Hw; simpl; [|done].
    intros [= <-]. simpl. split.
    + pose proof (sum_fmap_insert waiting (d_futures d) i t
                    (set_future f t) Hi) as Hsum.
      pose proof (worker_step_clients _ _ _ _ _ _ t Hw) as Hcl.
      assert (set_future (future t) t = t) as Ht by (by destruct t).
      rewrite Ht in Hcl. lia.
    + assert (∀ c, is_close c = false → is_callback c = false →
                   (∀ s, c ≠ CClose s) ∧ is_callback c = false) as HP.
      { intros c Hc Hcb. split; [|done]. intros s ->. discriminate. }
      destruct (worker_step_adds _ _ _ _ _ _ _ HP Hw) as (more & Hc & Hmore).
      exists more. split; [done|]. split.
      * eapply Forall_impl; [exact Hmore|]. by intros c [? _].
      * rewrite (callbacks_none more)
          by (eapply Forall_impl; [exact Hmore|]; by intros c [_ ?]).
        by destruct cb.
  - destruct (future t) as [| |r|] eqn:Hf; try done.
    pose proof (loop_body_effects cb (label t) r (d_results d) (d_state d))
      as (Hcl & (more & Hc & Hmore & Hlen) & _).
    destruct (loop_body _ _ _ _ _) as [σ results]. intros [= <-].
    simpl in *. split.
    + pose proof (sum_fmap_insert waiting (d_futures d) i t
                    (set_future (Yielded r) t) Hi) as Hsum.
      assert (waiting t = 0%nat) as Ht by (unfold waiting; by rewrite Hf).
      assert (waiting (set_future (Yielded r) t) = 0%nat) as Ht' by done.
      lia.
    + exists more. split; [done|]. split.
      * eapply Forall_impl; [exact Hmore|]. by intros c -> s.
      * assert (callbacks more = length more) as Hcb.
        { unfold callbacks. clear -Hmore.
          induction Hmore as [|c cs -> _ IH]; [done|].
          rewrite filter_cons_True by done. simpl. by rewrite IH. }
        destruct cb; [lia|]. by subst more.
Qed.

Lemma run_resources cmd cb schedule : ∀ d d',
  run cmd cb schedule d = Some d' →
  (clients (d_state d') + sum_list_with waiting (d_futures d')
   ≤ clients (d_state d) + sum_list_with waiting (d_futures d))%nat
  ∧ (∃ more, calls (d_state d') = calls (d_state d) ++ more
             ∧ Forall (λ c, ∀ s, c ≠ CClose s) more
             ∧ match cb with
               | Some _ =>
                   (callbacks more + length (d_results d)
                    = length (d_results d'))%nat
               | None => callbacks more = 0%nat
               end).
Proof.
  induction schedule as [|ev rest IH]; intros d d'; simpl.
  - intros [= <-]. split; [lia|]. exists []. rewrite app_nil_r.
    split; [done|]. split; [done|]. by destruct cb.
  - destruct (step cmd cb ev d) as [d1|] eqn:Hstep; simpl; [|done].
    intros Hrun.
    destruct (step_resources _ _ _ _ _ Hstep) as (Hcl & more & Hc & Hmore & Hcb).
    destruct (IH _ _ Hrun) as (Hcl' & more' & Hc' & Hmore' & Hcb').
    split; [lia|]. exists (more ++ more').
    rewrite Hc', Hc, app_assoc. split; [done|].
    split; [by apply Forall_app|].
    rewrite callbacks_app. destruct cb; lia.
Qed.

Lemma submit_waiting self labels :
  sum_list_with waiting (submit self labels)
  = length (known_labels self labels).
Proof.
  rewrite <- submit_labels, length_fmap.
  induction (submit_queued self labels) as [|t ts [_ Hf] _ IH]; [done|].
  simpl. unfold waiting at 1. rewrite Hf. lia.
Qed.

(** X9. A call of [execute_parallel] creates at most one SSH client for each
    occurrence of an inventory label in its list, and none of the calls it
    makes closes a client: the sessions it opens stay open and pooled. *)
Theorem execute_parallel_opens_at_most_one_client_per_label
    self labels cmd cb schedule σ σ' self' out :
  execute_parallel self labels cmd cb schedule σ = Some (σ', self', out) →
  (clients σ' ≤ clients σ + length (known_labels self labels))%nat
  ∧ ∃ more, calls σ' = calls σ ++ more ∧ Forall (λ c, ∀ s, c ≠ CClose s) more.
Proof.
  unfold execute_parallel.
  destruct (max_concurrent self <=? 0).
  { intros [= <- _ _]. split; [lia|]. exists []. by rewrite app_nil_r. }
  destruct (run cmd cb schedule _) as [d|] eqn:Hd; simpl; [|done].
  destruct (forallb is_yielded (d_futures d)); [|done].
  intros [= <- _ _].
  destruct (run_resources _ _ _ _ _ Hd) as (Hcl & more & Hc & Hmore & _).
  simpl in *. rewrite submit_waiting in Hcl. split; [lia|]. by exists more.
Qed.

(** X10. The progress callback is called once for each result of the returned
    list, neither more nor less, whether or not its calls raise; without a
    callback no such call is made. *)
Theorem callback_called_once_per_result
    self labels cmd cb schedule σ σ' self' rs :
  execute_parallel self labels cmd cb schedule σ = Some (σ', self', Ok rs) →
  callbacks (calls σ')
  = (callbacks (calls σ) + match cb with Some _ => length rs | None => 0 end)%nat.
Proof.
  unfold execute_parallel.
  destruct (max_concurrent self <=? 0); [done|].
  destruct (run cmd cb schedule _) as [d|] eqn:Hd; simpl; [|done].
  destruct (forallb is_yielded (d_futures d)); [|done].
  intros [= <- _ <-].
  destruct (run_resources _ _ _ _ _ Hd) as (_ & more & Hc & _ & Hcb).
  simpl in *. rewrite Hc, callbacks_app. destruct cb; lia.
Qed.

(** X11. With no label of the inventory in the list (an empty list, or unknown
    labels only) and a positive [max_concurrent], [execute_parallel] returns
    the empty list at once: no thread has a step to take, the state is as
    before and the ledger is unchanged. *)
Theorem execute_parallel_nothing_to_do self labels cmd cb σ :
  0 < max_concurrent self →
  known_labels self labels = [] →
  (∃ self',
     execute_parallel self labels cmd cb [] σ = Some (σ, self', Ok [])
     ∧ results self' = results self ∧ hosts self' = hosts self)
  ∧ ∀ ev schedule, execute_parallel self labels cmd cb (ev :: schedule) σ = None.
Proof.
  intros Hpos Hknown.
  assert (submit self labels = []) as Hsub.
  { apply (fmap_nil_inv label). by rewrite submit_labels. }
  unfold execute_parallel.
  destruct (max_concurrent self <=? 0) eqn:Hle; [lia|].
  rewrite Hsub. split.
  - simpl. eexists. split; [reflexivity|]. simpl. by rewrite app_nil_r.
  - intros ev schedule. simpl. by destruct ev.
Qed.

(** X12. A host given to [add_host] is the one [execute_parallel] contacts for
    that label, also when the label had another host before: a call for the
    label alone returns one result, built by [execute_command] for the new
    host and carrying its hostname, and appends it to the ledger. *)
Theorem add_host_then_execute_parallel
    self name h cmd cb schedule σ σ' self' out :
  0 < max_concurrent self →
  execute_parallel (add_host name h self) [name] cmd cb schedule σ
    = Some (σ', self', out) →
  ∃ r o,
    out = Ok [r] ∧ task_ran h cmd o r ∧
    host r = hostname h ∧ command r = cmd ∧
    results self' = results self ++ [r].
Proof.
  intros Hpos Hrun.
  destruct (execute_parallel_spec (add_host name h self) [name] cmd cb
              schedule σ σ' self' out Hpos Hrun)
    as (rs & ls & -> & Hperm & Hres & Hledger & _).
  assert (known_labels (add_host name h self) [name] = [name]) as Hknown.
  { unfold known_labels. rewrite filter_cons_True; [done|].
    simpl. rewrite lookup_insert_eq. by eexists. }
  rewrite Hknown in Hperm. apply Permutation_singleton_r in Hperm as ->.
  inversion Hres as [|l r ls rs' (h' & o & Hl & Hran) Hnil]; subst.
  inversion Hnil; subst.
  simpl in Hl. rewrite lookup_insert_eq in Hl. injection Hl as <-.
  exists r, o. destruct (task_ran_fields _ _ _ _ Hran) as (? & ? & _).
  by repeat split.
Qed.

End DispatcherResources.

Lemma execute_parallel_nothing_to_do_witness :
  snd <$> @execute_parallel scripted fleet ["ghost"; "phantom"] "uname -a"
            None [] (@fresh scripted 5 quiet) = Some (Ok []).
Proof.
  destruct (proj1 (@execute_parallel_nothing_to_do scripted fleet
                     ["ghost"; "phantom"] "uname -a" None
                     (@fresh scripted 5 quiet) eq_refl eq_refl))
    as (self' & Hrun & _).
  by rewrite Hrun.
Defined.

Lemma callback_called_once_per_result_witness :
  ∃ σ' rs, fst <$> (fst <$> with_raising_callback) = Some σ'
           ∧ snd <$> with_raising_callback = Some (Ok rs)
           ∧ callbacks (calls σ') = length rs.
Proof.
  assert (bool_decide (is_Some with_raising_callback) = true) as Hsome
    by reflexivity.
  assert (match with_raising_callback with
          | Some (_, _, Raise _) => false | _ => true end = true) as Hok
    by reflexivity.
  remember with_raising_callback as o eqn:Hrun.
  destruct o as [[[σ' self'] [rs|e]]|];
    [|discriminate Hok|discriminate Hsome].
  symmetry in Hrun. unfold with_raising_callback in Hrun.
  exists σ', rs. split; [reflexivity|]. split; [reflexivity|].
  exact (@callback_called_once_per_result scripted _ _ _ _ _ _ _ _ _ Hrun).
Defined.

Lemma execute_parallel_opens_at_most_one_client_per_label_witness :
  ∃ σ', fst <$> (fst <$> twice) = Some σ' ∧ (clients σ' ≤ 3)%nat.
Proof.
  assert (bool_decide (is_Some twice) = true) as Hsome by reflexivity.
  remember twice as o eqn:Hrun.
  destruct o as [[[σ' self'] out]|]; [|discriminate Hsome].
  symmetry in Hrun. unfold twice in Hrun.
  exists σ'. split; [reflexivity|].
  exact (proj1 (@execute_parallel_opens_at_most_one_client_per_label scripted
                  _ _ _ _ _ _ _ _ _ Hrun)).
Defined.

Lemma add_host_then_execute_parallel_witness :
  ∃ r, snd <$> relabelled = Some (Ok [r]) ∧ host r = "192.168.1.101".
Proof.
  assert (bool_decide (is_Some relabelled) = true) as Hsome by reflexivity.
  remember relabelled as o eqn:Hrun.
  destruct o as [[[σ' self'] out]|]; [|discriminate Hsome].
  symmetry in Hrun. unfold relabelled in Hrun.
  destruct (@add_host_then_execute_parallel scripted fleet "server1" server2
              "uname -a" None _ _ σ' self' out eq_refl Hrun)
    as (r & o & -> & _ & Hhost & _).
  exists r. by split.
Defined.

(** ** More on the tunnel worker *)

Section TunnelMore.
Context `{T : Transport}.

(** X13. When the worker's [connect] fails, the error is logged, the client is
    closed and the worker is over, however long it is observed: it never
    binds the local port and accepts no connection. *)
Theorem tunnel_connect_failure_never_listens h lp rh rp rounds σ w e :
  connect (clients σ) (tunnel_connect_args h) (world σ) = (w, Raise e) →
  snd (tunnel_worker h lp rh rp rounds σ) = Stopped
  ∧ calls (fst (tunnel_worker h lp rh rp rounds σ))
    = calls σ ++ [CConnect (clients σ) (tunnel_connect_args h);
                  CClose (clients σ)]
  ∧ log (fst (tunnel_worker h lp rh rp rounds σ))
    = log σ ++ [(ERROR, "Error en túnel SSH: " +:+ str e)]
  ∧ world (fst (tunnel_worker h lp rh rp rounds σ))
    = fst (close (clients σ) w).
Proof.
  intros Hconn.
  unfold tunnel_worker, new_client, tunnel_setup, bind, call. simpl.
  rewrite Hconn. simpl. destruct (close (clients σ) w) as [w' r]. simpl.
  by rewrite <- app_assoc.
Qed.

(** X14. When the local port cannot be bound (it is in use, say), the worker
    has connected to the host for nothing: the error is logged, the client
    is closed again and the worker is over without having accepted a
    connection. *)
Theorem tunnel_bind_failure_closes_client h lp rh rp rounds σ w w' e :
  connect (clients σ) (tunnel_connect_args h) (world σ) = (w, Ok tt) →
  bind_listen lp w = (w', Raise e) →
  snd (tunnel_worker h lp rh rp rounds σ) = Stopped
  ∧ calls (fst (tunnel_worker h lp rh rp rounds σ))
    = calls σ ++ [CConnect (clients σ) (tunnel_connect_args h);
                  CBindListen lp; CClose (clients σ)]
  ∧ log (fst (tunnel_worker h lp rh rp rounds σ))
    = log σ ++ [(ERROR, "Error en túnel SSH: " +:+ str e)].
Proof.
  intros Hconn Hbind.
  unfold tunnel_worker, new_client, tunnel_setup, bind, call. simpl.
  rewrite Hconn. simpl. rewrite Hbind. simpl.
  destruct (close (clients σ) w') as [w'' r]. simpl.
  by rewrite <- !app_assoc.
Qed.

Lemma accept_loop_frame ssh ls rh rp n : ∀ σ,
  pool (fst (accept_loop n ssh ls rh rp σ)) = pool σ
  ∧ clients (fst (accept_loop n ssh ls rh rp σ)) = clients σ
  ∧ ∃ more, calls (fst (accept_loop n ssh ls rh rp σ)) = calls σ ++ more
            ∧ Forall (λ c, ∀ s, client_of c = Some s → s = ssh) more.
Proof.
  induction n as [|n IH]; intros σ; simpl.
  - repeat split. exists []. by rewrite app_nil_r.
  - unfold bind, call, start_relay.
    destruct (accept ls (world σ)) as [wa [[client addr]|e]]; simpl.
    2:{ repeat split. exists [CAccept ls]. split; [done|].
        constructor; [|constructor]. by intros s [=]. }
    destruct (open_channel _ _ _ _) as [wb [ch|e]]; simpl.
    2:{ repeat split. eexists. rewrite <- app_assoc. split; [done|].
        repeat constructor; by intros s [=]. }
    match goal with |- context [accept_loop n ssh ls rh rp ?s] =>
      destruct (IH s) as (-> & -> & more & -> & Hmore) end.
    simpl. repeat split. eexists. rewrite <- !app_assoc. split; [done|].
    simpl. repeat (constructor; [by intros s [=]|]). done.
Qed.

(** X15. The worker of a tunnel never touches the pool: it creates one client
    of its own, whether or not the pool holds a live session for the host,
    and every call it makes that names a client (its connect, the channels
    it opens, its close) names that one. *)
Theorem tunnel_worker_uses_own_client h lp rh rp rounds σ :
  pool (fst (tunnel_worker h lp rh rp rounds σ)) = pool σ
  ∧ clients (fst (tunnel_worker h lp rh rp rounds σ)) = S (clients σ)
  ∧ ∃ more,
      calls (fst (tunnel_worker h lp rh rp rounds σ)) = calls σ ++ more
      ∧ Forall (λ c, ∀ s, client_of c = Some s → s = clients σ) more.
Proof.
  unfold tunnel_worker, new_client, tunnel_setup, bind, call. simpl.
  destruct (connect _ _ _) as [w [[]|e]]; simpl.
  - destruct (bind_listen _ _) as [w' [s|e]]; simpl.
    + match goal with |- context [accept_loop rounds ?c s rh rp ?s0] =>
        destruct (accept_loop_frame c s rh rp rounds s0)
          as (Hp & Hc & more & Hcalls & Hmore);
        destruct (accept_loop rounds c s rh rp s0) as [σ2 [[]|e]]
      end; simpl in *.
      * rewrite Hp, Hc, Hcalls. repeat split.
        eexists. rewrite <- !app_assoc. split; [done|]. simpl.
        constructor; [by intros ? [= <-]|]. constructor; [by intros ? [=]|].
        done.
      * destruct (close _ _) as [w'' r]. simpl.
        rewrite Hp, Hc, Hcalls. repeat split.
        eexists. rewrite <- !app_assoc. split; [done|]. simpl.
        constructor; [by intros ? [= <-]|]. constructor; [by intros ? [=]|].
        apply Forall_app. split; [done|].
        constructor; [by intros ? [= <-] | constructor].
    + destruct (close _ _) as [w'' r]. simpl. repeat split.
      eexists. rewrite <- !app_assoc. split; [done|]. simpl.
      repeat (constructor; [by intros ? [= <-] || by intros ? [=]|]). done.
  - destruct (close _ _) as [w'' r]. simpl. repeat split.
    eexists. rewrite <- !app_assoc. split; [done|]. simpl.
    repeat (constructor; [by intros ? [= <-] || by intros ? [=]|]). done.
Qed.

Lemma accept_loop_relayed ssh ls rh rp n : ∀ σ σ1,
  accept_loop n ssh ls rh rp σ = (σ1, Ok tt) →
  ∃ conns, length conns = n
           ∧ served ssh ls (rh, rp) conns (world σ) (world σ1)
           ∧ calls σ1 = calls σ ++ (conns ≫= relayed ssh ls (rh, rp)).
Proof.
  induction n as [|n IH]; intros σ σ1; simpl.
  - intros [= <-]. exists []. by rewrite app_nil_r.
  - unfold bind, call, start_relay.
    destruct (accept ls (world σ)) as [wa [[client addr]|e]] eqn:Ha; simpl;
      [|done].
    destruct (open_channel _ _ _ _) as [wb [ch|e]] eqn:Ho; simpl; [|done].
    intros Hloop. apply IH in Hloop as (conns & Hlen & Hserved & ->). simpl.
    exists ((client, addr, ch) :: conns). split; [simpl; lia|]. split.
    + simpl in Hserved. by exists wa, wb.
    + by rewrite <- !app_assoc.
Qed.

(** X16. A worker that is still listening after [rounds] passes of its loop
    has connected its client, bound the local port, and accepted [rounds]
    connections on the socket [bind_listen] returned; for each of them, in
    turn, it opened one channel to the remote host and port of the tunnel
    with the address [accept] returned as source, and started one relay
    between the socket [accept] returned and the channel [open_channel]
    returned. *)
Theorem tunnel_relays_each_accepted_connection h lp rh rp rounds σ σ1 :
  tunnel_worker h lp rh rp rounds σ = (σ1, Listening) →
  ∃ w0 w1 local_socket conns,
    connect (clients σ) (tunnel_connect_args h) (world σ) = (w0, Ok tt)
    ∧ bind_listen lp w0 = (w1, Ok local_socket)
    ∧ served (clients σ) local_socket (rh, rp) conns w1 (world σ1)
    ∧ length conns = rounds
    ∧ calls σ1 = calls σ ++ CConnect (clients σ) (tunnel_connect_args h)
                 :: CBindListen lp
                 :: (conns ≫= relayed (clients σ) local_socket (rh, rp)).
Proof.
  intros Hrun.
  destruct (tunnel_worker_listening _ _ _ _ _ _ _ Hrun)
    as (σ0 & ls & Hset & Hloop).
  apply accept_loop_relayed in Hloop as (conns & Hlen & Hserved & ->).
  revert Hset. unfold tunnel_setup, bind, call, ret, new_client. simpl.
  destruct (connect _ _ _) as [w [[]|e]]; [|done]. simpl.
  destruct (bind_listen _ _) as [w' [s|e]] eqn:Hbind; [|done]. simpl.
  intros Hset. injection Hset as <- <-. simpl in *. exists w, w', s, conns.
  do 4 (split; [done|]). by rewrite <- !app_assoc.
Qed.

Lemma forward_loop_trace src dst chunks : ∀ σ σ' r,
  forward_loop chunks src dst σ = (σ', r) →
  ∃ sent tail,
    calls σ' = calls σ ++ (sent ≫= copied src dst) ++ tail
    ∧ Forall (λ d, d ≠ [] ∧ ∃ w, snd (recv src w) = Ok d) sent
    ∧ match r with
      | Ok false => tail = [] ∧ length sent = chunks
      | Ok true => tail = [CRecv src]
      | Raise _ => tail = [CRecv src] ∨ tail = []
      end.
Proof.
  induction chunks as [|chunks IH]; intros σ σ' r; simpl.
  - intros [= <- <-]. exists [], []. simpl. by rewrite app_nil_r.
  - unfold bind, call.
    destruct (recv src (world σ)) as [w [data|e]] eqn:Hrecv; simpl.
    2:{ intros [= <- <-]. exists [], [CRecv src]. simpl.
        split; [done|]. split; [done|]. by left. }
    destruct data as [|b data]; simpl.
    { intros [= <- <-]. by exists [], [CRecv src]. }
    destruct (send dst (b :: data) w) as [w2 [[]|e]]; simpl.
    2:{ intros [= <- <-]. exists [b :: data], []. simpl.
        rewrite <- app_assoc. split; [done|]. split; [|by right].
        constructor; [|done]. split; [done|].
        exists (world σ). by rewrite Hrecv. }
    intros Hloop. apply IH in Hloop as (sent & tail & Hc & Hsent & Hend).
    simpl in Hc.
    exists ((b :: data) :: sent), tail. rewrite Hc. simpl.
    rewrite <- !app_assoc. split; [done|]. split.
    + constructor; [|done]. split; [done|].
      exists (world σ). by rewrite Hrecv.
    + destruct r as [[]|e]; [done| |done].
      destruct Hend as [-> ->]. done.
Qed.

(** X17. [forward_data] copies: every chunk it receives from its source it sends
    on, unchanged and in order, to its destination, and it never sends an
    empty chunk.  While the loop runs it closes nothing; once the loop is
    over (the source is at its end, or a call raised) it closes the source
    and then the destination, and the destination is left open only when
    closing the source raised. *)
Theorem forward_data_copies_then_closes chunks src dst σ :
  ∃ sent tail,
    calls (forward_data chunks src dst σ)
    = calls σ ++ (sent ≫= copied src dst) ++ tail
    ∧ Forall (λ d, d ≠ [] ∧ ∃ w, snd (recv src w) = Ok d) sent
    ∧ ((tail = [] ∧ length sent = chunks)
       ∨ ∃ last,
           (last = [] ∨ last = [CRecv src])
           ∧ (tail = last ++ [CEndpointClose src; CEndpointClose dst]
              ∨ (tail = last ++ [CEndpointClose src]
                 ∧ ∃ w e, snd (endpoint_close src w) = Raise e))).
Proof.
  unfold forward_data.
  destruct (forward_loop chunks src dst σ) as [σ1 r] eqn:Hloop.
  destruct (forward_loop_trace src dst chunks σ σ1 r Hloop)
    as (sent & tail & Hc & Hsent & Hend).
  assert (∀ last, tail = last → (last = [] ∨ last = [CRecv src]) →
    ∃ sent0 tail0,
      calls (fst ((_ <- call (CEndpointClose src) (endpoint_close src) ;;
                   call (CEndpointClose dst) (endpoint_close dst)) σ1))
      = calls σ ++ (sent0 ≫= copied src dst) ++ tail0
      ∧ Forall (λ d, d ≠ [] ∧ ∃ w, snd (recv src w) = Ok d) sent0
      ∧ ((tail0 = [] ∧ length sent0 = chunks)
         ∨ ∃ last0,
             (last0 = [] ∨ last0 = [CRecv src])
             ∧ (tail0 = last0 ++ [CEndpointClose src; CEndpointClose dst]
                ∨ (tail0 = last0 ++ [CEndpointClose src]
                   ∧ ∃ w e, snd (endpoint_close src w) = Raise e)))) as Hclose.
  { intros last -> Hlast. unfold bind, call.
    destruct (endpoint_close src (world σ1)) as [w [[]|e]] eqn:Hcs; simpl.
    - destruct (endpoint_close dst w) as [w' r']. simpl.
      exists sent, (last ++ [CEndpointClose src; CEndpointClose dst]).
      rewrite Hc, <- !app_assoc. simpl. split; [done|]. split; [done|].
      right. exists last. split; [done|]. by left.
    - exists sent, (last ++ [CEndpointClose src]).
      rewrite Hc, <- !app_assoc. split; [done|]. split; [done|].
      right. exists last. split; [done|]. right. split; [done|].
      exists (world σ1), e. by rewrite Hcs. }
  destruct r as [[]|e].
  - apply (Hclose tail); [done|]. by right.
  - destruct Hend as [-> Hlen]. exists sent, []. split; [done|].
    split; [done|]. by left.
  - apply (Hclose tail); [done|]. destruct Hend as [->| ->]; [by right|by left].
Qed.

End TunnelMore.

Lemma tunnel_connect_failure_never_listens_witness :
  snd (@tunnel_worker scripted server1 9000 "127.0.0.1" 8080 7
         (cut_off (hostname server1) (@fresh scripted 5 quiet))) = Stopped
  ∧ calls (fst (@tunnel_worker scripted server1 9000 "127.0.0.1" 8080 7
                  (cut_off (hostname server1) (@fresh scripted 5 quiet))))
    = [CConnect 0%nat (tunnel_connect_args server1); CClose 0%nat].
Proof.
  destruct (@tunnel_connect_failure_never_listens scripted server1 9000
              "127.0.0.1" 8080 7
              (cut_off (hostname server1) (@fresh scripted 5 quiet))
              _ (Exception "timed out") eq_refl) as (H1 & H2 & _).
  exact (conj H1 H2).
Defined.

Lemma tunnel_bind_failure_closes_client_witness :
  calls (fst (@tunnel_worker port_taken server1 9000 "127.0.0.1" 8080 7
                (@fresh port_taken 5 quiet)))
  = [CConnect 0%nat (tunnel_connect_args server1); CBindListen 9000;
     CClose 0%nat].
Proof.
  exact (proj1 (proj2 (@tunnel_bind_failure_closes_client port_taken server1
           9000 "127.0.0.1" 8080 7 (@fresh port_taken 5 quiet) _ _
           (Exception "[Errno 98] Address already in use") eq_refl eq_refl))).
Defined.

Lemma tunnel_relays_each_accepted_connection_witness :
  ∃ local_socket conns,
    length conns = 2%nat
    ∧ calls (fst (@tunnel_worker scripted server1 9000 "127.0.0.1" 8080 2
                    (@fresh scripted 5 quiet)))
      = [] ++ CConnect 0%nat (tunnel_connect_args server1)
        :: CBindListen 9000
        :: (conns ≫= relayed 0%nat local_socket ("127.0.0.1", 8080)).
Proof.
  remember (@tunnel_worker scripted server1 9000 "127.0.0.1" 8080 2
              (@fresh scripted 5 quiet)) as p eqn:Hp.
  assert (snd p = Listening) as Hs by (rewrite Hp; reflexivity).
  destruct p as [σ1 st]. simpl in Hs. subst st. symmetry in Hp.
  destruct (@tunnel_relays_each_accepted_connection scripted server1 9000
              "127.0.0.1" 8080 2 (@fresh scripted 5 quiet) σ1 Hp)
    as (w0 & w1 & local_socket & conns & _ & _ & _ & Hlen & Hcalls).
  exists local_socket, conns. split; [exact Hlen|exact Hcalls].
Defined.

(** The two connections of that run: the sockets and source addresses
    [accept] returned, with the channels opened for them. *)
Example two_connections_relayed :
  calls (fst (@tunnel_worker scripted server1 9000 "127.0.0.1" 8080 2
                (@fresh scripted 5 quiet)))
  = [CConnect 0%nat (tunnel_connect_args server1); CBindListen 9000;
     CAccept 0%nat;
     COpenChannel 0%nat ("127.0.0.1", 8080) ("127.0.0.1", 50001);
     CStartRelay 1%nat 0%nat;
     CAccept 0%nat;
     COpenChannel 0%nat ("127.0.0.1", 8080) ("127.0.0.1", 50002);
     CStartRelay 2%nat 1%nat].
Proof. reflexivity. Qed.

(** ** File transfer *)

Section TransferProps.
Context `{F : FileTransport}.

(** The body stopped at the last call of [more]. *)
Ltac transfer_stops Hrun ssh sftp w more Hcall :=
  injection Hrun as <- <-; simpl; do 3 (split; [done|]); exists more;
  rewrite <- ?app_assoc; do 2 (split; [done|]); right; exists ssh, sftp;
  split; [done|]; split; [by eexists|]; eexists; split; [reflexivity|];
  exists w; simpl; by rewrite Hcall.

(** What the [try] body of [transfer_file] does, by its outcome. *)
Lemma transfer_body_cases h local_path remote_path upload φ φ' r :
  transfer_body h local_path remote_path upload φ = (φ', r) →
  let σ1 := fst (get_connection h (base φ)) in
  pool (base φ') = pool σ1 ∧ clients (base φ') = clients σ1 ∧
  calls (base φ') = calls σ1 ∧
  ∃ more, file_calls φ' = file_calls φ ++ more ∧
    match r with
    | Ok b =>
        b = true ∧
        log (base φ') =
          log σ1 ++ [(INFO, "Archivo transferido: " +:+ local_path +:+ " -> "
                            +:+ remote_path)] ∧
        ∃ ssh sftp, snd (get_connection h (base φ)) = Ok ssh ∧
          more = transfer_plan upload local_path remote_path ssh sftp
    | Raise e =>
        log (base φ') = log σ1 ∧
        ((snd (get_connection h (base φ)) = Raise e ∧ more = []) ∨
         ∃ ssh sftp, snd (get_connection h (base φ)) = Ok ssh ∧
           more `prefix_of` transfer_plan upload local_path remote_path ssh sftp ∧
           ∃ c, last more = Some c ∧ raised_by c e)
    end.
Proof.
  intros Hrun. cbv zeta. revert Hrun.
  unfold transfer_body, bindF, on_state, file_call. intros Hrun.
  destruct (get_connection h (base φ)) as [σ1 [ssh|e]]; simpl in *.
  2: { injection Hrun as <- <-; simpl. do 3 (split; [done|]). exists [].
       rewrite app_nil_r. do 2 (split; [done|]). by left. }
  destruct (open_sftp ssh (world σ1)) as [w1 [sftp|e]] eqn:Hopen; simpl in *.
  2: { transfer_stops Hrun ssh 0%nat (world σ1) [FOpenSftp ssh] Hopen. }
  destruct upload; simpl in *.
  - destruct (stat_size local_path w1) as [w2 [sz|e]] eqn:Hstat; simpl in *.
    2: { transfer_stops Hrun ssh sftp w1 [FOpenSftp ssh; FStat local_path]
           Hstat. }
    destruct (sftp_put sftp local_path remote_path w2) as [w3 [[]|e]] eqn:Hput;
      simpl in *.
    2: { transfer_stops Hrun ssh sftp w2
           [FOpenSftp ssh; FStat local_path; FPut sftp local_path remote_path]
           Hput. }
    destruct (sftp_close sftp w3) as [w4 [[]|e]] eqn:Hclose; simpl in *.
    2: { transfer_stops Hrun ssh sftp w3
           (transfer_plan true local_path remote_path ssh sftp) Hclose. }
    injection Hrun as <- <-; simpl. do 3 (split; [done|]).
    exists (transfer_plan true local_path remote_path ssh sftp).
    rewrite <- !app_assoc. do 3 (split; [done|]). by exists ssh, sftp.
  - destruct (sftp_get sftp remote_path local_path w1) as [w3 [[]|e]] eqn:Hget;
      simpl in *.
    2: { transfer_stops Hrun ssh sftp w1
           [FOpenSftp ssh; FGet sftp remote_path local_path] Hget. }
    destruct (sftp_close sftp w3) as [w4 [[]|e]] eqn:Hclose; simpl in *.
    2: { transfer_stops Hrun ssh sftp w3
           (transfer_plan false local_path remote_path ssh sftp) Hclose. }
    injection Hrun as <- <-; simpl. do 3 (split; [done|]).
    exists (transfer_plan false local_path remote_path ssh sftp).
    rewrite <- !app_assoc. do 3 (split; [done|]). by exists ssh, sftp.
Qed.


(** X19. When the local file of an upload cannot be inspected, nothing is
    sent: [transfer_file] returns [False] without calling [put]. *)
Theorem upload_of_missing_file_sends_nothing h local_path remote_path φ :
  (∀ w, ∃ e, snd (stat_size local_path w) = Raise e) →
  snd (transfer_file h local_path remote_path true φ) = false
  ∧ ∃ more,
      file_calls (fst (transfer_file h local_path remote_path true φ))
      = file_calls φ ++ more
      ∧ Forall (λ c, is_put c = false) more.
Proof.
  intros Hstat. unfold transfer_file, transfer_body, bindF, on_state, file_call.
  destruct (get_connection h (base φ)) as [σ1 [ssh|e]]; simpl;
    [|split; [done|]; exists []; by rewrite app_nil_r].
  destruct (open_sftp ssh (world σ1)) as [w1 [sftp|e]]; simpl;
    [|split; [done|]; exists [FOpenSftp ssh]; split; [done|];
      by repeat constructor].
  destruct (Hstat w1) as [e He].
  destruct (stat_size local_path w1) as [w2 r]; simpl in *. subst r. simpl.
  split; [done|]. exists [FOpenSftp ssh; FStat local_path].
  rewrite <- app_assoc. split; [done|]. by repeat constructor.
Qed.

(** X20. A transfer that failed did not close its SFTP session: among the
    file calls it made, a [close] appears only when that [close] is the
    call that raised. *)
Theorem failed_transfer_leaves_sftp_open h local_path remote_path upload φ :
  snd (transfer_file h local_path remote_path upload φ) = false →
  ∃ more,
    file_calls (fst (transfer_file h local_path remote_path upload φ))
    = file_calls φ ++ more
    ∧ ∀ sftp, FSftpClose sftp ∈ more →
        ∃ e, raised_by (FSftpClose sftp) e
             ∧ last more = Some (FSftpClose sftp).
Proof.
  unfold transfer_file.
  destruct (transfer_body h local_path remote_path upload φ) as [φ1 r] eqn:Hrun.
  apply transfer_body_cases in Hrun as (_ & _ & _ & more & Hfiles & Hr).
  destruct r as [b|e]; simpl; intros Hfalse.
  { destruct Hr as [-> _]. discriminate Hfalse. }
  exists more. split; [done|]. intros s Hin.
  destruct Hr
    as (_ & [[_ ->]|(ssh & sftp & _ & [rest Hpre] & c & Hlast & Hc)]).
  { by apply elem_of_nil in Hin. }
  assert (c = FSftpClose s) as ->; [|by exists e].
  destruct more as [|c0 more0] using rev_ind; [done|]. clear IHmore0.
  rewrite last_snoc in Hlast. injection Hlast as ->.
  apply elem_of_app in Hin as [Hin|Hin]; [|by apply list_elem_of_singleton in Hin].
  exfalso. unfold transfer_plan in Hpre.
  destruct upload; simpl in Hpre;
    repeat (destruct more0 as [|? more0];
            [by repeat (apply elem_of_cons in Hin as [Hin|Hin];
                        [discriminate Hin|]); try by apply elem_of_nil in Hin|];
            simpl in Hpre; injection Hpre as <- Hpre;
            try (by destruct more0; discriminate Hpre)).
Qed.

(** X21. [transfer_file] never closes the SSH session: it records no call
    on a client beyond those of the acquisition, and leaves the pool as the
    acquisition left it, so the session it used stays pooled for the host
    whether the transfer went through or failed. *)
Theorem transfer_file_keeps_ssh_session h local_path remote_path upload φ :
  let σ1 := fst (get_connection h (base φ)) in
  let φ' := fst (transfer_file h local_path remote_path upload φ) in
  calls (base φ') = calls σ1
  ∧ clients (base φ') = clients σ1
  ∧ pool (base φ') = pool σ1
  ∧ (∃ more, calls (base φ') = calls (base φ) ++ more
             ∧ Forall (λ c, is_close c = false) more)
  ∧ ∀ ssh, snd (get_connection h (base φ)) = Ok ssh →
      connections (pool (base φ')) !! host_key h = Some ssh.
Proof.
  cbv zeta.
  assert (calls (base (fst (transfer_file h local_path remote_path upload φ)))
          = calls (fst (get_connection h (base φ)))
          ∧ clients (base (fst (transfer_file h local_path remote_path upload φ)))
            = clients (fst (get_connection h (base φ)))
          ∧ pool (base (fst (transfer_file h local_path remote_path upload φ)))
            = pool (fst (get_connection h (base φ)))) as (Hcalls & Hclients & Hpool).
  { unfold transfer_file.
    destruct (transfer_body h local_path remote_path upload φ) as [φ1 r] eqn:Hrun.
    apply transfer_body_cases in Hrun as (Hp & Hc & Hcs & _).
    by destruct r. }
  do 3 (split; [done|]). split.
  - rewrite Hcalls.
    apply (adds_get_connection (λ c, is_close c = false) h). done.
  - intros ssh Hok. rewrite Hpool.
    pose proof (acquired_session_pooled h (base φ)) as Hentry.
    by rewrite Hok in Hentry.
Qed.

End TransferProps.

Lemma upload_of_missing_file_sends_nothing_witness :
  (∀ w, ∃ e, snd (@stat_size scripted scripted_files "/no/such/file" w)
             = Raise e)
  ∧ snd (@transfer_file scripted scripted_files server1 "/no/such/file"
           "/tmp/file" true no_files) = false.
Proof.
  split; [intros w; eexists; reflexivity|].
  refine (proj1 (@upload_of_missing_file_sends_nothing scripted scripted_files
                   server1 "/no/such/file" "/tmp/file" no_files _)).
  intros w. eexists. reflexivity.
Defined.

Lemma failed_transfer_leaves_sftp_open_witness :
  snd (@transfer_file scripted scripted_files server1 "/no/such/file"
         "/tmp/file" true no_files) = false
  ∧ ∃ more,
      file_calls (fst (@transfer_file scripted scripted_files server1
                         "/no/such/file" "/tmp/file" true no_files))
      = file_calls no_files ++ more
      ∧ ∀ sftp, FSftpClose sftp ∈ more →
          ∃ e, @raised_by scripted scripted_files (FSftpClose sftp) e
               ∧ last more = Some (FSftpClose sftp).
Proof.
  split; [reflexivity|].
  exact (@failed_transfer_leaves_sftp_open scripted scripted_files server1
           "/no/such/file" "/tmp/file" true no_files eq_refl).
Defined.

(** An upload of a file that does not exist: the SFTP session was opened
    and is not closed, the SSH session stays pooled. *)
Example sftp_left_open :
  let φ' := fst (@transfer_file scripted scripted_files server1
                   "/no/such/file" "/tmp/file" true no_files) in
  file_calls φ' = [FOpenSftp 0%nat; FStat "/no/such/file"]
  ∧ connections (pool (base φ')) !! host_key server1 = Some 0%nat
  ∧ last (log (base φ'))
    = Some (ERROR, "Error transfiriendo archivo: [Errno 2] No such file or directory: '/no/such/file'").
Proof. cbv zeta. repeat split; reflexivity. Qed.

(** A download that goes through. *)
Example download_goes_through :
  let out := @transfer_file scripted scripted_files server1
               "/tmp/copy" "/etc/hostname" false no_files in
  snd out = true
  ∧ file_calls (fst out)
    = [FOpenSftp 0%nat; FGet 0%nat "/etc/hostname" "/tmp/copy";
       FSftpClose 0%nat]
  ∧ last (log (base (fst out)))
    = Some (INFO, "Archivo transferido: /tmp/copy -> /etc/hostname").
Proof. cbv zeta. repeat split; reflexivity. Qed.

(** ** The table of [monitor_system] *)

Lemma string_app_nil (b : string) : EmptyString +:+ b = b.
Proof. reflexivity. Qed.

Lemma string_app_cons c (a b : string) :
  String c a +:+ b = String c (a +:+ b).
Proof. reflexivity. Qed.

Lemma string_app_assoc (a b c : string) : (a +:+ b) +:+ c = a +:+ b +:+ c.
Proof.
  induction a as [|x a IH]; [done|]. by rewrite !string_app_cons, IH.
Qed.

Lemma string_app_empty_r (a : string) : a +:+ EmptyString = a.
Proof. induction a as [|x a IH]; [done|]. by rewrite string_app_cons, IH. Qed.

Lemma string_app_empty (a b : string) :
  a +:+ b = EmptyString → a = EmptyString ∧ b = EmptyString.
Proof. destruct a; [by rewrite string_app_nil|by rewrite string_app_cons]. Qed.

(** White space at the end is dropped. *)
Lemma rstrip_app_space a ws :
  py_rstrip ws = EmptyString → py_rstrip (a +:+ ws) = py_rstrip a.
Proof.
  intros Hws. induction a as [|c a IH]; [by rewrite string_app_nil|].
  rewrite string_app_cons. cbn [py_rstrip]. by rewrite IH.
Qed.

(** What comes before the last character that is kept, is kept. *)
Lemma rstrip_app a b :
  py_rstrip b ≠ EmptyString → py_rstrip (a +:+ b) = a +:+ py_rstrip b.
Proof.
  intros Hb. induction a as [|c a IH]; [by rewrite !string_app_nil|].
  rewrite !string_app_cons. cbn [py_rstrip]. rewrite IH.
  destruct (a +:+ py_rstrip b) eqn:Heq; [|done].
  by apply string_app_empty in Heq as [_ ?].
Qed.

(** A string without the separator is one piece. *)
Lemma split_from_no_occurrence sep v : ∀ cur,
  occurs sep v = false → split_from sep 0 cur v = [cur +:+ v].
Proof.
  induction v as [|c v IH]; intros cur Hno.
  - cbn [split_from]. by rewrite string_app_empty_r.
  - cbn [occurs] in Hno. apply orb_false_iff in Hno as [Hhere Hlater].
    cbn [split_from]. rewrite Hhere, (IH _ Hlater), string_app_assoc.
    by rewrite string_app_cons, string_app_nil.
Qed.

(** A split gives at least one piece. *)
Lemma split_from_cons sep s : ∀ skip cur,
  ∃ piece pieces, split_from sep skip cur s = piece :: pieces.
Proof.
  induction s as [|c s IH]; intros skip cur; [by eexists _, _|].
  cbn [split_from]. destruct skip as [|k]; [|apply IH].
  destruct (starts_with sep (String c s)); [by eexists _, _|apply IH].
Qed.

(** The first line of a text. *)
Lemma split_line a b : ∀ cur,
  occurs newline a = false →
  split_from newline 0 cur (a +:+ newline +:+ b)
  = (cur +:+ a) :: split_from newline 0 EmptyString b.
Proof.
  induction a as [|c a IH]; intros cur Hno.
  - rewrite string_app_nil, string_app_empty_r. reflexivity.
  - cbn [occurs] in Hno. apply orb_false_iff in Hno as [Hhere Hlater].
    rewrite string_app_cons. cbn [split_from].
    change (starts_with newline (String c (a +:+ newline +:+ b)))
      with (starts_with newline (String c a)).
    rewrite Hhere, (IH _ Hlater), string_app_assoc.
    by rewrite string_app_cons, string_app_nil.
Qed.

(** The lines of a text of five lines. *)
Lemma split_five_lines l0 l1 l2 l3 l4 :
  Forall (λ l, occurs newline l = false) [l0; l1; l2; l3; l4] →
  py_split newline
    (l0 +:+ newline +:+ l1 +:+ newline +:+ l2 +:+ newline +:+ l3
     +:+ newline +:+ l4)
  = [l0; l1; l2; l3; l4].
Proof.
  intros Hno. repeat (apply Forall_cons in Hno as [? Hno]).
  unfold py_split. rewrite !split_line by done.
  by rewrite split_from_no_occurrence.
Qed.

Section MonitorProps.
Context `{T : Transport}.

(** The value of a line [key: value]. *)
Lemma field_value lines i key value :
  lines !! i = Some (key +:+ ": " +:+ value) →
  py_split ": " (key +:+ ": " +:+ value) = key :: py_split ": " value →
  occurs ": " value = false →
  field lines i = Ok value.
Proof.
  intros Hline Hkey Hno. unfold field. rewrite Hline, Hkey.
  unfold py_split. by rewrite split_from_no_occurrence.
Qed.

(** A line [key: value] has a value, whatever follows the key. *)
Lemma field_some lines i key value :
  lines !! i = Some (key +:+ ": " +:+ value) →
  py_split ": " (key +:+ ": " +:+ value) = key :: py_split ": " value →
  ∃ v, field lines i = Ok v.
Proof.
  intros Hline Hkey. unfold field. rewrite Hline, Hkey.
  destruct (split_from_cons ": " value 0%nat EmptyString) as (v & vs & Hv).
  unfold py_split. rewrite Hv. by exists v.
Qed.

(** [IndexError] is all a row can raise. *)
Lemma monitor_row_raises r e :
  monitor_row r = Raise e → e = Exception "list index out of range".
Proof.
  unfold monitor_row, and_then. destruct (success r); [|done].
  assert (∀ lines i e', field lines i = Raise e' →
            e' = Exception "list index out of range") as Hfield.
  { intros lines i e'. unfold field.
    destruct (lines !! i); [|done].
    destruct (_ !! 1%nat); [done|]. by intros [= <-]. }
  repeat (match goal with
          | |- context [field ?l ?i] =>
              let H := fresh in
              destruct (field l i) eqn:H;
              [|apply Hfield in H; by intros [= <-]]
          end).
  done.
Qed.

(** A row that raises ends the table. *)
Lemma monitor_table_raises results r e :
  r ∈ results → monitor_row r = Raise e → monitor_table results = Raise e.
Proof.
  intros Hin Hrow. induction results as [|r' rest IH]; [by apply elem_of_nil in Hin|].
  simpl. apply elem_of_cons in Hin as [<-|Hin]; [by rewrite Hrow|].
  destruct (monitor_row r') as [row|e'] eqn:Hrow'; simpl.
  - by rewrite (IH Hin).
  - apply monitor_row_raises in Hrow', Hrow. congruence.
Qed.

(** X22. The table reads what the command of [get_system_info] prints: for a
    successful result whose output is the header and the four lines
    [CPU: ], [Memory: ], [Disk: ] and [Load: ] with their values, the row
    is the hostname and the four values, provided no value holds a line
    feed or the separator and the last does not end in white space. *)
Theorem monitor_row_reads_system_info r cpu mem disk load :
  success r = true →
  stdout r = system_info cpu mem disk load →
  Forall (λ v, occurs newline v = false ∧ occurs ": " v = false)
         [cpu; mem; disk; load] →
  py_rstrip load = load → load ≠ EmptyString →
  monitor_row r = Ok [host r; cpu; mem; disk; load].
Proof.
  intros Hsucc Hout Hvalues Hrstrip Hload.
  repeat (apply Forall_cons in Hvalues as [[? ?] Hvalues]).
  unfold monitor_row. rewrite Hsucc, Hout.
  assert (py_strip (system_info cpu mem disk load)
          = "=== SYSTEM INFO ===" +:+ newline +:+ ("CPU: " +:+ cpu) +:+ newline
            +:+ ("Memory: " +:+ mem) +:+ newline +:+ ("Disk: " +:+ disk)
            +:+ newline +:+ ("Load: " +:+ load)) as ->.
  { unfold py_strip, system_info.
    rewrite <- !(string_app_assoc _ _ newline).
    rewrite <- !(string_app_assoc _ _ load).
    rewrite (rstrip_app_space _ newline) by done.
    rewrite rstrip_app by (by rewrite Hrstrip).
    rewrite Hrstrip, !string_app_assoc. reflexivity. }
  rewrite split_five_lines by (repeat constructor; done).
  rewrite (field_value _ 1 "CPU" cpu), (field_value _ 2 "Memory" mem),
    (field_value _ 3 "Disk" disk), (field_value _ 4 "Load" load) by done.
  done.
Qed.

(** X23. When the last value of the output is empty or white space only
    (the load, when [uptime] prints no load average), stripping the output
    takes the blank of [Load: ] away and the line has no value to index:
    the row raises [IndexError], and so does the table of every list of
    results that holds this one, whatever the other hosts returned. *)
Theorem monitor_table_fails_on_empty_last_value results r cpu mem disk load :
  r ∈ results →
  success r = true →
  stdout r = system_info cpu mem disk load →
  Forall (λ v, occurs newline v = false) [cpu; mem; disk] →
  py_rstrip load = EmptyString →
  monitor_row r = Raise (Exception "list index out of range")
  ∧ monitor_table results = Raise (Exception "list index out of range").
Proof.
  intros Hin Hsucc Hout Hvalues Hload.
  repeat (apply Forall_cons in Hvalues as [? Hvalues]).
  assert (monitor_row r = Raise (Exception "list index out of range")) as Hrow;
    [|split; [done|by apply (monitor_table_raises results r)]].
  unfold monitor_row. rewrite Hsucc, Hout.
  assert (py_rstrip ("Load: " +:+ load +:+ newline) = "Load:") as Hlast.
  { rewrite rstrip_app_space; [reflexivity|].
    by rewrite rstrip_app_space. }
  assert (py_strip (system_info cpu mem disk load)
          = "=== SYSTEM INFO ===" +:+ newline +:+ ("CPU: " +:+ cpu) +:+ newline
            +:+ ("Memory: " +:+ mem) +:+ newline +:+ ("Disk: " +:+ disk)
            +:+ newline +:+ "Load:") as ->.
  { unfold py_strip, system_info.
    rewrite <- !(string_app_assoc _ _ ("Load: " +:+ load +:+ newline)).
    rewrite rstrip_app by (by rewrite Hlast).
    rewrite Hlast, !string_app_assoc. reflexivity. }
  rewrite split_five_lines by (repeat constructor; done).
  destruct (field_some ["=== SYSTEM INFO ==="; "CPU: " +:+ cpu;
                        "Memory: " +:+ mem; "Disk: " +:+ disk; "Load:"]
              1 "CPU" cpu eq_refl eq_refl) as [v1 ->].
  destruct (field_some ["=== SYSTEM INFO ==="; "CPU: " +:+ cpu;
                        "Memory: " +:+ mem; "Disk: " +:+ disk; "Load:"]
              2 "Memory" mem eq_refl eq_refl) as [v2 ->].
  destruct (field_some ["=== SYSTEM INFO ==="; "CPU: " +:+ cpu;
                        "Memory: " +:+ mem; "Disk: " +:+ disk; "Load:"]
              3 "Disk" disk eq_refl eq_refl) as [v3 ->].
  reflexivity.
Qed.

(** X24. A successful result whose output, stripped, is a single line (or
    nothing at all) gives a row of [N/A] cells: the first line is never
    read, and each missing line stands for a missing value. *)
Theorem monitor_row_of_short_output r :
  success r = true →
  occurs newline (py_strip (stdout r)) = false →
  monitor_row r = Ok [host r; "N/A"; "N/A"; "N/A"; "N/A"].
Proof.
  intros Hsucc Hno. unfold monitor_row, py_split.
  by rewrite Hsucc, split_from_no_occurrence.
Qed.

End MonitorProps.

Lemma monitor_row_reads_system_info_witness :
  @monitor_row scripted
    (monitored (system_info "12.5" "2.1G/7.7G" "43%" " 0.10, 0.20, 0.30"))
  = Ok ["192.168.1.100"; "12.5"; "2.1G/7.7G"; "43%"; " 0.10, 0.20, 0.30"].
Proof.
  apply (@monitor_row_reads_system_info scripted
           (monitored (system_info "12.5" "2.1G/7.7G" "43%"
                         " 0.10, 0.20, 0.30"))
           "12.5" "2.1G/7.7G" "43%" " 0.10, 0.20, 0.30");
    [reflexivity|reflexivity|by repeat constructor|reflexivity|discriminate].
Defined.

Lemma monitor_table_fails_on_empty_last_value_witness :
  @monitor_table scripted
    [monitored (system_info "12.5" "2.1G/7.7G" "43%" " 0.10, 0.20, 0.30");
     monitored (system_info "3.0" "1.0G/7.7G" "12%" "")]
  = Raise (Exception "list index out of range").
Proof.
  refine (proj2 (@monitor_table_fails_on_empty_last_value scripted _
                   (monitored (system_info "3.0" "1.0G/7.7G" "12%" ""))
                   "3.0" "1.0G/7.7G" "12%" "" _ eq_refl eq_refl _ eq_refl)).
  - apply list_elem_of_further, list_elem_of_here.
  - by repeat constructor.
Defined.

Lemma monitor_row_of_short_output_witness :
  @monitor_row scripted (monitored "")
  = Ok ["192.168.1.100"; "N/A"; "N/A"; "N/A"; "N/A"].
Proof.
  exact (@monitor_row_of_short_output scripted (monitored "") eq_refl eq_refl).
Defined.
